(** * base-audit-bot: deployment monitor and audit dispatch pipeline

    A shallow embedding of the TypeScript sources
    (services/analyzer.ts, services/basescan.ts, services/storage.ts,
    services/monitor.ts, routes/api.ts) and the properties of the
    specification checked against them.

    Conventions.
    - A JavaScript string is the list of its UTF-16 code units ([list N]);
      [.length] is [length], [slice], [split], [trim] work on code units.
    - Calls that leave the process (chain RPC, Basescan, the language model,
      [Date.now], [uuidv4], [JSON.parse], SHA-256) are inputs of the
      functions that use them: an oracle argument or a field of an
      environment record.
    - An [await] inside [try]/[catch] that may throw is an [option]: [None]
      is the thrown error. *)

From Stdlib Require Import ZArith NArith Lia Floats Sorting.Sorted.
From stdpp Require Import base option list strings gmap pretty.

Set Warnings "-inexact-float".
Set Default Proof Using "Type".

(** ** JavaScript strings *)

Module JS.

Definition char := N.
Definition jsstring := list char.

(** String literals of this file: every Rocq character is one code unit. *)
Fixpoint js (s : string) : jsstring :=
  match s with
  | EmptyString => []
  | String a s' => Ascii.N_of_ascii a :: js s'
  end.

Definition LF : char := 10%N.
Definition LBRACE : char := 123%N.

(** [\s] of an ECMAScript regular expression, also the set [trim] strips:
    WhiteSpace and LineTerminator. *)
Definition is_space (c : char) : bool :=
  ((9 <=? c) && (c <=? 13) || (c =? 32) || (c =? 160) || (c =? 0x1680)
   || (0x2000 <=? c) && (c <=? 0x200a)
   || (c =? 0x2028) || (c =? 0x2029) || (c =? 0x202f) || (c =? 0x205f)
   || (c =? 0x3000) || (c =? 0xfeff))%N.

(** [\w] : [A-Za-z0-9_]. *)
Definition is_word (c : char) : bool :=
  ((65 <=? c) && (c <=? 90) || (97 <=? c) && (c <=? 122)
   || (48 <=? c) && (c <=? 57) || (c =? 95))%N.

(** Truthiness of a string: non-empty. *)
Definition truthy (s : jsstring) : bool :=
  match s with [] => false | _ => true end.

(** [s.slice(a, b)] for indices [0 <= a], [0 <= b]. *)
Definition slice (s : jsstring) (a b : nat) : jsstring := take (b - a) (drop a s).

Fixpoint drop_while (p : char → bool) (s : jsstring) : jsstring :=
  match s with
  | c :: s' => if p c then drop_while p s' else s
  | [] => []
  end.

(** [s.trim()] *)
Definition trim (s : jsstring) : jsstring :=
  reverse (drop_while is_space (reverse (drop_while is_space s))).

(** [s.split('\n')]: never empty, the empty string gives one empty piece. *)
Fixpoint split_nl (s : jsstring) : list jsstring :=
  match s with
  | [] => [[]]
  | c :: s' =>
      if (c =? LF)%N then [] :: split_nl s'
      else match split_nl s' with
           | l :: ls => (c :: l) :: ls
           | [] => [[c]]
           end
  end.

(** [s.startsWith(p)] *)
Fixpoint startsWith (s p : jsstring) : bool :=
  match p, s with
  | [], _ => true
  | a :: p', b :: s' => (a =? b)%N && startsWith s' p'
  | _ :: _, [] => false
  end.

(** ASCII part of [toLowerCase]; code units outside [A-Z] are kept (the
    addresses this program lower-cases are hexadecimal strings). *)
Definition lower_char (c : char) : char :=
  if ((65 <=? c) && (c <=? 90))%N then (c + 32)%N else c.
Definition toLowerCase (s : jsstring) : jsstring := map lower_char s.

(** *** A backtracking matcher for the regular expressions of the sources.

    A continuation receives the number of code units consumed so far and
    the rest of the input, and answers with the length of the whole match.
    Alternatives are tried left to right and quantifiers are greedy, giving
    up one code unit at a time, as the ECMAScript matcher does. *)

Definition cont := nat → jsstring → option nat.
Definition re := cont → cont.

Definition re_char (p : char → bool) : re := λ k n s,
  match s with
  | c :: s' => if p c then k (S n) s' else None
  | [] => None
  end.

Fixpoint re_lit (w : jsstring) : re := λ k,
  match w with
  | [] => k
  | c :: w' => re_char (N.eqb c) (re_lit w' k)
  end.

Definition re_seq (r1 r2 : re) : re := λ k, r1 (r2 k).

Definition re_alt (r1 r2 : re) : re := λ k n s,
  match r1 k n s with
  | Some e => Some e
  | None => r2 k n s
  end.

Definition re_eps : re := λ k, k.

(** [(?:r)?] *)
Definition re_opt (r : re) : re := re_alt r re_eps.

(** [p*] for a character class [p]. *)
Fixpoint re_star (p : char → bool) (k : cont) (n : nat) (s : jsstring) : option nat :=
  match s with
  | c :: s' =>
      if p c then
        match re_star p k (S n) s' with
        | Some e => Some e
        | None => k n s
        end
      else k n s
  | [] => k n s
  end.

(** [p+] *)
Definition re_plus (p : char → bool) : re := λ k, re_char p (re_star p k).

(** [^] without the [m] flag, for a match attempted at offset [pos]: the
    assertion is evaluated at offset [n + pos] of the input. *)
Definition re_bol (pos : nat) : re := λ k n s,
  match n + pos with
  | 0 => k n s
  | S _ => None
  end.

(** [$] without the [m] flag *)
Definition re_eol : re := λ k n s,
  match s with
  | [] => k n s
  | _ :: _ => None
  end.

(** [p{m}] *)
Fixpoint re_count (m : nat) (p : char → bool) : re := λ k,
  match m with
  | 0 => k
  | S m' => re_char p (re_count m' p k)
  end.

Definition re_done : cont := λ n _, Some n.

(** [re.test(s)] for a regular expression without the [g] flag: is there a
    match at some offset, from [pos] on. *)
Fixpoint test_from (exec : nat → jsstring → option nat) (pos : nat) (s : jsstring) : bool :=
  match exec pos s with
  | Some _ => true
  | None =>
      match s with
      | _ :: s' => test_from exec (S pos) s'
      | [] => false
      end
  end.

(** [matchAll] with a global regular expression, keeping [match.index] of
    every match: [exec pos s] is the length of the match that starts at
    offset [pos], where [s] is the input from [pos] on. After a match the
    scan resumes at its end, or one further when the match is empty. *)
Fixpoint matchAll_from (exec : nat → jsstring → option nat)
    (pos skip : nat) (s : jsstring) : list nat :=
  match skip with
  | S skip' =>
      match s with
      | _ :: s' => matchAll_from exec (S pos) skip' s'
      | [] => []
      end
  | 0 =>
      match exec pos s with
      | Some len =>
          pos :: match s with
                 | _ :: s' => matchAll_from exec (S pos) (len - 1) s'
                 | [] => []
                 end
      | None =>
          match s with
          | _ :: s' => matchAll_from exec (S pos) 0 s'
          | [] => []
          end
      end
  end.

Definition matchAll (exec : nat → jsstring → option nat) (s : jsstring) : list nat :=
  matchAll_from exec 0 0 s.

(** *** Vocabulary of the statements about texts *)

(** The non-empty lines of a text, in order. *)
Definition nonempty_lines (s : jsstring) : list jsstring :=
  List.filter truthy (split_nl s).

(** No line of the text is longer than [M]. *)
Definition line_bounded (M : nat) (s : jsstring) : Prop :=
  Forall (λ l, length l ≤ M) (split_nl s).

End JS.

(** ** types.ts *)

Module ContractDeployment.
Record t := mk {
  txHash : JS.jsstring;
  contractAddress : JS.jsstring;
  deployer : JS.jsstring;
  blockNumber : Z;
  timestamp : Z;
  bytecodeSize : Z;
}.
End ContractDeployment.

Module ContractSource.
Record t := mk {
  contractAddress : JS.jsstring;
  contractName : JS.jsstring;
  compilerVersion : JS.jsstring;
  sourceCode : JS.jsstring;
  abi : JS.jsstring;
  constructorArguments : JS.jsstring;
  optimizationUsed : bool;
  runs : option Z;   (* [None] is [NaN] *)
  evmVersion : JS.jsstring;
  library : JS.jsstring;
  licenseType : JS.jsstring;
  isProxy : bool;
  implementationAddress : option JS.jsstring;
}.
End ContractSource.

Inductive VulnerabilityCategory :=
  | reentrancy | integer_overflow | unchecked_call | access_control
  | front_running | proxy_vulnerability | flash_loan | tx_origin
  | delegatecall | self_destruct | timestamp_dependency | gas_limit
  | denial_of_service | other.

Inductive Severity := critical | high | medium | low.

(** ['critical' | 'high' | 'medium' | 'low' | 'none'] *)
Inductive Risk := risk (s : Severity) | none.

#[global] Instance Severity_eq_dec : EqDecision Severity.
Proof. solve_decision. Defined.
#[global] Instance Risk_eq_dec : EqDecision Risk.
Proof. solve_decision. Defined.

Module SolidityFinding.
Record t := mk {
  type_ : JS.jsstring;
  severity : Severity;
  line : Z;
  description : JS.jsstring;
  suggestion : JS.jsstring;
  cweId : option JS.jsstring;
  confidence : float;
  category : VulnerabilityCategory;
}.
End SolidityFinding.

Module AuditReport.
Record t := mk {
  id : JS.jsstring;
  contractAddress : JS.jsstring;
  contractName : JS.jsstring;
  deploymentTxHash : JS.jsstring;
  deployer : JS.jsstring;
  blockNumber : Z;
  deployedAt : Z;
  auditedAt : Z;
  sourceAvailable : bool;
  findings : list SolidityFinding.t;
  summary : JS.jsstring;
  overallRisk : Risk;
  analysisTimeMs : Z;
  compilerVersion : option JS.jsstring;
  sourceCodeHash : option JS.jsstring;
}.
End AuditReport.

Module MonitorState.
Record t := mk {
  lastProcessedBlock : Z;
  isRunning : bool;
  contractsFound : Z;
  contractsAudited : Z;
  contractsSkipped : Z;
  startedAt : Z;
}.
End MonitorState.

Module AppConfig.
Record t := mk {
  baseRpcUrl : JS.jsstring;
  basescanApiKey : JS.jsstring;
  ollamaUrl : JS.jsstring;
  ollamaModel : JS.jsstring;
  groqApiKey : option JS.jsstring;
  groqModel : option JS.jsstring;
  port : Z;
  pollIntervalMs : Z;
  maxConcurrentAnalyses : Z;
  confidenceThreshold : float;
  startBlock : option Z;
  dataDir : JS.jsstring;
}.
End AppConfig.

(** ** services/analyzer.ts *)

Module Analyzer.
Import JS.

Definition MAX_SOURCE_LENGTH : nat := N.to_nat 16000.

(** The language model and [JSON.parse], as the analyzer sees them.
    [respond name chunk version] is the text of the model's answer to the
    prompt built from its arguments, [None] when the request fails, is
    answered with an error status or is aborted by the timeout.
    [parse text] is [JSON.parse text] read as a list of findings, [None]
    when it throws. *)
Record Oracle := {
  respond : jsstring → jsstring → jsstring → option jsstring;
  parse : jsstring → option (list SolidityFinding.t);
}.

(** [/\[[\s\S]*\]/] *)
Definition jsonArrayRegex : re :=
  re_seq (re_lit (js "["))
    (re_seq (re_star (λ c, is_space c || negb (is_space c)))
       (re_lit (js "]"))).

(** [text.match(re)] for a regular expression without the [g] flag: the
    leftmost match, as the matched text. *)
Fixpoint match_first (r : re) (s : jsstring) : option jsstring :=
  match r re_done 0 s with
  | Some len => Some (take len s)
  | None =>
      match s with
      | _ :: s' => match_first r s'
      | [] => None
      end
  end.

(** [f.confidence >= confidenceThreshold] on IEEE 754 doubles. *)
Definition confident (confidenceThreshold : float) (f : SolidityFinding.t) : bool :=
  PrimFloat.leb confidenceThreshold (SolidityFinding.confidence f).

Definition parseFindings (o : Oracle) (text : jsstring) (confidenceThreshold : float)
    : list SolidityFinding.t :=
  match match_first jsonArrayRegex text with
  | None => []
  | Some jsonMatch =>
      match parse o jsonMatch with
      | Some findings => List.filter (confident confidenceThreshold) findings
      | None => []
      end
  end.

(** [/(?:^|\n)((?:abstract\s+)?(?:contract|interface|library)\s+\w+[^{]*\{)/g]
    attempted at offset [pos]; [declarationRegex] is its capture group. *)
Definition declarationRegex : re :=
  re_seq (re_opt (re_seq (re_lit (js "abstract")) (re_plus is_space)))
    (re_seq (re_alt (re_lit (js "contract"))
               (re_alt (re_lit (js "interface")) (re_lit (js "library"))))
       (re_seq (re_plus is_space)
          (re_seq (re_plus is_word)
             (re_seq (re_star (λ c, negb (c =? LBRACE)%N))
                (re_lit [LBRACE]))))).

Definition contractRegex (pos : nat) : re :=
  re_seq (re_alt (re_bol pos) (re_lit [LF])) declarationRegex.

Definition contractMatches (sourceCode : jsstring) : list nat :=
  matchAll (λ pos s, contractRegex pos re_done 0 s) sourceCode.

(** One pass of the loop of [splitByLines] over a line. *)
Definition splitByLines_step (maxLength : nat)
    (st : list jsstring * jsstring) (line : jsstring) : list jsstring * jsstring :=
  let '(chunks, current) := st in
  let '(chunks, current) :=
    if bool_decide (maxLength < length current + length line + 1)
       && bool_decide (0 < length current)
    then (chunks ++ [current], [])
    else (chunks, current) in
  (chunks, current ++ (if truthy current then [LF] else []) ++ line).

Definition splitByLines (text : jsstring) (maxLength : nat) : list jsstring :=
  let '(chunks, current) :=
    foldl (splitByLines_step maxLength) ([], []) (split_nl text) in
  if truthy current then chunks ++ [current] else chunks.

(** The loop of [chunkSourceCode] over [matches], from index [i] on:
    [ms] is [matches[i..]]. *)
Fixpoint unitChunks (sourceCode : jsstring) (ms : list nat) : list jsstring :=
  match ms with
  | [] => []
  | start :: rest =>
      let end_ := match rest with
                  | next :: _ => next
                  | [] => length sourceCode
                  end in
      let chunk := slice sourceCode start end_ in
      (if bool_decide (length chunk ≤ MAX_SOURCE_LENGTH) then [chunk]
       else splitByLines chunk MAX_SOURCE_LENGTH)
      ++ unitChunks sourceCode rest
  end.

Definition chunkSourceCode (sourceCode : jsstring) : list jsstring :=
  let matches := contractMatches sourceCode in
  if bool_decide (length matches ≤ 1) then
    splitByLines sourceCode MAX_SOURCE_LENGTH
  else
    let chunks := unitChunks sourceCode matches in
    match matches with
    | m0 :: _ =>
        if bool_decide (0 < m0) then
          let preamble := trim (slice sourceCode 0 m0) in
          match chunks with
          | c0 :: cs =>
              if bool_decide (0 < length preamble)
              then (preamble ++ [LF; LF] ++ c0) :: cs
              else chunks
          | [] => chunks
          end
        else chunks
    | [] => chunks
    end.

(** The texts [analyzeContract] hands to [analyzeSingleChunk], in order. *)
Definition analyzedChunks (sourceCode : jsstring) : list jsstring :=
  if bool_decide (length sourceCode ≤ MAX_SOURCE_LENGTH) then [sourceCode]
  else chunkSourceCode sourceCode.

(** [analyzeWithGroq] and [analyzeWithOllama] differ in the request they
    send; both return [parseFindings] of the answer, and [[]] when the
    request fails. *)
Definition analyzeSingleChunk (o : Oracle) (contractName sourceCode compilerVersion : jsstring)
    (config : AppConfig.t) : list SolidityFinding.t :=
  match respond o contractName sourceCode compilerVersion with
  | Some text => parseFindings o text (AppConfig.confidenceThreshold config)
  | None => []
  end.

Definition analyzeContract (o : Oracle) (source : ContractSource.t) (config : AppConfig.t)
    : list SolidityFinding.t :=
  let sourceCode := ContractSource.sourceCode source in
  if bool_decide (length sourceCode ≤ MAX_SOURCE_LENGTH) then
    analyzeSingleChunk o (ContractSource.contractName source) sourceCode
      (ContractSource.compilerVersion source) config
  else
    flat_map (λ chunk,
        analyzeSingleChunk o (ContractSource.contractName source) chunk
          (ContractSource.compilerVersion source) config)
      (chunkSourceCode sourceCode).

(** *** Vocabulary of the statements about chunks *)

(** The non-empty lines the analyzer is shown, chunk after chunk. *)
Definition chunk_lines (chunks : list jsstring) : list jsstring :=
  flat_map nonempty_lines chunks.

Definition fits (maxLength : nat) (c : jsstring) : Prop := length c ≤ maxLength.

(** The declaration units of [chunkSourceCode]: [sourceCode.slice(start, end)]
    for each boundary. *)
Fixpoint units (sourceCode : jsstring) (ms : list nat) : list jsstring :=
  match ms with
  | [] => []
  | start :: rest =>
      slice sourceCode start
        (match rest with next :: _ => next | [] => length sourceCode end)
      :: units sourceCode rest
  end.

(** The preamble [chunkSourceCode] prepends to its first chunk: the trimmed
    text before the first boundary, when there are two boundaries or more. *)
Definition preambleOf (sourceCode : jsstring) : jsstring :=
  match contractMatches sourceCode with
  | m0 :: _ :: _ => trim (slice sourceCode 0 m0)
  | _ => []
  end.

(** What prepending the preamble adds to the first chunk: the preamble and
    the two newlines after it. *)
Definition preambleOverhead (sourceCode : jsstring) : nat :=
  match preambleOf sourceCode with
  | [] => 0
  | p => length p + 2
  end.

(** The source with the text before the first boundary trimmed, as the
    chunks show it. *)
Definition trimmedSource (sourceCode : jsstring) : jsstring :=
  match contractMatches sourceCode with
  | m0 :: _ :: _ => trim (slice sourceCode 0 m0) ++ drop m0 sourceCode
  | _ => sourceCode
  end.

#[global] Instance fits_dec maxLength c : Decision (fits maxLength c).
Proof. unfold fits. apply _. Defined.

#[global] Instance line_bounded_dec M s : Decision (line_bounded M s).
Proof. unfold line_bounded. apply _. Defined.

#[global] Typeclasses Opaque fits line_bounded.

(** *** Inputs of the examples *)

(** [c.repeat(n)] *)
Definition rep (n : N) (c : string) : jsstring := concat (replicate (N.to_nat n) (js c)).

(** 20,000 characters: a pragma line, a blank line and three contracts. *)
Definition threeContracts : jsstring :=
  js "pragma solidity ^0.8.0;" ++ [LF] ++
  [LF] ++ js "contract A {" ++ rep 6000 "a" ++
  [LF] ++ js "contract B {" ++ rep 6000 "b" ++
  [LF] ++ js "contract C {" ++ rep 7937 "c".

(** 20,000 characters and three contracts, the last one of two lines and
    19,973 characters. *)
Definition threeContractsOneLarge : jsstring :=
  js "contract A {}" ++
  [LF] ++ js "contract B {}" ++
  [LF] ++ js "contract C {" ++ rep 9000 "c" ++
  [LF] ++ rep 10959 "d".

(** A comment line of 9,003 characters and two contracts of 8,013
    characters each. *)
Definition longPreamble : jsstring :=
  js "// " ++ rep 9000 "x" ++
  [LF] ++ js "contract A {" ++ rep 8000 "a" ++
  [LF] ++ js "contract B {" ++ rep 8000 "b".

(** One line of 20,000 characters. *)
Definition oneLongLine : jsstring := rep 20000 "a".

(** A blank line and two lines of 10,000 characters. *)
Definition blankThenTwoLines : jsstring :=
  [LF] ++ rep 10000 "a" ++ [LF] ++ rep 10000 "b".

End Analyzer.

(** ** services/basescan.ts *)

Module Basescan.
Import JS.

(** *** The rate limiter

    [lastRequestTime] and [requestsThisSecond] are module-level variables:
    one limiter for every caller. Times are the readings of [Date.now()],
    in milliseconds. *)
Record Limiter := mkLimiter {
  lastRequestTime : Z;
  requestsThisSecond : Z;
}.

Definition initialLimiter : Limiter := mkLimiter 0 0.

(** [rateLimitWait] runs in one or two uninterrupted pieces. The first one
    runs when the call is made, up to the [await] of the timer if there is
    one; the second one when the timer has fired. *)
Inductive Entered :=
  | Proceeds
  | Sleeps (waitTime : Z).

Definition enter (l : Limiter) (now : Z) : Limiter * Entered :=
  let l := if bool_decide (1000 ≤ now - lastRequestTime l)%Z
           then mkLimiter now 0 else l in
  if bool_decide (5 ≤ requestsThisSecond l)%Z then
    (l, Sleeps (1000 - (now - lastRequestTime l))%Z)
  else
    (mkLimiter (lastRequestTime l) (requestsThisSecond l + 1)%Z, Proceeds).

(** After the timer: [now] is the reading of [Date.now()] at that time. *)
Definition resume (l : Limiter) (now : Z) : Limiter :=
  let l := mkLimiter now 0 in
  mkLimiter (lastRequestTime l) (requestsThisSecond l + 1)%Z.

(** One call that nothing interleaves with: the caller is let through at
    the time returned. A timer set for [waitTime] fires [late >= 0]
    milliseconds after it is due. *)
Definition rateLimitWait (l : Limiter) (now late : Z) : Limiter * Z :=
  match enter l now with
  | (l', Proceeds) => (l', now)
  | (l', Sleeps waitTime) =>
      let woken := (now + waitTime + late)%Z in
      (resume l' woken, woken)
  end.

(** Calls made one after the other, each awaited before the next is made:
    a call is [(gap, late)], made [gap] milliseconds after the previous one
    was let through. The result lists, for every call, the start of the
    window it was counted in and the time it was let through. *)
Fixpoint sequentialCalls (l : Limiter) (clock : Z) (calls : list (Z * Z)) : list (Z * Z) :=
  match calls with
  | [] => []
  | (gap, late) :: rest =>
      let '(l', t) := rateLimitWait l (clock + gap)%Z late in
      (lastRequestTime l', t) :: sequentialCalls l' t rest
  end.

(** Calls that interleave on the event loop: a schedule is the order in
    which the pieces run. [Call i now] is caller [i] entering
    [rateLimitWait]; [Timer i now] is the timer of caller [i] firing. *)
Inductive Event :=
  | Call (caller : nat) (now : Z)
  | Timer (caller : nat) (now : Z).

Record Loop := mkLoop {
  limiter : Limiter;
  sleeping : list (nat * Z);   (* caller, time its timer is due *)
  passed : list (nat * Z);     (* caller, time it was let through *)
}.

Definition isCaller (i : nat) (x : nat * Z) : bool := bool_decide (x.1 = i).

Definition step (s : Loop) (e : Event) : Loop :=
  match e with
  | Call i now =>
      match enter (limiter s) now with
      | (l, Proceeds) => mkLoop l (sleeping s) (passed s ++ [(i, now)])
      | (l, Sleeps waitTime) =>
          mkLoop l (sleeping s ++ [(i, (now + waitTime)%Z)]) (passed s)
      end
  | Timer i now =>
      match List.find (isCaller i) (sleeping s) with
      | Some (_, due) =>
          if bool_decide (due ≤ now)%Z then
            mkLoop (resume (limiter s) now)
              (List.filter (λ x, negb (isCaller i x)) (sleeping s))
              (passed s ++ [(i, now)])
          else s
      | None => s
      end
  end.

Definition schedule (s : Loop) (es : list Event) : Loop := foldl step s es.

(** [n] calls made at the same instant [now], callers [i], [i+1], ... *)
Fixpoint burst (i : nat) (n : nat) (now : Z) : list Event :=
  match n with
  | 0 => []
  | S n' => Call i now :: burst (S i) n' now
  end.

(** *** Fetching the source *)

Module BasescanContractResult.
Record t := mk {
  SourceCode : jsstring;
  ABI : jsstring;
  ContractName : jsstring;
  CompilerVersion : jsstring;
  OptimizationUsed : jsstring;
  Runs : jsstring;
  ConstructorArguments : jsstring;
  EVMVersion : jsstring;
  Library : jsstring;
  LicenseType : jsstring;
  Proxy : jsstring;
  Implementation : jsstring;
}.
End BasescanContractResult.

Module BasescanResponse.
Record t := mk {
  status : jsstring;
  message : jsstring;
  result : list BasescanContractResult.t;
}.
End BasescanResponse.

(** The service and [JSON.parse], as [getContractSource] sees them.
    [request address apiKey] is the decoded answer to the [getsourcecode]
    request, [None] when the request fails, is aborted after 30 seconds or
    its body is not JSON. [parseSources text] is [JSON.parse text]: [None]
    when it throws, [Some None] for a value without [sources], otherwise the
    entries of [sources], file name and [content], in order. *)
Record Env := {
  request : jsstring → jsstring → option BasescanResponse.t;
  parseSources : jsstring → option (option (list (jsstring * jsstring)));
}.

(** [a || b] on strings *)
Definition orElse (a b : jsstring) : jsstring := if truthy a then a else b.

(** [parts.join(sep)] *)
Fixpoint join (sep : jsstring) (parts : list jsstring) : jsstring :=
  match parts with
  | [] => []
  | [p] => p
  | p :: rest => p ++ sep ++ join sep rest
  end.

(** [raw.slice(1, -1)] *)
Definition slice_1_m1 (raw : jsstring) : jsstring :=
  slice raw 1 (length raw - 1).

Definition parseMultiFileSource (env : Env) (raw : jsstring) : jsstring :=
  let jsonStr := slice_1_m1 raw in
  match parseSources env jsonStr with
  | Some (Some sources) =>
      join [LF; LF]
        (map (λ '(filename, content),
                js "// --- " ++ filename ++ js " ---" ++ [LF] ++ content)
           sources)
  | _ => raw
  end.

(** The source text of a record: one file, a JSON object with [sources],
    or such an object in double braces. *)
Definition normalizeSource (env : Env) (sourceCode : jsstring) : jsstring :=
  if startsWith sourceCode (js "{{") then parseMultiFileSource env sourceCode
  else if startsWith sourceCode (js "{") then
    match parseSources env sourceCode with
    | Some (Some sources) => join [LF; LF] (map snd sources)
    | _ => sourceCode
    end
  else sourceCode.

Definition is_digit (c : char) : bool := ((48 <=? c) && (c <=? 57))%N.

Fixpoint digits (acc : Z) (s : jsstring) : Z :=
  match s with
  | c :: s' => if is_digit c then digits (10 * acc + Z.of_N (c - 48)) s' else acc
  | [] => acc
  end.

(** [parseInt(s, 10)]: [None] is [NaN]. *)
Definition parseInt10 (s : jsstring) : option Z :=
  let s := drop_while is_space s in
  let '(neg, s) :=
    match s with
    | c :: s' =>
        if (c =? 45)%N then (true, s')
        else if (c =? 43)%N then (false, s')
        else (false, s)
    | [] => (false, s)
    end in
  match s with
  | c :: _ =>
      if is_digit c then Some (if neg : bool then - digits 0 s else digits 0 s)%Z
      else None
  | [] => None
  end.

(** The record built from [data.result[0]], before proxy resolution;
    [None] is the [return null] of an unverified contract. *)
Definition contractSourceOf (env : Env) (address : jsstring)
    (data : BasescanResponse.t) : option ContractSource.t :=
  match BasescanResponse.result data with
  | result :: _ =>
      if negb (bool_decide (BasescanResponse.status data = js "1"))
         || negb (truthy (BasescanContractResult.SourceCode result))
      then None
      else
        Some {|
          ContractSource.contractAddress := address;
          ContractSource.contractName :=
            orElse (BasescanContractResult.ContractName result) (js "Unknown");
          ContractSource.compilerVersion :=
            orElse (BasescanContractResult.CompilerVersion result) (js "Unknown");
          ContractSource.sourceCode :=
            normalizeSource env (BasescanContractResult.SourceCode result);
          ContractSource.abi := orElse (BasescanContractResult.ABI result) (js "[]");
          ContractSource.constructorArguments :=
            BasescanContractResult.ConstructorArguments result;
          ContractSource.optimizationUsed :=
            bool_decide (BasescanContractResult.OptimizationUsed result = js "1");
          ContractSource.runs :=
            parseInt10 (orElse (BasescanContractResult.Runs result) (js "0"));
          ContractSource.evmVersion :=
            orElse (BasescanContractResult.EVMVersion result) (js "default");
          ContractSource.library := BasescanContractResult.Library result;
          ContractSource.licenseType :=
            orElse (BasescanContractResult.LicenseType result) (js "None");
          ContractSource.isProxy :=
            bool_decide (BasescanContractResult.Proxy result = js "1");
          ContractSource.implementationAddress :=
            if truthy (BasescanContractResult.Implementation result)
            then Some (BasescanContractResult.Implementation result) else None;
        |}
  | [] => None
  end.

(** The implementation [getContractSource] goes on to fetch. *)
Definition implementationToFetch (contractSource : ContractSource.t) : option jsstring :=
  if ContractSource.isProxy contractSource
  then ContractSource.implementationAddress contractSource
  else None.

Definition withImplementation (address : jsstring) (contractSource implSource : ContractSource.t)
    (implementationAddress : jsstring) : ContractSource.t :=
  {|
    ContractSource.contractAddress := ContractSource.contractAddress contractSource;
    ContractSource.contractName :=
      ContractSource.contractName contractSource ++ js " (Proxy -> "
        ++ ContractSource.contractName implSource ++ js ")";
    ContractSource.compilerVersion := ContractSource.compilerVersion contractSource;
    ContractSource.sourceCode :=
      (js "// PROXY CONTRACT: " ++ address ++ [LF]) ++
      (js "// IMPLEMENTATION: " ++ implementationAddress ++ [LF; LF]) ++
      ContractSource.sourceCode implSource;
    ContractSource.abi := ContractSource.abi contractSource;
    ContractSource.constructorArguments := ContractSource.constructorArguments contractSource;
    ContractSource.optimizationUsed := ContractSource.optimizationUsed contractSource;
    ContractSource.runs := ContractSource.runs contractSource;
    ContractSource.evmVersion := ContractSource.evmVersion contractSource;
    ContractSource.library := ContractSource.library contractSource;
    ContractSource.licenseType := ContractSource.licenseType contractSource;
    ContractSource.isProxy := ContractSource.isProxy contractSource;
    ContractSource.implementationAddress :=
      ContractSource.implementationAddress contractSource;
  |}.

(** A call of [getContractSource] that has returned: its value ([None] is
    [null]) and the addresses requested, in order; each stands for one
    [rateLimitWait] followed by one request. *)
Inductive Fetched :=
  | OutOfFuel
  | Returned (source : option ContractSource.t) (requested : list jsstring).

(** [fuel] bounds the depth of the recursive calls: the function calls
    itself for the implementation of a proxy, with nothing else to stop it. *)
Fixpoint getContractSource (fuel : nat) (env : Env) (address apiKey : jsstring) : Fetched :=
  match fuel with
  | 0 => OutOfFuel
  | S fuel' =>
      match request env address apiKey with
      | None => Returned None [address]
      | Some data =>
          match contractSourceOf env address data with
          | None => Returned None [address]
          | Some contractSource =>
              match implementationToFetch contractSource with
              | Some implementationAddress =>
                  match getContractSource fuel' env implementationAddress apiKey with
                  | OutOfFuel => OutOfFuel
                  | Returned (Some implSource) requested =>
                      Returned
                        (Some (withImplementation address contractSource implSource
                                 implementationAddress))
                        (address :: requested)
                  | Returned None requested =>
                      Returned (Some contractSource) (address :: requested)
                  end
              | None => Returned (Some contractSource) [address]
              end
          end
      end
  end.

(** *** Vocabulary of the statements about proxies *)

(** The address the fetch of [address] recurses into, if any. *)
Definition proxyTarget (env : Env) (apiKey address : jsstring) : option jsstring :=
  data ← request env address apiKey;
  contractSource ← contractSourceOf env address data;
  implementationToFetch contractSource.

(** [proxyChain env apiKey address d]: [d] proxies are followed from
    [address] before a record that is not one. *)
Inductive proxyChain (env : Env) (apiKey : jsstring) : jsstring → nat → Prop :=
  | chain_end address :
      proxyTarget env apiKey address = None →
      proxyChain env apiKey address 0
  | chain_hop address impl d :
      proxyTarget env apiKey address = Some impl →
      proxyChain env apiKey impl d →
      proxyChain env apiKey address (S d).

(** *** Vocabulary of the statements about the limiter *)

(** How many of the calls were counted in the window that starts at [W]. *)
Definition countedIn (W : Z) (calls : list (Z * Z)) : Z :=
  Z.of_nat (length (List.filter (λ x, bool_decide (x.1 = W)) calls)).

(** How many of the calls were let through in [from, from + 1000). *)
Definition letThroughWithin (from : Z) (calls : list (Z * Z)) : Z :=
  Z.of_nat (length (List.filter
    (λ x, bool_decide (from ≤ x.2)%Z && bool_decide (x.2 < from + 1000)%Z) calls)).

(** *** Inputs of the examples *)

Definition verified (name source proxy implementation : string) : BasescanResponse.t :=
  BasescanResponse.mk (js "1") (js "OK")
    [BasescanContractResult.mk (js source) (js "[]") (js name) (js "v0.8.20")
       (js "1") (js "200") [] (js "paris") [] (js "MIT") (js proxy) (js implementation)].

Definition respondWith (records : list (string * BasescanResponse.t)) : Env :=
  {| request := λ address _,
       snd <$> List.find (λ r, bool_decide (js r.1 = address)) records;
     parseSources := λ _, None |}.

(** A proxy whose implementation is a proxy: A -> B -> C. *)
Definition twoHops : Env :=
  respondWith [("0xa", verified "A" "contract A {}" "1" "0xb");
               ("0xb", verified "B" "contract B {}" "1" "0xc");
               ("0xc", verified "C" "contract C {}" "0" EmptyString)].

(** Two proxies that name each other: A -> B -> A. *)
Definition cycle : Env :=
  respondWith [("0xa", verified "A" "contract A {}" "1" "0xb");
               ("0xb", verified "B" "contract B {}" "1" "0xa")].

(** The proxy Foo at 0xf00, its implementation Bar at 0xABC. *)
Definition fooBar : Env :=
  respondWith [("0xf00", verified "Foo" "contract Foo {}" "1" "0xABC");
               ("0xABC", verified "Bar" "contract Bar {}" "0" EmptyString)].

(** Ten calls made one after the other: one, four more 999 ms later, five
    more 1 ms after that. *)
Definition tenCalls : list (Z * Z) :=
  [(0, 0); (999, 0); (0, 0); (0, 0); (0, 0); (1, 0); (0, 0); (0, 0); (0, 0); (0, 0)]%Z.

End Basescan.

(** ** services/storage.ts *)

Module Storage.
Import JS.

(** The two in-memory indexes and the report files written so far, each
    with its directory and name. A write that fails is outside this model. *)
Record Store := mkStore {
  auditsById : gmap jsstring AuditReport.t;
  auditsByAddress : gmap jsstring AuditReport.t;
  files : list (jsstring * jsstring * AuditReport.t);
}.

Definition empty : Store := mkStore ∅ ∅ [].

Definition saveAudit (report : AuditReport.t) (dataDir : jsstring) (s : Store) : Store :=
  mkStore
    (<[AuditReport.id report := report]> (auditsById s))
    (<[toLowerCase (AuditReport.contractAddress report) := report]> (auditsByAddress s))
    (files s ++ [(dataDir, AuditReport.id report ++ js ".json", report)]).

Definition getAuditById (s : Store) (id : jsstring) : option AuditReport.t :=
  auditsById s !! id.

Definition getAuditByAddress (s : Store) (address : jsstring) : option AuditReport.t :=
  auditsByAddress s !! toLowerCase address.

End Storage.

(** ** services/monitor.ts *)

Module Monitor.
Import JS.

(** *** The audit of one deployment *)

(** What the process does to the outside while it handles a deployment or
    a request, in order. *)
Inductive Effect :=
  | Slept (ms : Z)
  | FetchedSource (address : jsstring)
  | Analyzed (address : jsstring)
  | SavedAudit (id : jsstring).

(** The process-wide state: [monitorState], the report store, and the
    effects so far. *)
Record World := mkWorld {
  monitorState : MonitorState.t;
  store : Storage.Store;
  effects : list Effect;
}.

(** The values an audit reads from its runtime: [uuidv4()], the three
    readings of [Date.now()], and SHA-256 in hexadecimal. *)
Record Runtime := {
  uuid : jsstring;
  startTime : Z;
  endTime : Z;
  auditedAt : Z;
  sha256 : jsstring → jsstring;
}.

Definition hasSeverity (s : Severity) (f : SolidityFinding.t) : bool :=
  bool_decide (SolidityFinding.severity f = s).

Definition determineOverallRisk (findings : list SolidityFinding.t) : Risk :=
  if existsb (hasSeverity critical) findings then risk critical
  else if existsb (hasSeverity high) findings then risk high
  else if existsb (hasSeverity medium) findings then risk medium
  else if existsb (hasSeverity low) findings then risk low
  else none.

(** [`${n}`] for a count *)
Definition number (n : nat) : jsstring := js (pretty (N.of_nat n)).

Definition countSeverity (s : Severity) (findings : list SolidityFinding.t) : nat :=
  length (List.filter (hasSeverity s) findings).

Definition summaryParts (findings : list SolidityFinding.t) : list jsstring :=
  let critical_ := countSeverity critical findings in
  let high_ := countSeverity high findings in
  let medium_ := countSeverity medium findings in
  let low_ := countSeverity low findings in
  (if bool_decide (0 < critical_) then [number critical_ ++ js " critical"] else []) ++
  (if bool_decide (0 < high_) then [number high_ ++ js " high"] else []) ++
  (if bool_decide (0 < medium_) then [number medium_ ++ js " medium"] else []) ++
  (if bool_decide (0 < low_) then [number low_ ++ js " low"] else []).

Definition generateSummary (findings : list SolidityFinding.t) (contractName : jsstring)
    : jsstring :=
  match findings with
  | [] => js "No security issues found in " ++ contractName ++ js "."
  | _ =>
      js "Found " ++ number (length findings) ++ js " issue(s) in " ++ contractName
        ++ js ": " ++ Basescan.join (js ", ") (summaryParts findings)
  end.

Definition setMonitorState (w : World) (m : MonitorState.t) : World :=
  mkWorld m (store w) (effects w).

Definition save (report : AuditReport.t) (dataDir : jsstring) (w : World) : World :=
  mkWorld (monitorState w) (Storage.saveAudit report dataDir (store w))
    (effects w ++ [SavedAudit (AuditReport.id report)]).

Definition did (e : Effect) (w : World) : World :=
  mkWorld (monitorState w) (store w) (effects w ++ [e]).

Definition skippedOneMore (m : MonitorState.t) : MonitorState.t :=
  MonitorState.mk (MonitorState.lastProcessedBlock m) (MonitorState.isRunning m)
    (MonitorState.contractsFound m) (MonitorState.contractsAudited m)
    (MonitorState.contractsSkipped m + 1) (MonitorState.startedAt m).

Definition auditedOneMore (m : MonitorState.t) : MonitorState.t :=
  MonitorState.mk (MonitorState.lastProcessedBlock m) (MonitorState.isRunning m)
    (MonitorState.contractsFound m) (MonitorState.contractsAudited m + 1)
    (MonitorState.contractsSkipped m) (MonitorState.startedAt m).

Definition foundOneMore (m : MonitorState.t) : MonitorState.t :=
  MonitorState.mk (MonitorState.lastProcessedBlock m) (MonitorState.isRunning m)
    (MonitorState.contractsFound m + 1) (MonitorState.contractsAudited m)
    (MonitorState.contractsSkipped m) (MonitorState.startedAt m).

(** The [return] by which [processContract] ends. *)
Inductive Path :=
  | AlreadyAudited
  | NoVerifiedSource
  | AuditComplete.

Definition minimalReport (rt : Runtime) (deployment : ContractDeployment.t) : AuditReport.t :=
  {|
    AuditReport.id := uuid rt;
    AuditReport.contractAddress := ContractDeployment.contractAddress deployment;
    AuditReport.contractName := js "Unknown";
    AuditReport.deploymentTxHash := ContractDeployment.txHash deployment;
    AuditReport.deployer := ContractDeployment.deployer deployment;
    AuditReport.blockNumber := ContractDeployment.blockNumber deployment;
    AuditReport.deployedAt := ContractDeployment.timestamp deployment;
    AuditReport.auditedAt := auditedAt rt;
    AuditReport.sourceAvailable := false;
    AuditReport.findings := [];
    AuditReport.summary := js "Source code not verified on Basescan. Unable to audit.";
    AuditReport.overallRisk := none;
    AuditReport.analysisTimeMs := 0;
    AuditReport.compilerVersion := None;
    AuditReport.sourceCodeHash := None;
  |}.

Definition fullReport (rt : Runtime) (deployment : ContractDeployment.t)
    (source : ContractSource.t) (findings : list SolidityFinding.t) : AuditReport.t :=
  {|
    AuditReport.id := uuid rt;
    AuditReport.contractAddress := ContractDeployment.contractAddress deployment;
    AuditReport.contractName := ContractSource.contractName source;
    AuditReport.deploymentTxHash := ContractDeployment.txHash deployment;
    AuditReport.deployer := ContractDeployment.deployer deployment;
    AuditReport.blockNumber := ContractDeployment.blockNumber deployment;
    AuditReport.deployedAt := ContractDeployment.timestamp deployment;
    AuditReport.auditedAt := auditedAt rt;
    AuditReport.sourceAvailable := true;
    AuditReport.findings := findings;
    AuditReport.summary := generateSummary findings (ContractSource.contractName source);
    AuditReport.overallRisk := determineOverallRisk findings;
    AuditReport.analysisTimeMs := endTime rt - startTime rt;
    AuditReport.compilerVersion := Some (ContractSource.compilerVersion source);
    AuditReport.sourceCodeHash := Some (sha256 rt (ContractSource.sourceCode source));
  |}.

(** [processContract], from the state of the process when its 30 seconds
    of waiting are over. [None]: the fetch of the source has not returned
    within [fuel] nested calls. *)
Definition processContract (fuel : nat) (env : Basescan.Env) (o : Analyzer.Oracle)
    (rt : Runtime) (deployment : ContractDeployment.t) (config : AppConfig.t)
    (w : World) : option (World * Path) :=
  let w := did (Slept 30000) w in
  let address := ContractDeployment.contractAddress deployment in
  match Storage.getAuditByAddress (store w) address with
  | Some existing => Some (w, AlreadyAudited)
  | None =>
      match Basescan.getContractSource fuel env address (AppConfig.basescanApiKey config) with
      | Basescan.OutOfFuel => None
      | Basescan.Returned None _ =>
          let w := did (FetchedSource address) w in
          let w := setMonitorState w (skippedOneMore (monitorState w)) in
          Some (save (minimalReport rt deployment) (AppConfig.dataDir config) w,
                NoVerifiedSource)
      | Basescan.Returned (Some source) _ =>
          let w := did (FetchedSource address) w in
          let findings := Analyzer.analyzeContract o source config in
          let w := did (Analyzed address) w in
          let w := save (fullReport rt deployment source findings)
                     (AppConfig.dataDir config) w in
          Some (setMonitorState w (auditedOneMore (monitorState w)), AuditComplete)
      end
  end.

(** *** Vocabulary of the statements about reports *)

Definition rank (r : Risk) : nat :=
  match r with
  | risk critical => 4
  | risk high => 3
  | risk medium => 2
  | risk low => 1
  | none => 0
  end.

Definition higher (a b : Risk) : Risk :=
  if bool_decide (rank a < rank b) then b else a.



(** The reports written by what ran between [w] and [w']. *)
Definition savedSince (w w' : World) : list AuditReport.t :=
  snd <$> drop (length (Storage.files (store w))) (Storage.files (store w')).

(** *** The polling loop *)

Record Tx := {
  hash : jsstring;
  from : jsstring;
  to : option jsstring;
}.

Record Block := {
  transactions : list Tx;
  timestamp : Z;
}.

Record Receipt := {
  contractAddress : option jsstring;
}.

(** The chain, as the monitor reads it; [None] is a call that throws. *)
Record Client := {
  getBlock : Z → option Block;
  getTransactionReceipt : jsstring → option Receipt;
  getCode : jsstring → option (option jsstring);
}.

(** One pass of the polling loop, as the outside decides it: the height
    read, and when [stopMonitor] is called, if it is: while the height is
    awaited, while a given block is processed, or during the sleep. *)
Record Tick := {
  height : option Z;
  stopAtHeight : bool;
  stopDuring : Z → bool;
  stopAsleep : bool;
}.

(** The variables of [startMonitor] and of the module; [scanned] is not in
    the program: it lists the blocks whose transactions were gone through. *)
Record Run := mkRun {
  state : MonitorState.t;
  stopRequested : bool;
  auditQueue : list ContractDeployment.t;
  scanned : list Z;
}.

Definition requestStop (b : bool) (r : Run) : Run :=
  mkRun (state r) (stopRequested r || b) (auditQueue r) (scanned r).

(** [bytecode ? bytecode.length / 2 - 1 : 0] ; the hexadecimal string has
    an even length. *)
Definition bytecodeSizeOf (code : option (option jsstring)) : Z :=
  match code with
  | Some (Some bytecode) =>
      if truthy bytecode then (Z.of_nat (length bytecode) / 2 - 1)%Z else 0%Z
  | _ => 0%Z
  end.

Definition scanTx (client : Client) (blockNum : Z) (block : Block) (r : Run) (tx : Tx) : Run :=
  match to tx with
  | Some _ => r
  | None =>
      match getTransactionReceipt client (hash tx) with
      | None => r
      | Some receipt =>
          match contractAddress receipt with
          | Some address =>
              let deployment :=
                ContractDeployment.mk (hash tx) address (from tx) blockNum
                  (timestamp block) (bytecodeSizeOf (getCode client address)) in
              mkRun (foundOneMore (state r)) (stopRequested r)
                (auditQueue r ++ [deployment]) (scanned r)
          | None => r
          end
      end
  end.

(** The body of the loop over the blocks, and the calls of [stopMonitor]
    that come while it runs. *)
Definition processBlock (client : Client) (t : Tick) (blockNum : Z) (r : Run) : Run :=
  let r :=
    match getBlock client blockNum with
    | None => r
    | Some block =>
        let r := foldl (scanTx client blockNum block) r (transactions block) in
        mkRun (state r) (stopRequested r) (auditQueue r) (scanned r ++ [blockNum])
    end in
  requestStop (stopDuring t blockNum) r.

(** [for (blockNum = ...; blockNum <= toBlock && !stopRequested; blockNum++)]
    with [remaining] blocks up to [toBlock]. *)
Fixpoint blocks (client : Client) (t : Tick) (remaining : nat) (blockNum : Z) (r : Run) : Run :=
  match remaining with
  | 0 => r
  | S remaining' =>
      if stopRequested r then r
      else blocks client t remaining' (blockNum + 1) (processBlock client t blockNum r)
  end.

Definition setLastProcessedBlock (b : Z) (r : Run) : Run :=
  let m := state r in
  mkRun
    (MonitorState.mk b (MonitorState.isRunning m) (MonitorState.contractsFound m)
       (MonitorState.contractsAudited m) (MonitorState.contractsSkipped m)
       (MonitorState.startedAt m))
    (stopRequested r) (auditQueue r) (scanned r).

(** The body of [while (!stopRequested)], sleep included. *)
Definition tick (client : Client) (t : Tick) (r : Run) : Run :=
  let r := requestStop (stopAtHeight t) r in
  let r :=
    match height t with
    | None => r
    | Some currentBlock =>
        if bool_decide (MonitorState.lastProcessedBlock (state r) < currentBlock)%Z then
          let fromBlock := (MonitorState.lastProcessedBlock (state r) + 1)%Z in
          let toBlock := currentBlock in
          let r := blocks client t (Z.to_nat (toBlock - fromBlock + 1)) fromBlock r in
          setLastProcessedBlock toBlock r
        else r
    end in
  requestStop (stopAsleep t) r.

Definition stopped (r : Run) : Run :=
  let m := state r in
  mkRun
    (MonitorState.mk (MonitorState.lastProcessedBlock m) false
       (MonitorState.contractsFound m) (MonitorState.contractsAudited m)
       (MonitorState.contractsSkipped m) (MonitorState.startedAt m))
    (stopRequested r) (auditQueue r) (scanned r).

(** The polling loop over the passes the outside allows: it ends, and the
    monitor is no longer running, when a stop is seen. *)
Fixpoint poll (client : Client) (ticks : list Tick) (r : Run) : Run :=
  match ticks with
  | [] => r
  | t :: ticks' =>
      if stopRequested r then stopped r
      else poll client ticks' (tick client t r)
  end.

(** [startMonitor] up to its loop: [None] when the monitor is running
    already. [current] and [now] are what [getBlockNumber] and [Date.now]
    answer. *)
Definition start (config : AppConfig.t) (current now : Z) (m : MonitorState.t)
    : option Run :=
  if MonitorState.isRunning m then None
  else
    let last :=
      match AppConfig.startBlock config with
      | Some b =>
          if bool_decide (b = 0)%Z then
            if bool_decide (MonitorState.lastProcessedBlock m = 0)%Z then current
            else MonitorState.lastProcessedBlock m
          else b
      | None =>
          if bool_decide (MonitorState.lastProcessedBlock m = 0)%Z then current
          else MonitorState.lastProcessedBlock m
      end in
    Some (mkRun
            (MonitorState.mk last true (MonitorState.contractsFound m)
               (MonitorState.contractsAudited m) (MonitorState.contractsSkipped m) now)
            false [] []).

End Monitor.

(** ** routes/api.ts *)

Module Api.
Import JS Monitor.

Inductive Response :=
  | BadRequest (error : jsstring)
  | Cached (audit : AuditReport.t)
  | NotVerified (address : jsstring)
  | Success (audit : AuditReport.t).

Definition is_x (c : char) : bool := ((c =? 120) || (c =? 88))%N.

Definition is_hex (c : char) : bool :=
  ((48 <=? c) && (c <=? 57) || (97 <=? c) && (c <=? 102) || (65 <=? c) && (c <=? 70))%N.

(** [/^0x[a-f0-9]{40}$/i] *)
Definition addressRegex (pos : nat) : re :=
  re_seq (re_bol pos)
    (re_seq (re_char (N.eqb 48))
       (re_seq (re_char is_x) (re_seq (re_count 40 is_hex) re_eol))).

(** The risk of the report, as the handler computes it. *)
Definition overallRiskOf (findings : list SolidityFinding.t) : Risk :=
  let overallRisk := none in
  if existsb (hasSeverity critical) findings then risk critical
  else if existsb (hasSeverity high) findings then risk high
  else if existsb (hasSeverity medium) findings then risk medium
  else if existsb (hasSeverity low) findings then risk low
  else overallRisk.

Definition summaryOf (findings : list SolidityFinding.t) (contractName : jsstring) : jsstring :=
  let summary := js "No security issues found in " ++ contractName ++ js "." in
  if bool_decide (0 < length findings) then
    js "Found " ++ number (length findings) ++ js " issue(s) in " ++ contractName
      ++ js ": " ++ Basescan.join (js ", ") (summaryParts findings)
  else summary.

Definition onDemandReport (rt : Runtime) (addrClean : jsstring)
    (source : ContractSource.t) (findings : list SolidityFinding.t) : AuditReport.t :=
  {|
    AuditReport.id := uuid rt;
    AuditReport.contractAddress := addrClean;
    AuditReport.contractName := ContractSource.contractName source;
    AuditReport.deploymentTxHash := js "on-demand";
    AuditReport.deployer := js "unknown";
    AuditReport.blockNumber := 0;
    AuditReport.deployedAt := 0;
    AuditReport.auditedAt := auditedAt rt;
    AuditReport.sourceAvailable := true;
    AuditReport.findings := findings;
    AuditReport.summary := summaryOf findings (ContractSource.contractName source);
    AuditReport.overallRisk := overallRiskOf findings;
    AuditReport.analysisTimeMs := endTime rt - startTime rt;
    AuditReport.compilerVersion := Some (ContractSource.compilerVersion source);
    AuditReport.sourceCodeHash := Some (sha256 rt (ContractSource.sourceCode source));
  |}.

Definition missingAddress : jsstring :=
  js "Missing or invalid " ++ [34%N] ++ js "address" ++ [34%N] ++ js " in request body".

(** The handler of [POST /audit] from the fetch of the source on. *)
Definition auditNow (fuel : nat) (env : Basescan.Env) (o : Analyzer.Oracle)
    (rt : Runtime) (config : AppConfig.t) (addrClean : jsstring)
    (w : World) : option (World * Response) :=
  match Basescan.getContractSource fuel env addrClean (AppConfig.basescanApiKey config) with
  | Basescan.OutOfFuel => None
  | Basescan.Returned None _ =>
      Some (did (FetchedSource addrClean) w, NotVerified addrClean)
  | Basescan.Returned (Some source) _ =>
      let w := did (FetchedSource addrClean) w in
      let findings := Analyzer.analyzeContract o source config in
      let w := did (Analyzed addrClean) w in
      let audit := onDemandReport rt addrClean source findings in
      Some (save audit (AppConfig.dataDir config) w, Success audit)
  end.

Definition validAddress (addrClean : jsstring) : bool :=
  test_from (λ pos s, addressRegex pos re_done 0 s) 0 addrClean.

(** The handler of [POST /audit]; [address] is [req.body.address] when it
    is a string. [None]: the fetch of the source has not returned within
    [fuel] nested calls. *)
Definition postAudit (fuel : nat) (env : Basescan.Env) (o : Analyzer.Oracle)
    (rt : Runtime) (config : AppConfig.t) (address : option jsstring)
    (w : World) : option (World * Response) :=
  match address with
  | None => Some (w, BadRequest missingAddress)
  | Some address =>
      if negb (truthy address) then Some (w, BadRequest missingAddress)
      else
        let addrClean := toLowerCase (trim address) in
        if negb (validAddress addrClean) then
          Some (w, BadRequest (js "Invalid Ethereum address format"))
        else
          match Storage.getAuditByAddress (store w) addrClean with
          | Some existing =>
              if AuditReport.sourceAvailable existing then Some (w, Cached existing)
              else auditNow fuel env o rt config addrClean w
          | None => auditNow fuel env o rt config addrClean w
          end
  end.

End Api.

(** ** Inputs of the examples *)

Module Examples.
Import JS Monitor.

Definition token : jsstring := js "0x00000000000000000000000000000000000000aa".

Definition quoted (s : string) : jsstring := [34%N] ++ js s ++ [34%N].

Definition finding (s : Severity) (confidence : float) : SolidityFinding.t :=
  SolidityFinding.mk (js "Reentrancy") s 45 (js "External call before state update")
    (js "Move the state update before the call") (Some (js "CWE-841")) confidence
    reentrancy.

(** [{severity:"critical",confidence:0.9}, {severity:"low",confidence:0.5}] *)
Definition twoFindings : list SolidityFinding.t :=
  [finding critical 0.9; finding low 0.5].

Definition twoFindingsText : jsstring :=
  js "[{" ++ quoted "severity" ++ js ":" ++ quoted "critical" ++ js ","
    ++ quoted "confidence" ++ js ":0.9},{" ++ quoted "severity" ++ js ":"
    ++ quoted "low" ++ js "," ++ quoted "confidence" ++ js ":0.5}]".

(** A model that answers every prompt with the two findings, in prose. *)
Definition oracle : Analyzer.Oracle :=
  {| Analyzer.respond := λ _ _ _, Some (js "Findings: " ++ twoFindingsText ++ js " Done.");
     Analyzer.parse := λ text,
       if bool_decide (text = twoFindingsText) then Some twoFindings else None |}.

Definition config : AppConfig.t :=
  AppConfig.mk (js "https://mainnet.base.org") (js "KEY") (js "http://localhost:11434")
    (js "llama3") None None 3001 15000 3 0.7 None (js "./data").

(** Basescan knows the verified contract Token at [token], nothing else. *)
Definition basescan : Basescan.Env :=
  Basescan.respondWith
    [("0x00000000000000000000000000000000000000aa",
      Basescan.verified "Token" "contract Token {}" "0" EmptyString)].

(** Basescan knows no contract. *)
Definition nothingVerified : Basescan.Env := Basescan.respondWith [].

Definition runtime : Runtime :=
  {| uuid := js "3f2b8c1e-0000-4000-8000-000000000001";
     startTime := 1700000000000;
     endTime := 1700000004000;
     auditedAt := 1700000004001;
     sha256 := λ _, js "9f86d081884c7d65" |}.

Definition deployment : ContractDeployment.t :=
  ContractDeployment.mk (js "0xtx") token (js "0xdeployer") 14 1700000000 120.

Definition idle : MonitorState.t := MonitorState.mk 10 true 1 0 0 1699999999000.

Definition fresh : World := mkWorld idle Storage.empty [].

(** The process after [deployment] was handled while Basescan knew no
    contract: a report without source is stored for [token]. *)
Definition unverifiedStored : World :=
  match processContract 1 nothingVerified oracle runtime deployment config fresh with
  | Some (w, _) => w
  | None => fresh
  end.

(** Blocks 11 to 15; the only contract creation is in block 14. *)
Definition client : Client :=
  {| getBlock := λ n,
       if bool_decide (11 ≤ n ≤ 15)%Z then
         Some {| transactions :=
                   if bool_decide (n = 14)%Z
                   then [ {| hash := js "0xtx"; from := js "0xdeployer"; to := None |} ]
                   else [ {| hash := js "0xpay"; from := js "0xalice";
                             to := Some (js "0xbob") |} ];
                 timestamp := 1700000000 |}
       else None;
     getTransactionReceipt := λ h,
       if bool_decide (h = js "0xtx") then Some {| contractAddress := Some token |}
       else None;
     getCode := λ _, Some (Some (js "0x6080")) |}.

(** The chain is at block 15; [stopMonitor] is called while block 12 is
    processed. *)
Definition stopInBlock12 : Tick :=
  {| height := Some 15%Z;
     stopAtHeight := false;
     stopDuring := λ n, bool_decide (n = 12)%Z;
     stopAsleep := false |}.

(** The chain is at block 15; nobody stops the monitor. *)
Definition quiet : Tick :=
  {| height := Some 15%Z;
     stopAtHeight := false;
     stopDuring := λ _, false;
     stopAsleep := false |}.

Definition running : Run := mkRun idle false [] [].

End Examples.

(** ** Further vocabulary and inputs *)

Module More.
Import JS.

(** A text that begins with a character of a line: not empty, and not
    beginning with a newline. *)
Definition begins_with_text (c : jsstring) : Prop :=
  match c with
  | ch :: _ => ch ≠ LF
  | [] => False
  end.

Definition LBRACKET : char := 91%N.
Definition RBRACKET : char := 93%N.

End More.

(** ** services/storage.ts, the rest *)

Module StorageMore.
Import JS Storage.

(** [s.endsWith(p)] *)
Definition endsWith (s p : jsstring) : bool := startsWith (reverse s) (reverse p).

Definition index (report : AuditReport.t) (s : Store) : Store :=
  mkStore
    (<[AuditReport.id report := report]> (auditsById s))
    (<[toLowerCase (AuditReport.contractAddress report) := report]> (auditsByAddress s))
    (files s).

(** [loadAudits]: [dir] lists the entries of the data directory in the
    order [readdir] gives them, each with what reading and parsing it gives,
    [None] when that throws. *)
Definition loadAudits (dir : list (jsstring * option AuditReport.t)) (s : Store) : Store :=
  foldl (λ s entry,
           match entry.2 with
           | Some report => index report s
           | None => s
           end)
    s (List.filter (λ entry, endsWith entry.1 (js ".json")) dir).

(** The reports of the by-id index. The order is not that of the [Map]
    of the program: [getStats] counts, and no count depends on it. *)
Definition allAudits (s : Store) : list AuditReport.t := (map_to_list (auditsById s)).*2.

Module DashboardStats.
Record t := mk {
  totalContracts : nat;
  totalAudited : nat;
  totalSkipped : nat;
  criticalFindings : nat;
  highFindings : nat;
  mediumFindings : nat;
  lowFindings : nat;
  monitorState : MonitorState.t;
}.
End DashboardStats.

(** [getStats]; [snapshot] is what [getMonitorState()] returns. *)
Definition getStats (s : Store) (snapshot : MonitorState.t) : DashboardStats.t :=
  let allAudits := allAudits s in
  let allFindings := flat_map AuditReport.findings allAudits in
  {| DashboardStats.totalContracts := length allAudits;
     DashboardStats.totalAudited :=
       length (List.filter AuditReport.sourceAvailable allAudits);
     DashboardStats.totalSkipped :=
       length (List.filter (λ a, negb (AuditReport.sourceAvailable a)) allAudits);
     DashboardStats.criticalFindings :=
       length (List.filter (Monitor.hasSeverity critical) allFindings);
     DashboardStats.highFindings :=
       length (List.filter (Monitor.hasSeverity high) allFindings);
     DashboardStats.mediumFindings :=
       length (List.filter (Monitor.hasSeverity medium) allFindings);
     DashboardStats.lowFindings :=
       length (List.filter (Monitor.hasSeverity low) allFindings);
     DashboardStats.monitorState := snapshot |}.

(** The options of [listAudits]; [None] is a property left out. *)
Record ListOptions := {
  page : option Z;
  limit : option Z;
  severity : option jsstring;
  sortBy : option jsstring;
  order : option jsstring;
}.

Definition riskName (r : Risk) : jsstring :=
  match r with
  | risk critical => js "critical"
  | risk high => js "high"
  | risk medium => js "medium"
  | risk low => js "low"
  | none => js "none"
  end.

(** [riskOrder] *)
Definition riskOrder (r : Risk) : Z :=
  match r with
  | risk critical => 0
  | risk high => 1
  | risk medium => 2
  | risk low => 3
  | none => 4
  end.

(** [aVal], [bVal] *)
Definition sortValue (sortBy : jsstring) (a : AuditReport.t) : Z :=
  if bool_decide (sortBy = js "deployedAt") then AuditReport.deployedAt a
  else if bool_decide (sortBy = js "overallRisk") then riskOrder (AuditReport.overallRisk a)
  else AuditReport.auditedAt a.

(** The comparison function given to [sort]. *)
Definition compareAudits (sortBy order : jsstring) (a b : AuditReport.t) : Z :=
  let aVal := sortValue sortBy a in
  let bVal := sortValue sortBy b in
  if bool_decide (order = js "desc") then
    (if bool_decide (aVal < bVal)%Z then 1
     else if bool_decide (bVal < aVal)%Z then -1 else 0)%Z
  else
    (if bool_decide (bVal < aVal)%Z then 1
     else if bool_decide (aVal < bVal)%Z then -1 else 0)%Z.

(** [Array.prototype.sort] with a comparison function: the sort is stable,
    an element stays before the ones it compares equal to that came after
    it. Insertion from the right is such a sort. *)
Fixpoint insertSorted {A} (cmp : A → A → Z) (x : A) (l : list A) : list A :=
  match l with
  | [] => [x]
  | y :: l' =>
      if bool_decide (cmp x y ≤ 0)%Z then x :: y :: l'
      else y :: insertSorted cmp x l'
  end.

Definition sort {A} (cmp : A → A → Z) (l : list A) : list A :=
  foldr (insertSorted cmp) [] l.

(** [Array.prototype.slice(start, end)] on integers. *)
Definition relativeIndex (len i : Z) : Z :=
  if bool_decide (i < 0)%Z then Z.max (len + i) 0 else Z.min i len.

Definition arraySlice {A} (l : list A) (start end_ : Z) : list A :=
  let len := Z.of_nat (length l) in
  let k := relativeIndex len start in
  let final := relativeIndex len end_ in
  take (Z.to_nat (final - k)) (drop (Z.to_nat k) l).

Definition matchesSeverity (severity : option jsstring) (a : AuditReport.t) : bool :=
  match severity with
  | Some sev =>
      if truthy sev then bool_decide (riskName (AuditReport.overallRisk a) = sev)
      else true
  | None => true
  end.

(** [listAudits]; [audits] is [Array.from(auditsById.values())], the
    reports in the order their ids were first stored. *)
Definition listAudits (audits : list AuditReport.t) (options : ListOptions)
    : list AuditReport.t * nat :=
  let page := default 1%Z (page options) in
  let limit := default 20%Z (limit options) in
  let sortBy := default (js "auditedAt") (sortBy options) in
  let order := default (js "desc") (order options) in
  let audits := List.filter (matchesSeverity (severity options)) audits in
  let audits := sort (compareAudits sortBy order) audits in
  let total := length audits in
  let start := ((page - 1) * limit)%Z in
  let paged := arraySlice audits start (start + limit)%Z in
  (paged, total).

(** *** Vocabulary *)

(** [a] may stay before [b]: the comparison function does not put it after. *)
Definition inOrder (sortBy order : jsstring) (a b : AuditReport.t) : Prop :=
  if bool_decide (order = js "desc")
  then (sortValue sortBy b ≤ sortValue sortBy a)%Z
  else (sortValue sortBy a ≤ sortValue sortBy b)%Z.

(** The reports that [listAudits] pages through: those of the severity
    asked for, sorted. *)
Definition listing (audits : list AuditReport.t) (options : ListOptions)
    : list AuditReport.t :=
  sort (compareAudits (default (js "auditedAt") (sortBy options))
          (default (js "desc") (order options)))
    (List.filter (matchesSeverity (severity options)) audits).

(** The reports [loadAudits] indexes, in order: those of the entries named
    [*.json] that can be read. *)
Definition loaded (dir : list (jsstring * option AuditReport.t)) : list AuditReport.t :=
  omap snd (List.filter (λ entry, endsWith entry.1 (js ".json")) dir).

(** The last report of a list that satisfies [p]. *)
Definition lastWhere (p : AuditReport.t → bool) (l : list AuditReport.t)
    : option AuditReport.t :=
  List.find p (reverse l).

(** The stores the program can be in: empty when it starts, then changed
    by [loadAudits] and [saveAudit] only. *)
Inductive reachable : Store → Prop :=
  | reachable_empty : reachable Storage.empty
  | reachable_load dir s : reachable s → reachable (loadAudits dir s)
  | reachable_save report dataDir s : reachable s → reachable (saveAudit report dataDir s).

(** Every report is filed under its own keys. *)
Definition keyed (s : Store) : Prop :=
  (∀ key r, auditsByAddress s !! key = Some r →
            key = toLowerCase (AuditReport.contractAddress r)) ∧
  (∀ id r, auditsById s !! id = Some r → AuditReport.id r = id).

Definition withPage (options : ListOptions) (p : Z) : ListOptions :=
  {| page := Some p; limit := limit options; severity := severity options;
     sortBy := sortBy options; order := order options |}.

(** *** Inputs of the examples *)

Definition report (id address : string) (sourceAvailable : bool) (auditedAt : Z)
    (overallRisk : Risk) : AuditReport.t :=
  AuditReport.mk (js id) (js address) (js "Token") (js "0xtx") (js "0xdeployer")
    14 1700000000 auditedAt sourceAvailable [] (js "No security issues found in Token.")
    overallRisk 0 None None.

Definition threeReports : list AuditReport.t :=
  [report "id-1" "0xAAA1" true 1000 (risk high);
   report "id-2" "0xbbb2" false 3000 none;
   report "id-3" "0xccc3" true 2000 (risk critical)].

Definition threeSaved : Store :=
  foldl (λ s r, saveAudit r (js "./data") s) Storage.empty threeReports.

Definition pagesOfTwo : ListOptions :=
  {| page := Some 1%Z; limit := Some 2%Z; severity := None;
     sortBy := None; order := None |}.

End StorageMore.

(** ** services/monitor.ts, the audit processor *)

Module Worker.
Import JS Monitor.

#[global] Instance ContractDeployment_eq_dec : EqDecision ContractDeployment.t.
Proof. solve_decision. Defined.

(** The variables [processAudits] works on: the queue the monitor pushes
    to and the count of audits under way. [looping] tells whether its loop
    has not ended. [inFlight] and [dispatched] are not in the program: the
    deployments whose [processContract] has not settled, and all those it
    was called for, in order. *)
Record Pool := mkPool {
  auditQueue : list ContractDeployment.t;
  processingAudits : Z;
  looping : bool;
  inFlight : list ContractDeployment.t;
  dispatched : list ContractDeployment.t;
}.

Definition initial : Pool := mkPool [] 0 true [] [].

(** What runs on the event loop: the monitor pushing a deployment, one
    pass of the loop of [processAudits] (its condition, with the value of
    [stopRequested] it reads, and its body), and a [processContract]
    settling ([finally]). *)
Inductive Event :=
  | Push (d : ContractDeployment.t)
  | Pass (stopRequested : bool)
  | Settled (d : ContractDeployment.t).

Fixpoint removeFirst (d : ContractDeployment.t) (l : list ContractDeployment.t)
    : list ContractDeployment.t :=
  match l with
  | [] => []
  | x :: l' => if decide (x = d) then l' else x :: removeFirst d l'
  end.

Definition step (maxConcurrentAnalyses : Z) (p : Pool) (e : Event) : Pool :=
  match e with
  | Push d =>
      mkPool (auditQueue p ++ [d]) (processingAudits p) (looping p) (inFlight p)
        (dispatched p)
  | Pass stopRequested =>
      if negb (looping p) then p
      else if negb (negb stopRequested || bool_decide (0 < length (auditQueue p)))
      then mkPool (auditQueue p) (processingAudits p) false (inFlight p) (dispatched p)
      else if bool_decide (length (auditQueue p) = 0)
              || bool_decide (maxConcurrentAnalyses ≤ processingAudits p)%Z
      then p
      else
        match auditQueue p with
        | deployment :: rest =>
            mkPool rest (processingAudits p + 1) true (inFlight p ++ [deployment])
              (dispatched p ++ [deployment])
        | [] => p
        end
  | Settled d =>
      if decide (d ∈ inFlight p) then
        mkPool (auditQueue p) (processingAudits p - 1) (looping p)
          (removeFirst d (inFlight p)) (dispatched p)
      else p
  end.

Definition run (maxConcurrentAnalyses : Z) (events : list Event) : Pool :=
  foldl (step maxConcurrentAnalyses) initial events.

(** The count is the number of audits under way and within the ceiling;
    the deployments pushed are those dispatched, then those still queued. *)
Definition pool_ok (maxConcurrentAnalyses : Z) (all : list ContractDeployment.t)
    (p : Pool) : Prop :=
  processingAudits p = Z.of_nat (length (inFlight p)) ∧
  (processingAudits p ≤ Z.max 0 maxConcurrentAnalyses)%Z ∧
  dispatched p ++ auditQueue p = all ∧
  inFlight p ⊆+ dispatched p.

(** The deployments pushed, in order. *)
Definition pushed (events : list Event) : list ContractDeployment.t :=
  omap (λ e, match e with Push d => Some d | _ => None end) events.

End Worker.

(** ** Vocabulary of the statements about a pass of the monitor *)

Module Ticks.
Import JS Monitor.

Definition readable (client : Client) (b : Z) : bool :=
  bool_decide (is_Some (getBlock client b)).

(** From [r] to [r'] the monitor has only found deployments: [new] was
    pushed to the queue, each deployment stamped with a block of
    [lo <= b < hi], the found counter has grown by their number, and the
    rest of the monitor state, the marker apart, is as it was. *)
Definition found (lo hi : Z) (new : list ContractDeployment.t) (r r' : Run) : Prop :=
  auditQueue r' = auditQueue r ++ new ∧
  Forall (λ d, lo ≤ ContractDeployment.blockNumber d < hi)%Z new ∧
  (MonitorState.contractsFound (state r')
   = MonitorState.contractsFound (state r) + Z.of_nat (length new))%Z ∧
  MonitorState.contractsAudited (state r') = MonitorState.contractsAudited (state r) ∧
  MonitorState.contractsSkipped (state r') = MonitorState.contractsSkipped (state r) ∧
  MonitorState.isRunning (state r') = MonitorState.isRunning (state r) ∧
  MonitorState.startedAt (state r') = MonitorState.startedAt (state r).

End Ticks.

(** ** More vocabulary and inputs for the fetcher *)

Module FetcherMore.
Import JS Basescan.

(** The callers of a schedule, in the order of their calls. *)
Definition callers (events : list Event) : list nat :=
  omap (λ e, match e with Call i _ => Some i | Timer _ _ => None end) events.

(** The timers of callers [i], [i+1], ... firing one after the other at [now]. *)
Definition timers (i n : nat) (now : Z) : list Event :=
  (λ j, Timer j now) <$> seq i n.

(** Each address of the list names the next as the implementation its
    record leads the fetch to. *)
Fixpoint follows (env : Env) (apiKey : jsstring) (requested : list jsstring) : Prop :=
  match requested with
  | address :: (next :: _) as rest =>
      proxyTarget env apiKey address = Some next ∧ follows env apiKey rest
  | _ => True
  end.

(** The files of a multi-file source as [parseMultiFileSource] lays them out. *)
Definition markedFiles (sources : list (jsstring * jsstring)) : jsstring :=
  join [LF; LF]
    (map (λ '(filename, content), js "// --- " ++ filename ++ js " ---" ++ [LF] ++ content)
       sources).

(** A proxy whose implementation is not verified. *)
Definition orphanProxy : Env :=
  respondWith [("0xa", verified "A" "contract A {}" "1" "0xb")].

(** A JSON parser that knows one document. *)
Definition twoFiles : Env :=
  {| request := λ _ _, None;
     parseSources := λ text,
       if bool_decide (text = js "{sources}")
       then Some (Some [(js "A.sol", js "contract A {}"); (js "B.sol", js "contract B {}")])
       else None |}.

End FetcherMore.

(** ** public/app.js *)

Module Dashboard.
Import JS.

Definition is_hex (c : char) : bool :=
  ((97 <=? c) && (c <=? 102) || (65 <=? c) && (c <=? 70) || (48 <=? c) && (c <=? 57))%N.

(** [/^0x[a-fA-F0-9]{40}$/] *)
Definition addressRegex (pos : nat) : re :=
  re_seq (re_bol pos)
    (re_seq (re_lit (js "0x")) (re_seq (re_count 40 is_hex) re_eol)).

(** [auditContract], up to its request: the [address] of the body of
    [POST /api/audit], [None] when the form shows an error instead. *)
Definition auditContract (value : jsstring) : option jsstring :=
  let address := trim value in
  if negb (truthy address) then None
  else if negb (test_from (λ pos s, addressRegex pos re_done 0 s) 0 address) then None
  else Some address.

End Dashboard.

(** ** More vocabulary for the audit of one contract *)

Module AuditMore.
Import JS Monitor.

(** A well-formed address: [0], then [x] or [X], then 40 hexadecimal digits. *)
Definition wellFormed (address : jsstring) : Prop :=
  ∃ x digits,
    address = 48%N :: x :: digits ∧ Api.is_x x = true ∧
    length digits = 40 ∧ Forall (λ c, Api.is_hex c = true) digits.



End AuditMore.

(** ** prompts/solidity.ts *)

Module Prompts.
Import JS.

Definition DOLLAR : char := 36%N.

(** The lines of a text. In the texts of this module a double quote of
    the source is written as a single quote, which the source has none of. *)
Definition text (lines : list string) : jsstring :=
  map (λ c, if (c =? 39)%N then 34%N else c) (Basescan.join [LF] (js <$> lines)).

Definition SOLIDITY_ANALYSIS_PROMPT : jsstring :=
  text
    [("You are a JSON-only smart contract security scanner. Analyze this Solidity contract "
       +:+ "for vulnerabilities.");
     EmptyString;
     "Contract Name: {contractName}";
     "Compiler Version: {compilerVersion}";
     EmptyString;
     "Source Code:";
     "{sourceCode}";
     EmptyString;
     ("IMPORTANT: You MUST respond with ONLY a JSON array. No text before or after. No "
       +:+ "markdown. No explanation.");
     EmptyString;
     "Example response for code with issues:";
     ("[{'type':'Reentrancy','severity':'critical','line':45,'description':'External call "
       +:+ "to untrusted address before state update in withdraw()','suggestion':'Move state "
       +:+ "update before the external call (checks-effects-interactions "
       +:+ "pattern)','cweId':'CWE-841','confidence':0.95,'category':'reentrancy'}]");
     EmptyString;
     "Example response for safe code:";
     "[]";
     EmptyString;
     "Each finding needs these exact fields:";
     ("- 'type': string (e.g. 'Reentrancy', 'Integer Overflow', 'Access Control', 'Flash "
       +:+ "Loan Vector')");
     "- 'severity': 'critical' or 'high' or 'medium' or 'low'";
     "- 'line': number (line in the source code)";
     "- 'description': string (clear explanation of the vulnerability)";
     "- 'suggestion': string (specific remediation)";
     "- 'cweId': string (e.g. 'CWE-841')";
     "- 'confidence': number between 0 and 1";
     ("- 'category': one of 'reentrancy', 'integer-overflow', 'unchecked-call', "
       +:+ "'access-control', 'front-running', 'proxy-vulnerability', 'flash-loan', "
       +:+ "'tx-origin', 'delegatecall', 'self-destruct', 'timestamp-dependency', 'gas-limit', "
       +:+ "'denial-of-service', 'other'");
     EmptyString;
     "Now analyze the contract above. Output ONLY the JSON array, nothing else:"].

(** [s.indexOf(p)] *)
Fixpoint indexOf (s p : jsstring) : option nat :=
  if startsWith s p then Some 0
  else match s with
       | [] => None
       | _ :: s' => S <$> indexOf s' p
       end.

(** GetSubstitution for a pattern that is a string, so without captures:
    [$$] is a dollar, [$&] the text matched, [$`] what is before it and
    [$'] what is after it; any other dollar stands for itself. *)
Fixpoint getSubstitution (matched before after replacement : jsstring) : jsstring :=
  match replacement with
  | [] => []
  | c :: rest =>
      if (c =? DOLLAR)%N then
        match rest with
        | d :: rest' =>
            if (d =? DOLLAR)%N then DOLLAR :: getSubstitution matched before after rest'
            else if (d =? 38)%N then matched ++ getSubstitution matched before after rest'
            else if (d =? 96)%N then before ++ getSubstitution matched before after rest'
            else if (d =? 39)%N then after ++ getSubstitution matched before after rest'
            else DOLLAR :: getSubstitution matched before after rest
        | [] => [DOLLAR]
        end
      else c :: getSubstitution matched before after rest
  end.

(** [s.replace(p, r)] for strings [p] and [r]: the first occurrence only. *)
Definition replace (s p r : jsstring) : jsstring :=
  match indexOf s p with
  | Some position =>
      let before := take position s in
      let after := drop (position + length p) s in
      before ++ getSubstitution p before after r ++ after
  | None => s
  end.

(** [buildSolidityPrompt]; its callers always give the compiler version,
    so that the default of the parameter is never used. *)
Definition buildSolidityPrompt (contractName sourceCode compilerVersion : jsstring)
    : jsstring :=
  replace
    (replace
       (replace SOLIDITY_ANALYSIS_PROMPT (js "{contractName}") contractName)
       (js "{compilerVersion}") compilerVersion)
    (js "{sourceCode}") sourceCode.

(** What the prompt says after the source code. *)
Definition afterSource : jsstring :=
  text
    [EmptyString;
     EmptyString;
     ("IMPORTANT: You MUST respond with ONLY a JSON array. No text before or after. No "
       +:+ "markdown. No explanation.");
     EmptyString;
     "Example response for code with issues:";
     ("[{'type':'Reentrancy','severity':'critical','line':45,'description':'External call "
       +:+ "to untrusted address before state update in withdraw()','suggestion':'Move state "
       +:+ "update before the external call (checks-effects-interactions "
       +:+ "pattern)','cweId':'CWE-841','confidence':0.95,'category':'reentrancy'}]");
     EmptyString;
     "Example response for safe code:";
     "[]";
     EmptyString;
     "Each finding needs these exact fields:";
     ("- 'type': string (e.g. 'Reentrancy', 'Integer Overflow', 'Access Control', 'Flash "
       +:+ "Loan Vector')");
     "- 'severity': 'critical' or 'high' or 'medium' or 'low'";
     "- 'line': number (line in the source code)";
     "- 'description': string (clear explanation of the vulnerability)";
     "- 'suggestion': string (specific remediation)";
     "- 'cweId': string (e.g. 'CWE-841')";
     "- 'confidence': number between 0 and 1";
     ("- 'category': one of 'reentrancy', 'integer-overflow', 'unchecked-call', "
       +:+ "'access-control', 'front-running', 'proxy-vulnerability', 'flash-loan', "
       +:+ "'tx-origin', 'delegatecall', 'self-destruct', 'timestamp-dependency', 'gas-limit', "
       +:+ "'denial-of-service', 'other'");
     EmptyString;
     "Now analyze the contract above. Output ONLY the JSON array, nothing else:"].

End Prompts.

(** ** routes/api.ts: the list of audits *)

Module ApiMore.
Import JS StorageMore.

(** The query of [GET /audits]: what [parseInt] makes of [page] and of
    [limit], [None] for [NaN], and the three strings, [None] when absent. *)
Record AuditsQuery := {
  queryPage : option Z;
  queryLimit : option Z;
  querySeverity : option jsstring;
  querySortBy : option jsstring;
  queryOrder : option jsstring;
}.

(** [n || d] for a number *)
Definition orNumber (n : option Z) (d : Z) : Z :=
  match n with
  | Some v => if bool_decide (v = 0)%Z then d else v
  | None => d
  end.

(** [s || d] for a string *)
Definition orString (s : option jsstring) (d : jsstring) : jsstring :=
  match s with
  | Some v => if truthy v then v else d
  | None => d
  end.

Record AuditsResponse := {
  audits : list AuditReport.t;
  total : nat;
  page : Z;
  limit : Z;
  totalPages : Z;
}.

(** [Math.ceil(total / limit)] for a count and a limit that is not 0. *)
Definition ceilDiv (total : nat) (limit : Z) : Z := (- ((- Z.of_nat total) / limit))%Z.

(** The handler of [GET /audits]; [stored] is
    [Array.from(auditsById.values())]. *)
Definition getAudits (stored : list AuditReport.t) (query : AuditsQuery) : AuditsResponse :=
  let page := orNumber (queryPage query) 1 in
  let limit := Z.min (orNumber (queryLimit query) 20) 100 in
  let severity := querySeverity query in
  let sortBy := orString (querySortBy query) (js "auditedAt") in
  let order := orString (queryOrder query) (js "desc") in
  let result :=
    listAudits stored
      {| StorageMore.page := Some page; StorageMore.limit := Some limit;
         StorageMore.severity := severity; StorageMore.sortBy := Some sortBy;
         StorageMore.order := Some order |} in
  {| audits := result.1; total := result.2; page := page; limit := limit;
     totalPages := ceilDiv result.2 limit |}.

(** The second page of two of all the reports. *)
Definition secondOfTwo : AuditsQuery :=
  {| queryPage := Some 2%Z; queryLimit := Some 2%Z; querySeverity := None;
     querySortBy := None; queryOrder := None |}.

End ApiMore.

(** * Properties *)

(** ** Lines of a string *)

Module JSFacts.
Import JS.

Lemma split_nl_cons s : ∃ l ls, split_nl s = l :: ls.
Proof.
  destruct s as [|c s]; simpl; [by eauto|].
  destruct (c =? LF)%N; [by eauto|].
  destruct (split_nl s); eauto.
Qed.

Lemma split_nl_LF s : split_nl (LF :: s) = [] :: split_nl s.
Proof. reflexivity. Qed.

Lemma split_nl_other c s l ls :
  c ≠ LF → split_nl s = l :: ls → split_nl (c :: s) = (c :: l) :: ls.
Proof.
  intros Hc Hs. simpl. rewrite Hs.
  by destruct (N.eqb_spec c LF).
Qed.

(** Splitting at a newline splits the list of lines. *)
Lemma split_nl_app_LF a b :
  split_nl (a ++ LF :: b) = split_nl a ++ split_nl b.
Proof.
  induction a as [|c a IH]; [done|].
  destruct (split_nl_cons a) as (l & ls & Ha).
  destruct (split_nl_cons (a ++ LF :: b)) as (l' & ls' & Hab).
  rewrite Ha, Hab in IH. simplify_eq/=.
  rewrite Ha, Hab. by destruct (c =? LF)%N.
Qed.

Lemma nonempty_lines_nil : nonempty_lines [] = [].
Proof. reflexivity. Qed.

Lemma nonempty_lines_LF s : nonempty_lines (LF :: s) = nonempty_lines s.
Proof. reflexivity. Qed.

Lemma nonempty_lines_app_LF a b :
  nonempty_lines (a ++ LF :: b) = nonempty_lines a ++ nonempty_lines (LF :: b).
Proof.
  unfold nonempty_lines. rewrite split_nl_app_LF, List.filter_app.
  by rewrite split_nl_LF.
Qed.

(** A line of [split] holds no newline, and splits into itself. *)
Lemma split_nl_no_LF s : Forall (λ l, LF ∉ l) (split_nl s).
Proof.
  induction s as [|c s IH]; simpl.
  - repeat constructor. by intros ?%elem_of_nil.
  - destruct (N.eqb_spec c LF) as [->|Hc].
    + constructor; [by intros ?%elem_of_nil | done].
    + destruct (split_nl s) as [|l ls]; inversion IH; subst.
      * repeat constructor. intros ?%list_elem_of_singleton. done.
      * constructor; [|done]. intros [?|?]%elem_of_cons; done.
Qed.

Lemma split_nl_line l : LF ∉ l → split_nl l = [l].
Proof.
  induction l as [|c l IH]; [done|].
  intros Hn. rewrite not_elem_of_cons in Hn. destruct Hn as [Hc Hl].
  by apply split_nl_other; [|apply IH].
Qed.

Lemma nonempty_lines_first c s : c ≠ LF → nonempty_lines (c :: s) ≠ [].
Proof.
  intros Hc. destruct (split_nl_cons s) as (l & ls & Hs).
  unfold nonempty_lines. by rewrite (split_nl_other _ _ _ _ Hc Hs).
Qed.

(** Lines of a prefix and of a suffix are no longer than those of the
    text. *)
Lemma line_bounded_tail M c s : line_bounded M (c :: s) → line_bounded M s.
Proof.
  unfold line_bounded. simpl. destruct (c =? LF)%N.
  - by inversion 1.
  - destruct (split_nl_cons s) as (l & ls & ->).
    inversion 1; subst. constructor; [simpl in *; lia | done].
Qed.

Lemma line_bounded_drop M n s : line_bounded M s → line_bounded M (drop n s).
Proof.
  revert s. induction n as [|n IH]; intros [|c s] Hs; simpl; try done.
  apply IH. by eapply line_bounded_tail.
Qed.

Lemma line_bounded_take_aux M s : ∀ n,
  line_bounded M s →
  line_bounded M (take n s) ∧
  length (hd [] (split_nl (take n s))) ≤ length (hd [] (split_nl s)).
Proof.
  induction s as [|c s IH]; intros n Hs.
  - rewrite take_nil. split; [done | lia].
  - destruct n as [|n].
    + split; [|simpl; lia]. repeat constructor. simpl. lia.
    + pose proof (line_bounded_tail _ _ _ Hs) as Hs'.
      destruct (IH n Hs') as [IH1 IH2].
      destruct (split_nl_cons s) as (l & ls & Hl).
      destruct (split_nl_cons (take n s)) as (l' & ls' & Hl').
      unfold line_bounded in *. rewrite Hl, Hl' in *. simpl in *.
      rewrite Hl, Hl' in *.
      destruct (c =? LF)%N.
      * split; [|simpl; lia]. constructor; [simpl; lia | done].
      * inversion Hs; subst. inversion IH1; subst.
        split; [|simpl; lia]. constructor; [simpl in *; lia | done].
Qed.

Lemma line_bounded_take M n s : line_bounded M s → line_bounded M (take n s).
Proof. intros Hs. by apply line_bounded_take_aux. Qed.

Lemma line_bounded_slice M s a b : line_bounded M s → line_bounded M (slice s a b).
Proof. intros Hs. by apply line_bounded_take, line_bounded_drop. Qed.

End JSFacts.

(** ** The source chunker *)

Module AnalyzerFacts.
Import JS JSFacts Analyzer.

Lemma chunk_lines_app a b : chunk_lines (a ++ b) = chunk_lines a ++ chunk_lines b.
Proof. apply List.flat_map_app. Qed.

Lemma chunk_lines_one c : chunk_lines [c] = nonempty_lines c.
Proof. unfold chunk_lines. simpl. by rewrite app_nil_r. Qed.

Section splitByLines.
Variable maxLength : nat.

#[local] Abbreviation step := (splitByLines_step maxLength).
#[local] Abbreviation fits := (fits maxLength).

(** *** Size of the chunks *)

Lemma step_fits chunks current line :
  Forall fits chunks → fits current → fits line →
  Forall fits (step (chunks, current) line).1 ∧ fits (step (chunks, current) line).2.
Proof.
  unfold splitByLines_step, Analyzer.fits. intros Hc Hcur Hl.
  destruct (bool_decide_reflect (maxLength < length current + length line + 1));
    destruct (bool_decide_reflect (0 < length current)); simpl.
  - split; [|done]. apply Forall_app. by repeat constructor.
  - split; [done|]. destruct current; [done | simpl in *; lia].
  - split; [done|]. destruct current; simpl in *; [done|].
    rewrite length_app. simpl. lia.
  - split; [done|]. destruct current; [done | simpl in *; lia].
Qed.

Lemma foldl_fits lines : ∀ st,
  Forall fits st.1 → fits st.2 → Forall fits lines →
  Forall fits (foldl step st lines).1 ∧ fits (foldl step st lines).2.
Proof.
  induction lines as [|line lines IH]; intros [chunks current] Hc Hcur Hl; [done|].
  apply Forall_cons in Hl as [Hline Hlines]. simpl.
  destruct (step_fits chunks current line) as [H1 H2]; try done.
  apply IH; done.
Qed.

Lemma splitByLines_fits text :
  line_bounded maxLength text → Forall fits (splitByLines text maxLength).
Proof.
  intros Hl. unfold splitByLines.
  destruct (foldl_fits (split_nl text) ([], [])) as [H1 H2];
    [constructor | unfold Analyzer.fits; simpl; lia | done |].
  destruct (foldl step _ _) as [chunks current]. simpl in *.
  destruct (truthy current); [|done].
  apply Forall_app. by repeat constructor.
Qed.

(** *** Lines of the chunks *)

Lemma step_lines chunks current line :
  LF ∉ line →
  chunk_lines (step (chunks, current) line).1
    ++ nonempty_lines (step (chunks, current) line).2
  = (chunk_lines chunks ++ nonempty_lines current) ++ List.filter truthy [line].
Proof.
  intros Hl. unfold splitByLines_step.
  assert (nonempty_lines line = List.filter truthy [line]) as Hline.
  { unfold nonempty_lines. by rewrite split_nl_line. }
  destruct (_ && _); cbn [fst snd truthy app].
  - by rewrite chunk_lines_app, chunk_lines_one, Hline.
  - destruct current as [|c current]; cbn [fst snd truthy app].
    + by rewrite nonempty_lines_nil, app_nil_r, Hline.
    + change (c :: current ++ LF :: line) with ((c :: current) ++ LF :: line).
      by rewrite nonempty_lines_app_LF, nonempty_lines_LF, Hline, app_assoc.
Qed.

Lemma foldl_lines lines : ∀ st,
  Forall (λ l, LF ∉ l) lines →
  chunk_lines (foldl step st lines).1 ++ nonempty_lines (foldl step st lines).2
  = (chunk_lines st.1 ++ nonempty_lines st.2) ++ List.filter truthy lines.
Proof.
  induction lines as [|line lines IH]; intros [chunks current] Hl.
  - simpl. by rewrite app_nil_r.
  - apply Forall_cons in Hl as [Hline Hlines]. cbn [foldl].
    rewrite IH by done.
    destruct (step (chunks, current) line) as [chunks' current'] eqn:Hst.
    pose proof (step_lines chunks current line) as Hs.
    rewrite Hst in Hs. simpl fst in *; simpl snd in *. rewrite Hs by done.
    rewrite <- app_assoc. f_equal.
    change (line :: lines) with ([line] ++ lines).
    by rewrite List.filter_app.
Qed.

(** Line packing keeps every non-empty line, in order. *)
Lemma splitByLines_lines text :
  chunk_lines (splitByLines text maxLength) = nonempty_lines text.
Proof.
  unfold splitByLines.
  pose proof (foldl_lines (split_nl text) ([], []) (split_nl_no_LF text)) as H.
  destruct (foldl step _ _) as [chunks current]. simpl in H.
  destruct current as [|c current]; cbn [truthy].
  - by rewrite nonempty_lines_nil, app_nil_r in H.
  - by rewrite chunk_lines_app, chunk_lines_one.
Qed.

End splitByLines.

(** *** Declaration boundaries *)

(** A declaration starts with a letter of [abstract], [contract],
    [interface] or [library]: never with a newline. *)
Lemma declarationRegex_first k n s e :
  declarationRegex k n s = Some e → ∃ c t, s = c :: t ∧ c ≠ LF.
Proof.
  destruct s as [|c t]; [by cbv|].
  intros H. exists c, t. split; [done|]. intros ->.
  by cbv in H.
Qed.

(** A match starts the input or sits on a newline, and the text from
    there on has a non-empty line. *)
Lemma contractRegex_shape pos s len :
  contractRegex pos re_done 0 s = Some len →
  (pos = 0 ∨ ∃ t, s = LF :: t) ∧ nonempty_lines s ≠ [].
Proof.
  unfold contractRegex, re_seq, re_alt, re_bol. simpl.
  destruct pos as [|pos].
  - destruct (declarationRegex re_done 0 s) as [e|] eqn:He.
    + intros _. split; [by left|].
      apply declarationRegex_first in He as (c & t & -> & Hc).
      by apply nonempty_lines_first.
    + destruct s as [|c t]; [done|]. unfold re_char.
      destruct (N.eqb_spec LF c) as [<-|]; [|done].
      intros (c' & t' & -> & Hc)%declarationRegex_first.
      split; [by eauto|]. rewrite nonempty_lines_LF. by apply nonempty_lines_first.
  - destruct s as [|c t]; [done|]. unfold re_char.
    destruct (N.eqb_spec LF c) as [<-|]; [|done].
    intros (c' & t' & -> & Hc)%declarationRegex_first.
    split; [by eauto|]. rewrite nonempty_lines_LF. by apply nonempty_lines_first.
Qed.

(** [matchAll] reports increasing offsets of the input, each one the start
    of a match. *)
Lemma matchAll_from_spec exec s : ∀ pos skip,
  StronglySorted lt (matchAll_from exec pos skip s) ∧
  ∀ m, m ∈ matchAll_from exec pos skip s →
    pos ≤ m ∧ is_Some (exec m (drop (m - pos) s)).
Proof.
  induction s as [|c s IH]; intros pos skip.
  - destruct skip; simpl; [|by split; [constructor | intros ? ?%elem_of_nil]].
    destruct (exec pos []) eqn:He; [|by split; [constructor | intros ? ?%elem_of_nil]].
    split; [by repeat constructor|].
    intros m ->%list_elem_of_singleton. rewrite drop_nil, He. eauto.
  - assert (∀ skip',
      StronglySorted lt (matchAll_from exec (S pos) skip' s) ∧
      ∀ m, m ∈ matchAll_from exec (S pos) skip' s →
        pos ≤ m ∧ is_Some (exec m (drop (m - pos) (c :: s)))) as IH'.
    { intros skip'. destruct (IH (S pos) skip') as [IH1 IH2]. split; [done|].
      intros m [Hm He]%IH2. split; [lia|].
      by replace (m - pos) with (S (m - S pos)) by lia. }
    destruct skip as [|skip]; simpl; [|by apply IH'].
    destruct (exec pos (c :: s)) as [len|] eqn:He; [|by apply IH'].
    destruct (IH' (len - 1)) as [IH1 IH2]. split.
    + constructor; [done|]. apply Forall_forall. intros m Hm.
      destruct (IH (S pos) (len - 1)) as [_ IH3]. apply IH3 in Hm. lia.
    + intros m [->|Hm]%elem_of_cons; [|by apply IH2].
      rewrite Nat.sub_diag. simpl. rewrite He. eauto.
Qed.

Lemma contractMatches_sorted src : StronglySorted lt (contractMatches src).
Proof. apply matchAll_from_spec. Qed.

Lemma contractMatches_shape src m :
  m ∈ contractMatches src →
  (m = 0 ∨ ∃ t, drop m src = LF :: t) ∧ nonempty_lines (drop m src) ≠ [].
Proof.
  intros Hm. apply matchAll_from_spec in Hm as [_ [len He]].
  rewrite Nat.sub_0_r in He. by apply contractRegex_shape in He.
Qed.


(** *** Declaration units *)

#[local] Opaque MAX_SOURCE_LENGTH.

Lemma slice_to_end src m : slice src m (length src) = drop m src.
Proof. unfold slice. apply take_ge. rewrite length_drop. lia. Qed.

Lemma drop_slice src m m' : m ≤ m' → drop m src = slice src m m' ++ drop m' src.
Proof.
  intros Hm. unfold slice.
  rewrite <- (take_drop (m' - m) (drop m src)) at 1.
  rewrite drop_drop. do 2 f_equal. lia.
Qed.

Lemma unitChunks_fits src ms :
  line_bounded MAX_SOURCE_LENGTH src →
  Forall (fits MAX_SOURCE_LENGTH) (unitChunks src ms).
Proof.
  intros Hsrc. induction ms as [|m ms IH]; simpl; [constructor|].
  apply Forall_app. split; [|done].
  case_bool_decide; [by repeat constructor|].
  by apply splitByLines_fits, line_bounded_slice.
Qed.

Lemma unitChunks_lines src ms : ∀ m,
  StronglySorted lt (m :: ms) →
  (∀ m', m' ∈ ms → ∃ t, drop m' src = LF :: t) →
  chunk_lines (unitChunks src (m :: ms)) = nonempty_lines (drop m src).
Proof.
  assert (∀ c, chunk_lines
      (if bool_decide (length c ≤ MAX_SOURCE_LENGTH) then [c]
       else splitByLines c MAX_SOURCE_LENGTH) = nonempty_lines c) as Hunit.
  { intros c. case_bool_decide; [apply chunk_lines_one | apply splitByLines_lines]. }
  induction ms as [|m' ms IH]; intros m Hsorted Hnl.
  - cbn [unitChunks]. by rewrite chunk_lines_app, Hunit, slice_to_end, app_nil_r.
  - cbn [unitChunks]. cbn [unitChunks] in IH.
    apply StronglySorted_inv in Hsorted as [Hsorted Hlt].
    apply Forall_cons in Hlt as [Hlt _].
    rewrite chunk_lines_app, Hunit, IH; [|done|by intros; apply Hnl; right].
    destruct (Hnl m') as [t Ht]; [by left|].
    rewrite (drop_slice src m m') by lia.
    by rewrite Ht, nonempty_lines_app_LF.
Qed.

Lemma unitChunks_units src ms :
  Forall (fits MAX_SOURCE_LENGTH) (units src ms) → unitChunks src ms = units src ms.
Proof.
  induction ms as [|m ms IH]; [done|].
  cbn [units unitChunks]. intros [Hm Hms]%Forall_cons.
  rewrite bool_decide_eq_true_2 by done. by rewrite IH.
Qed.

Lemma startsWith_app p s : startsWith (p ++ s) p = true.
Proof.
  induction p as [|c p IH]; [by destruct s|].
  simpl. by rewrite N.eqb_refl, IH.
Qed.


(** *** [chunkSourceCode], case by case *)

Lemma chunkSourceCode_few src :
  length (contractMatches src) ≤ 1 →
  chunkSourceCode src = splitByLines src MAX_SOURCE_LENGTH.
Proof. intros H. unfold chunkSourceCode. by rewrite bool_decide_eq_true_2. Qed.

Lemma preambleOf_few src : length (contractMatches src) ≤ 1 → preambleOf src = [].
Proof.
  unfold preambleOf. destruct (contractMatches src) as [|? [|? ?]]; simpl; [done..|lia].
Qed.

Lemma unitChunks_nonempty src m0 ms :
  contractMatches src = m0 :: ms → unitChunks src (m0 :: ms) ≠ [].
Proof.
  intros Hm Hnil.
  pose proof (contractMatches_sorted src) as Hsorted.
  pose proof (contractMatches_shape src) as Hshape.
  rewrite Hm in Hsorted, Hshape.
  destruct (Hshape m0) as [_ Hne]; [by left|]. apply Hne.
  rewrite <- (unitChunks_lines src ms m0), Hnil; [done..|].
  intros m' Hm'. destruct (Hshape m') as [[->|?] _]; [by right| |done].
  apply StronglySorted_inv in Hsorted as [_ Hlt].
  rewrite Forall_forall in Hlt. apply Hlt in Hm'. lia.
Qed.

Lemma chunkSourceCode_multi src m0 m1 ms c0 cs :
  contractMatches src = m0 :: m1 :: ms →
  unitChunks src (m0 :: m1 :: ms) = c0 :: cs →
  chunkSourceCode src =
    match preambleOf src with
    | [] => c0
    | p => p ++ [LF; LF] ++ c0
    end :: cs.
Proof.
  intros Hm Hu. unfold chunkSourceCode, preambleOf. rewrite Hm, Hu.
  rewrite bool_decide_eq_false_2 by (simpl; lia).
  destruct m0 as [|m0].
  - rewrite bool_decide_eq_false_2 by lia. done.
  - rewrite bool_decide_eq_true_2 by lia.
    destruct (trim _) as [|c p]; [done|].
    by rewrite bool_decide_eq_true_2 by (simpl; lia).
Qed.

Lemma chunkSourceCode_lines src :
  chunk_lines (chunkSourceCode src) = nonempty_lines (trimmedSource src).
Proof.
  unfold trimmedSource.
  destruct (contractMatches src) as [|m0 [|m1 ms]] eqn:Hm;
    try (rewrite chunkSourceCode_few by (rewrite Hm; simpl; lia);
         apply splitByLines_lines).
  destruct (unitChunks src (m0 :: m1 :: ms)) as [|c0 cs] eqn:Hu;
    [by apply unitChunks_nonempty in Hu|].
  rewrite (chunkSourceCode_multi _ _ _ _ _ _ Hm Hu).
  pose proof (contractMatches_sorted src) as Hsorted.
  pose proof (contractMatches_shape src) as Hshape.
  rewrite Hm in Hsorted, Hshape.
  assert (chunk_lines (c0 :: cs) = nonempty_lines (drop m0 src)) as Hlines.
  { rewrite <- Hu. apply unitChunks_lines; [done|].
    intros m' Hm'. destruct (Hshape m') as [[->|?] _]; [by right| |done].
    apply StronglySorted_inv in Hsorted as [_ Hlt].
    rewrite Forall_forall in Hlt. apply Hlt in Hm'. lia. }
  unfold preambleOf. rewrite Hm.
  destruct (Hshape m0) as [[->|[t Ht]] _]; [by left| |].
  - replace (trim (slice src 0 0)) with (@nil char) by done. exact Hlines.
  - rewrite Ht, nonempty_lines_app_LF, <- Ht, <- Hlines.
    destruct (trim _) as [|c p]; [done|].
    change (chunk_lines (?a :: cs)) with (nonempty_lines a ++ chunk_lines cs).
    change ((c :: p) ++ [LF; LF] ++ c0) with ((c :: p) ++ LF :: (LF :: c0)).
    by rewrite nonempty_lines_app_LF, !nonempty_lines_LF, <- app_assoc.
Qed.

Lemma chunkSourceCode_fits src :
  line_bounded MAX_SOURCE_LENGTH src →
  Forall (fits MAX_SOURCE_LENGTH) (drop 1 (chunkSourceCode src)) ∧
  ∀ c0, head (chunkSourceCode src) = Some c0 →
    length c0 ≤ MAX_SOURCE_LENGTH + preambleOverhead src.
Proof.
  intros Hsrc. unfold preambleOverhead.
  destruct (contractMatches src) as [|m0 [|m1 ms]] eqn:Hm;
    try (rewrite chunkSourceCode_few, preambleOf_few by (rewrite Hm; simpl; lia);
         pose proof (splitByLines_fits MAX_SOURCE_LENGTH src Hsrc) as Hf;
         split; [by apply Forall_drop|];
         intros c0 Hc0%head_Some_elem_of; rewrite Forall_forall in Hf;
         apply Hf in Hc0; unfold fits in Hc0; lia).
  pose proof (unitChunks_fits src (m0 :: m1 :: ms) Hsrc) as Hf.
  destruct (unitChunks src (m0 :: m1 :: ms)) as [|c0 cs] eqn:Hu;
    [by apply unitChunks_nonempty in Hu|].
  rewrite (chunkSourceCode_multi _ _ _ _ _ _ Hm Hu).
  apply Forall_cons in Hf as [Hc0 Hcs]. unfold fits in Hc0.
  split; [done|]. intros c [= <-].
  destruct (preambleOf src) as [|a p]; [lia|].
  simpl. rewrite length_app. simpl. lia.
Qed.

End AnalyzerFacts.

(** ** The source fetcher *)

Module BasescanFacts.
Import JS Basescan.

#[local] Open Scope Z_scope.

(** *** The limiter, call after call *)

Lemma enter_cases l now :
  (1000 ≤ now - lastRequestTime l ∧
   enter l now = (mkLimiter now 1, Proceeds)) ∨
  (now - lastRequestTime l < 1000 ∧ requestsThisSecond l < 5 ∧
   enter l now = (mkLimiter (lastRequestTime l) (requestsThisSecond l + 1), Proceeds)) ∨
  (now - lastRequestTime l < 1000 ∧ 5 ≤ requestsThisSecond l ∧
   enter l now = (l, Sleeps (1000 - (now - lastRequestTime l)))).
Proof.
  unfold enter. destruct l as [last count]. simpl.
  destruct (bool_decide_reflect (1000 ≤ now - last)); simpl.
  - left. done.
  - right. destruct (bool_decide_reflect (5 ≤ count)); [right | left];
      repeat split; (lia || done).
Qed.

(** A call is let through at once or when its window is over, never later
    than one second (and the lateness of the timer) after it was made. *)
Lemma rateLimitWait_cases l now late :
  (1000 ≤ now - lastRequestTime l ∧
   rateLimitWait l now late = (mkLimiter now 1, now)) ∨
  (now - lastRequestTime l < 1000 ∧ requestsThisSecond l < 5 ∧
   rateLimitWait l now late =
     (mkLimiter (lastRequestTime l) (requestsThisSecond l + 1), now)) ∨
  (now - lastRequestTime l < 1000 ∧ 5 ≤ requestsThisSecond l ∧
   rateLimitWait l now late =
     (mkLimiter (lastRequestTime l + 1000 + late) 1, lastRequestTime l + 1000 + late)).
Proof.
  unfold rateLimitWait.
  destruct (enter_cases l now) as [[H ->]|[(H1 & H2 & ->)|(H1 & H2 & ->)]]; eauto.
  right; right. split; [done|]. split; [done|].
  unfold resume. simpl. do 2 f_equal; lia.
Qed.

Lemma rateLimitWait_delay l now late :
  lastRequestTime l ≤ now → 0 ≤ late →
  now ≤ (rateLimitWait l now late).2 ≤ now + 1000 + late.
Proof.
  intros Hnow Hlate.
  destruct (rateLimitWait_cases l now late)
    as [[H ->]|[(H1 & H2 & ->)|(H1 & H2 & ->)]]; simpl; lia.
Qed.

Lemma countedIn_cons W x calls :
  countedIn W (x :: calls) = (if bool_decide (x.1 = W) then 1 else 0) + countedIn W calls.
Proof.
  unfold countedIn. simpl. destruct (bool_decide (x.1 = W)); simpl; lia.
Qed.

Lemma countedIn_later W calls (from : Z) :
  Forall (λ x : Z * Z, from ≤ x.1) calls → W < from → countedIn W calls = 0.
Proof.
  intros Hall HW. induction calls as [|x calls IH]; [done|].
  apply Forall_cons in Hall as [Hx Hall]. rewrite countedIn_cons, IH by done.
  rewrite bool_decide_eq_false_2 by lia. done.
Qed.

(** The counter counts the calls of the current window, which started at
    [lastRequestTime]: windows start later and later, calls are let through
    within their window, and a window never counts more than five. *)
Lemma sequentialCalls_windows calls : ∀ l clock,
  lastRequestTime l ≤ clock →
  0 ≤ requestsThisSecond l ≤ 5 →
  Forall (λ c : Z * Z, 0 ≤ c.1 ∧ 0 ≤ c.2) calls →
  Forall (λ x : Z * Z, lastRequestTime l ≤ x.1 ∧ x.1 ≤ x.2 < x.1 + 1000)
    (sequentialCalls l clock calls) ∧
  ∀ W, countedIn W (sequentialCalls l clock calls)
         + (if bool_decide (lastRequestTime l = W) then requestsThisSecond l else 0) ≤ 5.
Proof.
  induction calls as [|[gap late] calls IH]; intros l clock Hclock Hcount Hcalls.
  { split; [constructor|]. intros W. unfold countedIn. simpl. case_bool_decide; lia. }
  apply Forall_cons in Hcalls as [[Hgap Hlate] Hcalls]. simpl in Hgap, Hlate.
  cbn [sequentialCalls].
  destruct (rateLimitWait_cases l (clock + gap) late)
    as [[H ->]|[(H1 & H2 & ->)|(H1 & H2 & ->)]];
    (match goal with
     | |- context [sequentialCalls ?l' ?t calls] =>
         destruct (IH l' t) as [IHa IHb]; [simpl; lia | simpl; lia | exact Hcalls |]
     end);
    simpl in IHa, IHb; (split; [constructor; [simpl; lia|]|]).
  - eapply Forall_impl; [exact IHa|]. simpl. lia.
  - intros W. rewrite countedIn_cons. simpl. specialize (IHb W).
    repeat case_bool_decide; try lia.
    rewrite (countedIn_later W _ (clock + gap)); [lia| |lia].
    eapply Forall_impl; [exact IHa|]. simpl. lia.
  - done.
  - intros W. rewrite countedIn_cons. simpl. specialize (IHb W).
    repeat case_bool_decide; lia.
  - eapply Forall_impl; [exact IHa|]. simpl. lia.
  - intros W. rewrite countedIn_cons. simpl. specialize (IHb W).
    repeat case_bool_decide; try lia.
    rewrite (countedIn_later W _ (lastRequestTime l + 1000 + late)); [lia| |lia].
    eapply Forall_impl; [exact IHa|]. simpl. lia.
Qed.

Lemma sequentialCalls_length calls : ∀ l clock,
  length (sequentialCalls l clock calls) = length calls.
Proof.
  induction calls as [|[gap late] calls IH]; intros l clock; [done|].
  cbn [sequentialCalls]. destruct (rateLimitWait _ _ _). simpl. by rewrite IH.
Qed.

(** *** The limiter on the event loop *)

(** Runs the innermost step of a schedule whose state is known. *)
Ltac run_step :=
  match goal with
  | |- context [step (mkLoop ?l ?sl ?ps) ?e] =>
      let H := fresh in
      eassert (step (mkLoop l sl ps) e = _) as H;
      [ unfold step, enter, resume, isCaller; cbn -[Z.add Z.sub Z.mul];
        repeat (match goal with
                | |- context [bool_decide ?P] =>
                    first [ rewrite (bool_decide_eq_true_2 P) by lia
                          | rewrite (bool_decide_eq_false_2 P) by lia ]
                end; cbn -[Z.add Z.sub Z.mul]);
        reflexivity
      | rewrite H; clear H ]
  end.

(** *** Proxies *)

Lemma getContractSource_step fuel env address apiKey :
  getContractSource (S fuel) env address apiKey =
  match request env address apiKey with
  | None => Returned None [address]
  | Some data =>
      match contractSourceOf env address data with
      | None => Returned None [address]
      | Some contractSource =>
          match implementationToFetch contractSource with
          | Some implementationAddress =>
              match getContractSource fuel env implementationAddress apiKey with
              | OutOfFuel => OutOfFuel
              | Returned (Some implSource) requested =>
                  Returned
                    (Some (withImplementation address contractSource implSource
                             implementationAddress))
                    (address :: requested)
              | Returned None requested =>
                  Returned (Some contractSource) (address :: requested)
              end
          | None => Returned (Some contractSource) [address]
          end
      end
  end.
Proof. reflexivity. Qed.

Lemma getContractSource_end fuel env address apiKey :
  proxyTarget env apiKey address = None →
  ∃ source, getContractSource (S fuel) env address apiKey = Returned source [address].
Proof.
  unfold proxyTarget. rewrite getContractSource_step. intros H.
  destruct (request env address apiKey) as [data|]; simpl in H; [|by eauto].
  destruct (contractSourceOf env address data) as [cs|]; simpl in H; [|by eauto].
  rewrite H. eauto.
Qed.

Lemma getContractSource_hop fuel env address apiKey impl :
  proxyTarget env apiKey address = Some impl →
  getContractSource (S fuel) env address apiKey = OutOfFuel ∧
    getContractSource fuel env impl apiKey = OutOfFuel
  ∨ ∃ source implSource requested,
      getContractSource (S fuel) env address apiKey = Returned source (address :: requested) ∧
      getContractSource fuel env impl apiKey = Returned implSource requested.
Proof.
  unfold proxyTarget. rewrite getContractSource_step. intros H.
  destruct (request env address apiKey) as [data|]; simpl in H; [|done].
  destruct (contractSourceOf env address data) as [cs|]; simpl in H; [|done].
  rewrite H.
  destruct (getContractSource fuel env impl apiKey) as [|[implSource|] requested];
    [by left|right; eauto..].
Qed.

(** Among proxies that only lead to proxies, the function never returns. *)
Lemma getContractSource_diverges env apiKey (P : jsstring → Prop) :
  (∀ address, P address → ∃ impl, proxyTarget env apiKey address = Some impl ∧ P impl) →
  ∀ fuel address, P address → getContractSource fuel env address apiKey = OutOfFuel.
Proof.
  intros Hclosed. induction fuel as [|fuel IH]; intros address HP; [done|].
  destruct (Hclosed address HP) as (impl & Hhop & HP').
  destruct (getContractSource_hop fuel _ _ _ _ Hhop)
    as [[-> _]|(? & ? & ? & _ & Himpl)]; [done|].
  rewrite IH in Himpl by done. done.
Qed.

End BasescanFacts.

(** ** The audit pipeline *)

Module PipelineFacts.
Import JS Analyzer Monitor.

(** *** Risk *)



Lemma overallRiskOf_determineOverallRisk findings :
  Api.overallRiskOf findings = determineOverallRisk findings.
Proof. reflexivity. Qed.

Lemma higher_rank a b : rank (higher a b) = rank a `max` rank b.
Proof. unfold higher. case_bool_decide; lia. Qed.



(** *** Findings kept *)





(** *** The store *)




(** *** The monitor *)

#[local] Open Scope Z_scope.

Lemma tick_lastProcessedBlock client t r :
  MonitorState.lastProcessedBlock (state (tick client t r)) =
  match height t with
  | Some currentBlock =>
      if bool_decide (MonitorState.lastProcessedBlock (state r) < currentBlock)
      then currentBlock else MonitorState.lastProcessedBlock (state r)
  | None => MonitorState.lastProcessedBlock (state r)
  end.
Proof.
  unfold tick. destruct (height t) as [currentBlock|]; [|done].
  cbn [requestStop state]. by case_bool_decide.
Qed.

(** The marker never goes back. *)
Lemma tick_monotone client t r :
  MonitorState.lastProcessedBlock (state r)
  ≤ MonitorState.lastProcessedBlock (state (tick client t r)).
Proof.
  rewrite tick_lastProcessedBlock. destruct (height t); [|lia].
  case_bool_decide; lia.
Qed.

Lemma stopped_lastProcessedBlock r :
  MonitorState.lastProcessedBlock (state (stopped r))
  = MonitorState.lastProcessedBlock (state r).
Proof. done. Qed.

Lemma poll_monotone client ticks : ∀ r,
  MonitorState.lastProcessedBlock (state r)
  ≤ MonitorState.lastProcessedBlock (state (poll client ticks r)).
Proof.
  induction ticks as [|t ticks IH]; intros r; simpl; [lia|].
  destruct (stopRequested r); [by rewrite stopped_lastProcessedBlock|].
  etrans; [apply (tick_monotone client t)|apply IH].
Qed.

(** Once a stop is seen, the loop over the blocks does nothing more. *)
Lemma blocks_stopped client t remaining blockNum r :
  stopRequested r = true → blocks client t remaining blockNum r = r.
Proof. intros Hstop. destruct remaining; simpl; [done|]. by rewrite Hstop. Qed.

Lemma scanTx_scanned client blockNum block r tx :
  scanned (scanTx client blockNum block r tx) = scanned r ∧
  stopRequested (scanTx client blockNum block r tx) = stopRequested r.
Proof.
  unfold scanTx. destruct (to tx); [done|].
  destruct (getTransactionReceipt client (hash tx)) as [receipt|]; [|done].
  by destruct (contractAddress receipt).
Qed.

Lemma scanTxs_scanned client blockNum block txs : ∀ r,
  scanned (foldl (scanTx client blockNum block) r txs) = scanned r ∧
  stopRequested (foldl (scanTx client blockNum block) r txs) = stopRequested r.
Proof.
  induction txs as [|tx txs IH]; intros r; simpl; [done|].
  destruct (IH (scanTx client blockNum block r tx)) as [-> ->].
  apply scanTx_scanned.
Qed.

(** A stop requested while a block is processed ends the loop after that
    block. *)
Lemma blocks_exit client t remaining blockNum r :
  stopRequested r = false → stopDuring t blockNum = true →
  blocks client t (S remaining) blockNum r = processBlock client t blockNum r.
Proof.
  intros Hrun Hstop. cbn [blocks]. rewrite Hrun. apply blocks_stopped.
  unfold processBlock, requestStop. cbn [stopRequested]. rewrite Hstop.
  apply orb_true_r.
Qed.

Lemma processBlock_scanned client t blockNum r :
  scanned (processBlock client t blockNum r) = scanned r ∨
  scanned (processBlock client t blockNum r) = scanned r ++ [blockNum].
Proof.
  unfold processBlock. destruct (getBlock client blockNum) as [block|]; simpl; [|by left].
  right. f_equal. apply scanTxs_scanned.
Qed.

(** The blocks gone through in one loop are blocks of its range, below
    the block a stop was seen at. *)
Lemma blocks_scanned client t remaining : ∀ blockNum r b,
  b ∈ scanned (blocks client t remaining blockNum r) →
  b ∈ scanned r ∨ blockNum ≤ b < blockNum + Z.of_nat remaining.
Proof.
  induction remaining as [|remaining IH]; intros blockNum r b Hb; [by left|].
  simpl in Hb. destruct (stopRequested r); [by left|].
  apply IH in Hb as [Hb|Hb]; [|right; lia].
  destruct (processBlock_scanned client t blockNum r) as [Heq|Heq];
    rewrite Heq in Hb; [by left|].
  apply elem_of_app in Hb as [Hb|Hb%list_elem_of_singleton]; [by left|right; lia].
Qed.

End PipelineFacts.

(** ** More on the chunker *)

Module ChunkerFacts.
Import JS JSFacts Analyzer AnalyzerFacts More.

#[local] Opaque MAX_SOURCE_LENGTH.

Lemma begins_with_text_lines c : begins_with_text c → nonempty_lines c ≠ [].
Proof. destruct c as [|ch c]; [done|]. apply nonempty_lines_first. Qed.

Lemma begins_with_text_nonempty c : begins_with_text c → c ≠ [].
Proof. by destruct c. Qed.

(** A non-empty line of [split] begins with text. *)
Lemma line_begins_with_text l : LF ∉ l → l ≠ [] → begins_with_text l.
Proof.
  destruct l as [|ch l]; [done|]. intros Hl _. simpl.
  intros ->. apply Hl. by left.
Qed.

Lemma splitByLines_step_begins maxLength chunks current line :
  LF ∉ line →
  Forall begins_with_text chunks → (current = [] ∨ begins_with_text current) →
  Forall begins_with_text (splitByLines_step maxLength (chunks, current) line).1 ∧
  ((splitByLines_step maxLength (chunks, current) line).2 = [] ∨
   begins_with_text (splitByLines_step maxLength (chunks, current) line).2).
Proof.
  intros Hline Hchunks Hcur. unfold splitByLines_step.
  assert (line = [] ∨ begins_with_text line) as Hl.
  { destruct line as [|ch l]; [by left|right]. by apply line_begins_with_text. }
  destruct (bool_decide_reflect (maxLength < length current + length line + 1));
    destruct (bool_decide_reflect (0 < length current)); cbn [andb fst snd truthy app].
  - split; [|done]. apply Forall_app. split; [done|]. repeat constructor.
    destruct Hcur as [->|?]; [simpl in *; lia | done].
  - split; [done|]. destruct current; [done | simpl in *; lia].
  - split; [done|]. right. destruct current; [simpl in *; lia|].
    destruct Hcur as [?|?]; done.
  - split; [done|]. destruct current; [done | simpl in *; lia].
Qed.

Lemma splitByLines_fold_begins maxLength lines : ∀ st,
  Forall (λ l, LF ∉ l) lines →
  Forall begins_with_text st.1 → (st.2 = [] ∨ begins_with_text st.2) →
  Forall begins_with_text (foldl (splitByLines_step maxLength) st lines).1 ∧
  ((foldl (splitByLines_step maxLength) st lines).2 = [] ∨
   begins_with_text (foldl (splitByLines_step maxLength) st lines).2).
Proof.
  induction lines as [|line lines IH]; intros [chunks current] Hl Hc Hcur; [done|].
  apply Forall_cons in Hl as [Hline Hlines]. cbn [foldl].
  destruct (splitByLines_step_begins maxLength chunks current line) as [H1 H2];
    [done..|].
  by apply IH.
Qed.

Lemma splitByLines_begins text maxLength :
  Forall begins_with_text (splitByLines text maxLength).
Proof.
  unfold splitByLines.
  destruct (splitByLines_fold_begins maxLength (split_nl text) ([], []))
    as [H1 H2]; [apply split_nl_no_LF | constructor | by left |].
  destruct (foldl _ _ _) as [chunks current]. simpl in *.
  destruct current as [|ch current]; [done|]. cbn [truthy].
  apply Forall_app. split; [done|]. repeat constructor.
  by destruct H2.
Qed.

(** The text is its lines, joined by newlines. *)
Lemma split_nl_join text l ls :
  split_nl text = l :: ls → text = l ++ flat_map (λ x, LF :: x) ls.
Proof.
  revert l ls. induction text as [|c text IH]; intros l ls.
  - intros [= <- <-]. done.
  - simpl. destruct (N.eqb_spec c LF) as [->|Hc].
    + intros [= <- <-]. destruct (split_nl_cons text) as (l' & ls' & Hs).
      rewrite Hs. simpl. f_equal. by apply IH.
    + destruct (split_nl_cons text) as (l' & ls' & Hs). rewrite Hs.
      intros [= <- <-]. simpl. f_equal. by apply IH.
Qed.

(** While what is packed and what is left fit within the limit, nothing is
    pushed. *)
Lemma splitByLines_fold_fits maxLength lines : ∀ chunks current,
  current ≠ [] →
  length (current ++ flat_map (λ x, LF :: x) lines) ≤ maxLength →
  foldl (splitByLines_step maxLength) (chunks, current) lines
  = (chunks, current ++ flat_map (λ x, LF :: x) lines).
Proof.
  induction lines as [|line lines IH]; intros chunks current Hne Hlen.
  - simpl. by rewrite app_nil_r.
  - cbn [foldl flat_map]. unfold splitByLines_step at 2.
    rewrite (bool_decide_eq_false_2 (maxLength < _)).
    2:{ rewrite !length_app in Hlen. simpl in Hlen. rewrite length_app in Hlen. lia. }
    cbn [andb]. destruct current as [|ch current]; [done|]. cbn [truthy].
    rewrite IH.
    + f_equal. by rewrite <- !app_assoc.
    + done.
    + rewrite <- app_assoc. exact Hlen.
Qed.

Lemma unit_nonempty src m m' :
  m < m' → drop m src ≠ [] → slice src m m' ≠ [].
Proof.
  intros Hlt Hne. unfold slice. destruct (drop m src); [done|].
  by replace (m' - m) with (S (m' - m - 1)) by lia.
Qed.

Lemma unitChunks_nonempty_chunks src ms : ∀ m,
  StronglySorted lt (m :: ms) →
  (∀ m', m' ∈ m :: ms → drop m' src ≠ []) →
  Forall (λ c, c ≠ []) (unitChunks src (m :: ms)).
Proof.
  assert (∀ c, c ≠ [] → Forall (λ c : jsstring, c ≠ [])
      (if bool_decide (length c ≤ MAX_SOURCE_LENGTH) then [c]
       else splitByLines c MAX_SOURCE_LENGTH)) as Hunit.
  { intros c Hc. case_bool_decide; [by repeat constructor|].
    eapply Forall_impl; [apply splitByLines_begins|]. apply begins_with_text_nonempty. }
  induction ms as [|m' ms IH]; intros m Hsorted Hdrop.
  - cbn [unitChunks]. rewrite app_nil_r. apply Hunit.
    rewrite slice_to_end. apply Hdrop. by left.
  - cbn [unitChunks]. cbn [unitChunks] in IH.
    apply StronglySorted_inv in Hsorted as [Hsorted Hlt].
    apply Forall_cons in Hlt as [Hlt _].
    apply Forall_app. split.
    + apply Hunit. apply unit_nonempty; [done|]. apply Hdrop. by left.
    + apply IH; [done|]. intros ? ?. apply Hdrop. by right.
Qed.

(** *** The candidate JSON array of an answer *)

(** After the opening bracket, the longest run that a closing bracket
    follows is taken: up to the last closing bracket. *)
Lemma star_to_last_bracket post : ∀ n,
  RBRACKET ∉ post →
  re_star (λ c, is_space c || negb (is_space c)) (re_lit [RBRACKET] re_done) n post = None.
Proof.
  induction post as [|c post IH]; intros n Hpost; [done|].
  apply not_elem_of_cons in Hpost as [Hc Hpost]. cbn [re_star].
  rewrite orb_negb_r, IH by done.
  cbn [re_lit]. unfold re_char. destruct (N.eqb_spec RBRACKET c); [congruence | done].
Qed.

Lemma star_finds_last_bracket mid post : ∀ n,
  RBRACKET ∉ post →
  re_star (λ c, is_space c || negb (is_space c)) (re_lit [RBRACKET] re_done) n
    (mid ++ RBRACKET :: post) = Some (n + length mid + 1).
Proof.
  induction mid as [|c mid IH]; intros n Hpost.
  - cbn [app re_star]. rewrite orb_negb_r, star_to_last_bracket by done.
    cbn [re_lit]. unfold re_char, re_done. rewrite N.eqb_refl. f_equal. simpl. lia.
  - cbn [app re_star]. rewrite orb_negb_r, IH by done. simpl. f_equal. lia.
Qed.

Lemma jsonArrayRegex_at_bracket mid post :
  RBRACKET ∉ post →
  jsonArrayRegex re_done 0 (LBRACKET :: mid ++ RBRACKET :: post)
  = Some (length mid + 2).
Proof.
  intros Hpost. unfold jsonArrayRegex, re_seq.
  change (js "[") with [LBRACKET]. change (js "]") with [RBRACKET].
  cbn [re_lit]. unfold re_char at 1. rewrite N.eqb_refl.
  rewrite star_finds_last_bracket by done. f_equal. lia.
Qed.

Lemma jsonArrayRegex_not_bracket c s :
  c ≠ LBRACKET → jsonArrayRegex re_done 0 (c :: s) = None.
Proof.
  intros Hc. unfold jsonArrayRegex, re_seq.
  change (js "[") with [LBRACKET]. cbn [re_lit]. unfold re_char at 1.
  destruct (N.eqb_spec LBRACKET c) as [<-|]; done.
Qed.

Lemma jsonArrayRegex_no_closing s :
  RBRACKET ∉ s → jsonArrayRegex re_done 0 s = None.
Proof.
  intros Hs. destruct s as [|c s]; [done|].
  unfold jsonArrayRegex, re_seq.
  change (js "[") with [LBRACKET]. change (js "]") with [RBRACKET].
  cbn [re_lit]. unfold re_char at 1.
  destruct (N.eqb LBRACKET c); [|done].
  apply not_elem_of_cons in Hs as [_ Hs].
  by apply (star_to_last_bracket s 1).
Qed.

End ChunkerFacts.

(** ** More on risk and summaries *)

Module ReportFacts.
Import JS Analyzer Monitor PipelineFacts.

Lemma existsb_Permutation {A} (p : A → bool) l l' :
  l ≡ₚ l' → existsb p l = existsb p l'.
Proof.
  induction 1 as [|x l l' _ IH|x y l|l l' l'' _ IH1 _ IH2]; simpl.
  - done.
  - by rewrite IH.
  - by rewrite !orb_assoc, (orb_comm (p y)).
  - by rewrite IH1.
Qed.



End ReportFacts.

(** ** More on the store *)

Module StoreFacts.
Import JS Storage StorageMore.

Lemma loadAudits_loaded dir s :
  loadAudits dir s = foldl (λ s report, index report s) s (loaded dir).
Proof.
  unfold loadAudits, loaded.
  generalize (List.filter (λ entry : jsstring * option AuditReport.t,
                endsWith entry.1 (js ".json")) dir).
  intros l. revert s. induction l as [|[name [report|]] l IH]; intros s; simpl; [done|..].
  - apply IH.
  - apply IH.
Qed.

Lemma saveAudit_index report dataDir s :
  auditsById (saveAudit report dataDir s) = auditsById (index report s) ∧
  auditsByAddress (saveAudit report dataDir s) = auditsByAddress (index report s).
Proof. done. Qed.

(** Indexing reports one after the other: the last one under a key is the
    one found. *)
Lemma index_all_byId reports : ∀ s id,
  auditsById (foldl (λ s report, index report s) s reports) !! id =
  match lastWhere (λ r, bool_decide (AuditReport.id r = id)) reports with
  | Some r => Some r
  | None => auditsById s !! id
  end.
Proof.
  unfold lastWhere.
  induction reports as [|r reports IH] using rev_ind; intros s id; [done|].
  rewrite foldl_app, reverse_app. cbn [foldl reverse rev_append app List.find index auditsById].
  rewrite lookup_insert. rewrite IH.
  destruct (decide (AuditReport.id r = id)) as [Heq|Hne].
  - by rewrite bool_decide_eq_true_2.
  - by rewrite bool_decide_eq_false_2.
Qed.

Lemma index_all_byAddress reports : ∀ s key,
  auditsByAddress (foldl (λ s report, index report s) s reports) !! key =
  match lastWhere (λ r, bool_decide (toLowerCase (AuditReport.contractAddress r) = key))
          reports with
  | Some r => Some r
  | None => auditsByAddress s !! key
  end.
Proof.
  unfold lastWhere.
  induction reports as [|r reports IH] using rev_ind; intros s key; [done|].
  rewrite foldl_app, reverse_app.
  cbn [foldl reverse rev_append app List.find index auditsByAddress].
  rewrite lookup_insert. rewrite IH.
  destruct (decide (toLowerCase (AuditReport.contractAddress r) = key)) as [Heq|Hne].
  - by rewrite bool_decide_eq_true_2.
  - by rewrite bool_decide_eq_false_2.
Qed.

(** *** Keys of the indexes *)

Lemma keyed_index report s : keyed s → keyed (index report s).
Proof.
  intros [Ha Hi]. split; simpl.
  - intros key r. rewrite lookup_insert. case_decide; [naive_solver|]. apply Ha.
  - intros id r. rewrite lookup_insert. case_decide; [naive_solver|]. apply Hi.
Qed.

Lemma keyed_reachable s : reachable s → keyed s.
Proof.
  induction 1 as [|dir s _ IH|report dataDir s _ IH].
  - split; intros ? ?; simpl; by rewrite lookup_empty.
  - rewrite loadAudits_loaded. generalize (loaded dir). intros l.
    revert s IH. induction l as [|r l IHl]; intros s IH; [done|].
    simpl. apply IHl. by apply keyed_index.
  - destruct (keyed_index report s IH) as [Ha Hi]. split; [apply Ha | apply Hi].
Qed.

(** *** Counting *)

Lemma filter_length_Permutation {A} (p : A → bool) l l' :
  l ≡ₚ l' → length (List.filter p l) = length (List.filter p l').
Proof.
  induction 1 as [|x l l' _ IH|x y l|l l' l'' _ IH1 _ IH2]; simpl.
  - done.
  - destruct (p x); simpl; by rewrite IH.
  - destruct (p x), (p y); done.
  - by rewrite IH1.
Qed.


Lemma allAudits_save report dataDir s :
  auditsById s !! AuditReport.id report = None →
  allAudits (saveAudit report dataDir s) ≡ₚ report :: allAudits s.
Proof.
  intros Hfresh. unfold allAudits, saveAudit. simpl.
  rewrite map_to_list_insert by done. done.
Qed.

(** *** Sorting and paging *)

Lemma insertSorted_Permutation {A} (cmp : A → A → Z) x l :
  insertSorted cmp x l ≡ₚ x :: l.
Proof.
  induction l as [|y l IH]; [done|]. simpl. case_bool_decide; [done|].
  rewrite IH. apply perm_swap.
Qed.

Lemma sort_Permutation {A} (cmp : A → A → Z) l : sort cmp l ≡ₚ l.
Proof.
  induction l as [|x l IH]; [done|]. unfold sort in *. simpl.
  by rewrite insertSorted_Permutation, IH.
Qed.

Section sorted.
Context {A : Type} (cmp : A → A → Z) (R : A → A → Prop).
Hypothesis cmp_le : ∀ a b, (cmp a b ≤ 0)%Z → R a b.
Hypothesis cmp_gt : ∀ a b, ¬ (cmp a b ≤ 0)%Z → R b a.
Hypothesis R_trans : ∀ a b c, R a b → R b c → R a c.

Lemma insertSorted_sorted x l :
  StronglySorted R l → StronglySorted R (insertSorted cmp x l).
Proof using cmp_le cmp_gt R_trans.
  induction 1 as [|y l Hsorted IH Hall]; simpl; [by repeat constructor|].
  case_bool_decide as Hcmp.
  - constructor; [by constructor|]. constructor; [by apply cmp_le|].
    eapply Forall_impl; [exact Hall|]. intros z Hz. eapply R_trans; [|exact Hz].
    by apply cmp_le.
  - constructor; [done|].
    rewrite (insertSorted_Permutation cmp x l). constructor; [by apply cmp_gt | done].
Qed.

Lemma sort_sorted l : StronglySorted R (sort cmp l).
Proof using cmp_le cmp_gt R_trans.
  induction l as [|x l IH]; [constructor|]. by apply insertSorted_sorted.
Qed.

End sorted.

Lemma listing_sorted audits options :
  StronglySorted
    (inOrder (default (js "auditedAt") (sortBy options))
       (default (js "desc") (order options)))
    (listing audits options).
Proof.
  unfold listing. apply sort_sorted; unfold inOrder, compareAudits; intros a b.
  - repeat case_bool_decide; lia.
  - repeat case_bool_decide; lia.
  - intros c. case_bool_decide; lia.
Qed.

Lemma arraySlice_from {A} (l : list A) (start count : Z) :
  (0 ≤ start)%Z → (0 ≤ count)%Z →
  arraySlice l start (start + count) = take (Z.to_nat count) (drop (Z.to_nat start) l).
Proof.
  intros Hstart Hcount. unfold arraySlice, relativeIndex.
  rewrite !bool_decide_eq_false_2 by lia.
  destruct (decide (start < Z.of_nat (length l))%Z) as [Hin|Hout].
  - rewrite (Z.min_l start) by lia.
    destruct (decide (start + count ≤ Z.of_nat (length l))%Z).
    + rewrite Z.min_l by lia. f_equal. lia.
    + rewrite Z.min_r by lia.
      rewrite !take_ge; [done|rewrite length_drop; lia..].
  - rewrite !Z.min_r by lia. rewrite Z.sub_diag. simpl.
    rewrite (drop_ge l (Z.to_nat start)) by lia. by rewrite take_nil.
Qed.

Lemma listAudits_paged audits options :
  (1 ≤ default 1%Z (page options))%Z →
  (0 ≤ default 20%Z (limit options))%Z →
  (listAudits audits options).1
  = take (Z.to_nat (default 20%Z (limit options)))
      (drop (Z.to_nat ((default 1%Z (page options) - 1) * default 20%Z (limit options)))
         (listing audits options)).
Proof.
  intros Hpage Hlimit. unfold listAudits. cbn [fst]. fold (listing audits options).
  apply arraySlice_from; [nia | done].
Qed.

Lemma pages_tile {A} (l : list A) (size : nat) : ∀ n,
  flat_map (λ p, take size (drop (p * size) l)) (seq 0 n) = take (n * size) l.
Proof.
  induction n as [|n IH]; [done|].
  rewrite seq_S, List.flat_map_app, IH. simpl. rewrite app_nil_r.
  rewrite <- (take_drop (n * size) (take (size + n * size) l)) at 1.
  rewrite take_take, Nat.min_l by lia. f_equal.
  rewrite <- (Nat.add_comm (n * size)), <- take_drop_commute. done.
Qed.

Lemma flat_map_map {A B C} (f : B → list C) (g : A → B) l :
  flat_map f (map g l) = flat_map (λ x, f (g x)) l.
Proof. induction l as [|x l IH]; [done|]. simpl. by rewrite IH. Qed.

Lemma StronglySorted_after {A} (R : A → A → Prop) pre a post :
  StronglySorted R (pre ++ a :: post) → Forall (R a) post.
Proof.
  induction pre as [|x pre IH]; simpl; intros [? ?]%StronglySorted_inv; [done|].
  by apply IH.
Qed.

End StoreFacts.

(** ** More on the monitor *)

Module MonitorFacts.
Import JS Monitor PipelineFacts Worker Ticks.

#[local] Open Scope Z_scope.

(** *** The audit processor *)

Lemma removeFirst_length d l :
  d ∈ l → length l = S (length (removeFirst d l)).
Proof.
  induction l as [|x l IH]; [by intros ?%elem_of_nil|].
  simpl. case_decide; [done|]. intros [?|Hd]%elem_of_cons; [congruence|].
  simpl. by rewrite <- IH.
Qed.

Lemma removeFirst_submseteq d l : removeFirst d l ⊆+ l.
Proof.
  induction l as [|x l IH]; [done|]. simpl. case_decide.
  - by apply submseteq_cons.
  - by apply submseteq_skip.
Qed.

Lemma step_ok maxConcurrentAnalyses all p e :
  pool_ok maxConcurrentAnalyses all p →
  pool_ok maxConcurrentAnalyses
    (all ++ match e with Push d => [d] | _ => [] end)
    (step maxConcurrentAnalyses p e).
Proof.
  intros (Hcount & Hmax & Hall & Hin). destruct e as [d|stop|d]; simpl.
  - split; [done|]. split; [done|]. split; [|done]. simpl. by rewrite app_assoc, Hall.
  - rewrite app_nil_r. destruct (looping p); simpl; [|done].
    destruct (negb (negb stop || bool_decide (0 < length (Worker.auditQueue p)))%nat);
      [done|].
    destruct (bool_decide_reflect (length (Worker.auditQueue p) = 0%nat)); simpl; [done|].
    destruct (bool_decide_reflect (maxConcurrentAnalyses ≤ processingAudits p));
      simpl; [done|].
    destruct (Worker.auditQueue p) as [|deployment rest] eqn:Hq; [done|].
    split; [simpl; rewrite length_app; simpl; lia|].
    split; [simpl; lia|]. split; [simpl; by rewrite <- app_assoc|].
    simpl. by apply submseteq_app.
  - rewrite app_nil_r. case_decide as Hd; [|done].
    pose proof (removeFirst_length d _ Hd) as Hlen.
    split; [simpl; lia|]. split; [simpl; lia|]. split; [done|].
    simpl. etrans; [apply removeFirst_submseteq | done].
Qed.

Lemma run_ok maxConcurrentAnalyses events : ∀ p all,
  pool_ok maxConcurrentAnalyses all p →
  pool_ok maxConcurrentAnalyses (all ++ pushed events)
    (foldl (step maxConcurrentAnalyses) p events).
Proof.
  induction events as [|e events IH]; intros p all Hok.
  - simpl. by rewrite app_nil_r.
  - cbn [foldl]. apply (step_ok _ _ _ e) in Hok. apply IH in Hok.
    replace (all ++ pushed (e :: events))
      with ((all ++ match e with Push d => [d] | _ => [] end) ++ pushed events); [done|].
    rewrite <- app_assoc. f_equal. by destruct e.
Qed.

(** *** A pass of the monitor *)

Lemma found_refl lo hi r : found lo hi [] r r.
Proof. unfold found. rewrite app_nil_r. repeat split; (done || constructor || simpl; lia). Qed.

Lemma found_trans lo hi new1 new2 r1 r2 r3 :
  found lo hi new1 r1 r2 → found lo hi new2 r2 r3 → found lo hi (new1 ++ new2) r1 r3.
Proof.
  intros (Hq1 & Hb1 & Hf1 & Ha1 & Hs1 & Hr1 & Ht1) (Hq2 & Hb2 & Hf2 & Ha2 & Hs2 & Hr2 & Ht2).
  unfold found. rewrite Hq2, Hq1, app_assoc, length_app.
  repeat split; try congruence; [by apply Forall_app | lia].
Qed.

Lemma found_wider lo hi lo' hi' new r r' :
  lo' ≤ lo → hi ≤ hi' → found lo hi new r r' → found lo' hi' new r r'.
Proof.
  intros Hlo Hhi (Hq & Hb & Hrest). split; [done|]. split; [|done].
  eapply Forall_impl; [exact Hb|]. simpl. lia.
Qed.

Lemma scanTx_found client blockNum block r tx :
  ∃ new, found blockNum (blockNum + 1) new r (scanTx client blockNum block r tx).
Proof.
  unfold scanTx. destruct (to tx); [exists []; apply found_refl|].
  destruct (getTransactionReceipt client (hash tx)) as [receipt|];
    [|exists []; apply found_refl].
  destruct (contractAddress receipt) as [address|]; [|exists []; apply found_refl].
  eexists [_]. unfold found. simpl.
  repeat split; try done. repeat constructor; simpl; lia.
Qed.

Lemma scanTxs_found client blockNum block txs : ∀ r,
  ∃ new, found blockNum (blockNum + 1) new r (foldl (scanTx client blockNum block) r txs).
Proof.
  induction txs as [|tx txs IH]; intros r; [exists []; apply found_refl|].
  cbn [foldl]. destruct (scanTx_found client blockNum block r tx) as [new1 H1].
  destruct (IH (scanTx client blockNum block r tx)) as [new2 H2].
  exists (new1 ++ new2). by eapply found_trans.
Qed.

Lemma found_same lo hi new r r' r'' :
  state r'' = state r' → Monitor.auditQueue r'' = Monitor.auditQueue r' →
  found lo hi new r r' → found lo hi new r r''.
Proof. unfold found. by intros -> ->. Qed.

Lemma processBlock_found client t blockNum r :
  ∃ new, found blockNum (blockNum + 1) new r (processBlock client t blockNum r).
Proof.
  unfold processBlock. destruct (getBlock client blockNum) as [block|].
  - destruct (scanTxs_found client blockNum block (transactions block) r) as [new H].
    exists new. by eapply found_same; [| |exact H].
  - exists []. by eapply found_same; [| |apply found_refl].
Qed.

Lemma blocks_found client t remaining : ∀ blockNum r,
  ∃ new, found blockNum (blockNum + Z.of_nat remaining) new r
           (blocks client t remaining blockNum r).
Proof.
  induction remaining as [|remaining IH]; intros blockNum r;
    [exists []; apply found_refl|].
  cbn [blocks]. destruct (stopRequested r); [exists []; apply found_refl|].
  destruct (processBlock_found client t blockNum r) as [new1 H1].
  destruct (IH (blockNum + 1) (processBlock client t blockNum r)) as [new2 H2].
  exists (new1 ++ new2). eapply found_trans.
  - eapply found_wider; [| |exact H1]; lia.
  - eapply found_wider; [| |exact H2]; lia.
Qed.

Lemma processBlock_stop client t blockNum r :
  stopRequested (processBlock client t blockNum r)
  = stopRequested r || stopDuring t blockNum.
Proof.
  unfold processBlock. destruct (getBlock client blockNum) as [block|]; [|done].
  cbn [requestStop stopRequested]. f_equal. apply scanTxs_scanned.
Qed.

Lemma processBlock_scanned_readable client t blockNum r :
  scanned (processBlock client t blockNum r)
  = scanned r ++ (if readable client blockNum then [blockNum] else []).
Proof.
  unfold processBlock, readable. destruct (getBlock client blockNum) as [block|].
  - rewrite bool_decide_eq_true_2 by eauto. cbn [requestStop scanned]. f_equal.
    apply scanTxs_scanned.
  - rewrite bool_decide_eq_false_2 by (by intros [? ?]). cbn. by rewrite app_nil_r.
Qed.

(** Undisturbed, the loop goes through every block of its range that can
    be read, in ascending order. *)
Lemma blocks_undisturbed client t remaining : ∀ blockNum r,
  stopRequested r = false →
  (∀ b, stopDuring t b = false) →
  scanned (blocks client t remaining blockNum r)
    = scanned r ++ List.filter (readable client) (seqZ blockNum (Z.of_nat remaining)) ∧
  stopRequested (blocks client t remaining blockNum r) = false.
Proof.
  induction remaining as [|remaining IH]; intros blockNum r Hrun Hquiet.
  - simpl. by rewrite app_nil_r.
  - cbn [blocks]. rewrite Hrun.
    destruct (IH (blockNum + 1) (processBlock client t blockNum r)) as [IH1 IH2];
      [by rewrite processBlock_stop, Hrun, Hquiet | done |].
    split; [|done]. rewrite IH1, processBlock_scanned_readable.
    rewrite (seqZ_cons blockNum) by lia. cbn [List.filter].
    replace (Z.pred (Z.of_nat (S remaining))) with (Z.of_nat remaining) by lia.
    replace (Z.succ blockNum) with (blockNum + 1) by lia.
    rewrite <- app_assoc. by destruct (readable client blockNum).
Qed.

End MonitorFacts.

(** ** More on the fetcher *)

Module FetcherFacts.
Import JS Basescan BasescanFacts FetcherMore.

Lemma contractSourceOf_Some env address data contractSource :
  contractSourceOf env address data = Some contractSource →
  BasescanResponse.status data = js "1" ∧
  (∃ record others,
     BasescanResponse.result data = record :: others ∧
     BasescanContractResult.SourceCode record ≠ [] ∧
     ContractSource.sourceCode contractSource
       = normalizeSource env (BasescanContractResult.SourceCode record) ∧
     ContractSource.contractName contractSource
       = orElse (BasescanContractResult.ContractName record) (js "Unknown")) ∧
  ContractSource.contractAddress contractSource = address.
Proof.
  unfold contractSourceOf.
  destruct (BasescanResponse.result data) as [|record others]; [done|].
  case_bool_decide as Hstatus; [|done].
  destruct (BasescanContractResult.SourceCode record) as [|c src] eqn:Hsrc; [done|].
  cbn [negb truthy orb]. intros [= <-].
  split; [done|]. split; [|done]. exists record, others. by rewrite Hsrc.
Qed.

(** A fetch that returns no source has made one request. *)
Lemma returned_none fuel env address apiKey requested :
  getContractSource fuel env address apiKey = Returned None requested →
  requested = [address].
Proof.
  destruct fuel as [|fuel]; [done|]. rewrite getContractSource_step.
  destruct (request env address apiKey) as [data|]; [|by intros [= <-]].
  destruct (contractSourceOf env address data) as [contractSource|]; [|by intros [= <-]].
  destruct (implementationToFetch contractSource) as [impl|]; [|done].
  by destruct (getContractSource fuel env impl apiKey) as [|[implSource|] ?].
Qed.

(** *** The limiter under any interleaving *)

#[local] Open Scope Z_scope.

Lemma enter_count l now :
  0 ≤ requestsThisSecond l ≤ 5 → 0 ≤ requestsThisSecond (enter l now).1 ≤ 5.
Proof.
  intros Hl.
  destruct (enter_cases l now) as [[_ ->]|[(_ & ? & ->)|(_ & ? & ->)]]; simpl; lia.
Qed.

Lemma step_count s e :
  0 ≤ requestsThisSecond (limiter s) ≤ 5 →
  0 ≤ requestsThisSecond (limiter (step s e)) ≤ 5.
Proof.
  intros Hs. destruct e as [i now|i now]; simpl.
  - pose proof (enter_count (limiter s) now Hs) as He.
    by destruct (enter (limiter s) now) as [l []].
  - destruct (List.find (isCaller i) (sleeping s)) as [[? due]|]; [|done].
    case_bool_decide; [simpl; lia | done].
Qed.

Lemma find_isCaller i l x :
  List.find (isCaller i) l = Some x → x.1 = i ∧ x ∈ l.
Proof.
  intros H. apply List.find_some in H as [Hin Hi]. unfold isCaller in Hi.
  apply bool_decide_eq_true in Hi. split; [done|]. by apply list_elem_of_In.
Qed.

Lemma filter_others i (l : list (nat * Z)) :
  i ∉ l.*1 → List.filter (λ x, negb (isCaller i x)) l = l.
Proof.
  induction l as [|x l IH]; [done|]. simpl. intros [Hx Hl]%not_elem_of_cons.
  unfold isCaller at 1. rewrite bool_decide_eq_false_2 by done. simpl. by rewrite IH.
Qed.

(** Among sleepers with different callers, the timer of one removes it
    and no other. *)
Lemma remove_sleeper i (l : list (nat * Z)) x :
  NoDup l.*1 → List.find (isCaller i) l = Some x →
  l.*1 ≡ₚ i :: (List.filter (λ x, negb (isCaller i x)) l).*1.
Proof.
  induction l as [|y l IH]; [done|]. simpl. intros [Hy Hl]%NoDup_cons.
  unfold isCaller at 1 3. destruct (bool_decide_reflect (y.1 = i)) as [Heq|Hne]; simpl.
  - intros _. rewrite Heq. rewrite filter_others; [done|]. by rewrite <- Heq.
  - intros Hfind. rewrite (IH Hl Hfind) at 1. apply perm_swap.
Qed.

Lemma step_callers s e done_ :
  NoDup (done_ ++ callers [e]) →
  (passed s).*1 ++ (sleeping s).*1 ≡ₚ done_ →
  (passed (step s e)).*1 ++ (sleeping (step s e)).*1 ≡ₚ done_ ++ callers [e].
Proof.
  intros Hnodup Hperm. destruct e as [i now|i now]; simpl.
  - destruct (enter (limiter s) now) as [l [|waitTime]]; simpl.
    + rewrite fmap_app. simpl. rewrite <- Hperm.
      rewrite <- !app_assoc. f_equiv. apply Permutation_app_comm.
    + rewrite fmap_app. simpl. by rewrite <- Hperm, <- app_assoc.
  - rewrite app_nil_r in *.
    destruct (List.find (isCaller i) (sleeping s)) as [[i' due]|] eqn:Hfind; [|done].
    case_bool_decide; [|done]. simpl. rewrite fmap_app. simpl.
    rewrite <- Hperm. rewrite <- app_assoc. f_equiv.
    assert (NoDup (sleeping s).*1) as Hsleep.
    { rewrite <- Hperm in Hnodup. by apply NoDup_app in Hnodup as (_ & _ & ?). }
    symmetry. exact (remove_sleeper i (sleeping s) _ Hsleep Hfind).
Qed.

Lemma schedule_callers events : ∀ s done_,
  NoDup (done_ ++ callers events) →
  (passed s).*1 ++ (sleeping s).*1 ≡ₚ done_ →
  (passed (schedule s events)).*1 ++ (sleeping (schedule s events)).*1
    ≡ₚ done_ ++ callers events.
Proof.
  induction events as [|e events IH]; intros s done_ Hnodup Hperm.
  - simpl. by rewrite app_nil_r.
  - unfold schedule. cbn [foldl]. fold (schedule (step s e) events).
    replace (done_ ++ callers (e :: events))
      with ((done_ ++ callers [e]) ++ callers events)
      by (rewrite <- app_assoc; f_equal; by destruct e).
    apply IH.
    + rewrite <- app_assoc. replace (callers [e] ++ callers events)
        with (callers (e :: events)) by (by destruct e). done.
    + apply step_callers; [|done].
      replace (done_ ++ callers (e :: events))
        with ((done_ ++ callers [e]) ++ callers events) in Hnodup
        by (rewrite <- app_assoc; f_equal; by destruct e).
      by apply NoDup_app in Hnodup as (? & _ & _).
Qed.

(** *** A burst *)

Lemma step_call_fresh s i now :
  1000 ≤ now - lastRequestTime (limiter s) →
  step s (Call i now) = mkLoop (mkLimiter now 1) (sleeping s) (passed s ++ [(i, now)]).
Proof.
  intros Hnow. unfold step.
  by destruct (enter_cases (limiter s) now) as [[_ ->]|[(? & _ & _)|(? & _ & _)]]; [|lia..].
Qed.

Lemma step_call_room s i now :
  now - lastRequestTime (limiter s) < 1000 → requestsThisSecond (limiter s) < 5 →
  step s (Call i now)
  = mkLoop (mkLimiter (lastRequestTime (limiter s)) (requestsThisSecond (limiter s) + 1))
      (sleeping s) (passed s ++ [(i, now)]).
Proof.
  intros Hnow Hcount. unfold step.
  by destruct (enter_cases (limiter s) now) as [[? _]|[(_ & _ & ->)|(_ & ? & _)]]; [lia| |lia].
Qed.

Lemma burst_five T :
  1000 ≤ T →
  schedule (mkLoop initialLimiter [] []) (burst 1 5 T)
  = mkLoop (mkLimiter T 5) [] ((λ j, (j, T)) <$> seq 1 5).
Proof.
  intros HT. unfold schedule. cbn [burst foldl].
  rewrite (step_call_fresh (mkLoop initialLimiter [] [])) by (cbn; lia).
  cbn [sleeping passed app].
  do 4 (match goal with
        | |- context [step (mkLoop ?l ?sl ?ps) (Call ?i ?t)] =>
            rewrite (step_call_room (mkLoop l sl ps) i t) by (cbn; lia)
        end;
        cbn [sleeping passed limiter lastRequestTime requestsThisSecond app]).
  done.
Qed.

Lemma burst_sleeps T n : ∀ i s,
  limiter s = mkLimiter T 5 →
  schedule s (burst i n T)
  = mkLoop (mkLimiter T 5) (sleeping s ++ ((λ j, (j, T + 1000)) <$> seq i n)) (passed s).
Proof.
  induction n as [|n IH]; intros i s Hl.
  - simpl. rewrite app_nil_r. by destruct s; simpl in *; subst.
  - unfold schedule. cbn [burst foldl]. fold (schedule (step s (Call i T)) (burst (S i) n T)).
    assert (step s (Call i T)
            = mkLoop (mkLimiter T 5) (sleeping s ++ [(i, T + 1000)]) (passed s)) as ->.
    { unfold step. rewrite Hl.
      destruct (enter_cases (mkLimiter T 5) T) as [[? _]|[(_ & ? & _)|(_ & _ & ->)]];
        cbn [lastRequestTime requestsThisSecond] in *; [lia..|].
      by replace (T + (1000 - (T - T))) with (T + 1000) by lia. }
    rewrite IH by done. simpl. by rewrite <- app_assoc.
Qed.

Lemma timers_pass at_ due n : ∀ i l ps,
  due ≤ at_ → (0 < n)%nat →
  schedule (mkLoop l ((λ j, (j, due)) <$> seq i n) ps) (timers i n at_)
  = mkLoop (mkLimiter at_ 1) [] (ps ++ ((λ j, (j, at_)) <$> seq i n)).
Proof.
  induction n as [|n IH]; intros i l ps Hdue Hn; [lia|].
  unfold schedule, timers. cbn [seq fmap list_fmap foldl].
  assert (step (mkLoop l ((i, due) :: ((λ j, (j, due)) <$> seq (S i) n)) ps) (Timer i at_)
          = mkLoop (mkLimiter at_ 1) ((λ j, (j, due)) <$> seq (S i) n) (ps ++ [(i, at_)]))
    as ->.
  { unfold step. cbn [sleeping List.find]. unfold isCaller at 1. cbn [fst].
    rewrite bool_decide_eq_true_2 by done.
    rewrite bool_decide_eq_true_2 by done. cbn [limiter passed List.filter].
    unfold isCaller at 1. cbn [fst]. rewrite bool_decide_eq_true_2 by done. cbn [negb].
    rewrite filter_others; [done|].
    rewrite <- list_fmap_compose. intros (j & -> & Hj%elem_of_seq)%list_elem_of_fmap.
    simpl in Hj. lia. }
  destruct n as [|n]; [done|].
  fold (timers (S i) (S n) at_). fold (schedule (mkLoop (mkLimiter at_ 1)
    ((λ j, (j, due)) <$> seq (S i) (S n)) (ps ++ [(i, at_)])) (timers (S i) (S n) at_)).
  rewrite IH by (done || lia). by rewrite <- app_assoc.
Qed.

End FetcherFacts.

(** ** Addresses *)

Module AddressFacts.
Import JS.

Lemma re_count_spec p k m : ∀ n s e,
  re_count m p k n s = Some e ↔
  ∃ ds rest, s = ds ++ rest ∧ length ds = m ∧
             Forall (λ c, p c = true) ds ∧ k (m + n) rest = Some e.
Proof.
  induction m as [|m IH]; intros n s e; simpl.
  - split.
    + intros H. by exists [], s.
    + intros (ds & rest & -> & Hlen & _ & H). by destruct ds.
  - unfold re_char. destruct s as [|c s].
    + split; [done|]. intros (ds & rest & Hs & Hlen & _). by destruct ds.
    + destruct (p c) eqn:Hc.
      * rewrite IH. split.
        -- intros (ds & rest & -> & Hlen & Hall & H).
           exists (c :: ds), rest. simpl. split; [done|]. split; [lia|].
           split; [by constructor|]. by replace (S (m + n)) with (m + S n) by lia.
        -- intros (ds & rest & Hs & Hlen & Hall & H).
           destruct ds as [|c' ds]; [done|]. simpl in Hs, Hlen.
           injection Hs as <- ->. apply Forall_cons in Hall as [_ Hall].
           exists ds, rest. split; [done|]. split; [lia|]. split; [done|].
           by replace (m + S n) with (S (m + n)) by lia.
      * split; [done|]. intros (ds & rest & Hs & Hlen & Hall & _).
        destruct ds as [|c' ds]; [done|]. simpl in Hs.
        injection Hs as <- ->. apply Forall_cons in Hall as [Hc' _]. congruence.
Qed.

(** A regular expression that begins with [^] matches at offset 0 or
    nowhere. *)
Lemma test_from_anchored (r : re) s :
  test_from (λ pos s, re_seq (re_bol pos) r re_done 0 s) 0 s
  = bool_decide (is_Some (r re_done 0 s)).
Proof.
  assert (∀ s pos, test_from (λ pos s, re_seq (re_bol pos) r re_done 0 s) (S pos) s = false)
    as Hlater.
  { clear s. induction s as [|c s IH]; intros pos; simpl; [done|]. apply IH. }
  destruct s as [|c s]; simpl; unfold re_seq, re_bol; simpl.
  - destruct (r re_done 0 []); [by rewrite bool_decide_eq_true_2|].
    rewrite bool_decide_eq_false_2; [done|]. by intros [? ?].
  - destruct (r re_done 0 (c :: s)); [by rewrite bool_decide_eq_true_2|].
    rewrite Hlater. rewrite bool_decide_eq_false_2; [done|]. by intros [? ?].
Qed.

Lemma validAddress_wellFormed address :
  Api.validAddress address = true ↔ AuditMore.wellFormed address.
Proof.
  unfold Api.validAddress, Api.addressRegex, AuditMore.wellFormed.
  rewrite (test_from_anchored
             (re_seq (re_char (N.eqb 48))
                (re_seq (re_char Api.is_x) (re_seq (re_count 40 Api.is_hex) re_eol)))).
  rewrite bool_decide_eq_true. unfold re_seq, re_char at 1 2.
  destruct address as [|c0 [|x s]].
  - split; [by intros [? ?]|]. by intros (? & ? & ? & _).
  - split; [destruct (48 =? c0)%N; by intros [? ?]|]. by intros (? & ? & ? & _).
  - destruct (48 =? c0)%N eqn:H0.
    2: { split; [by intros [? ?]|]. intros (? & ? & [= -> -> ->] & _). done. }
    apply N.eqb_eq in H0 as <-.
    destruct (Api.is_x x) eqn:Hx.
    2: { split; [by intros [? ?]|]. intros (? & ? & [= -> ->] & ? & _). congruence. }
    split.
    + intros [e He]. apply re_count_spec in He as (ds & rest & -> & Hlen & Hall & He).
      unfold re_eol in He. destruct rest; [|done].
      exists x, ds. by rewrite app_nil_r.
    + intros (x' & digits & [= <- <-] & _ & Hlen & Hall).
      exists 42. apply re_count_spec. exists s, [].
      by rewrite app_nil_r.
Qed.

Lemma drop_while_none p s : Forall (λ c, p c = false) s → drop_while p s = s.
Proof. destruct 1 as [|c s Hc _]; simpl; [done|]. by rewrite Hc. Qed.

Lemma trim_none s : Forall (λ c, is_space c = false) s → trim s = s.
Proof.
  intros Hs. unfold trim. rewrite (drop_while_none _ s Hs).
  rewrite drop_while_none; [by rewrite reverse_involutive|].
  by apply Forall_reverse.
Qed.

Lemma is_hex_not_space c : Dashboard.is_hex c = true → is_space c = false.
Proof.
  unfold Dashboard.is_hex, is_space.
  rewrite !orb_true_iff, !andb_true_iff, !N.leb_le.
  rewrite !orb_false_iff, !andb_false_iff, !N.leb_gt, !N.eqb_neq. lia.
Qed.

Lemma is_hex_lower c : Dashboard.is_hex c = true → Api.is_hex (lower_char c) = true.
Proof.
  unfold Dashboard.is_hex, Api.is_hex, lower_char.
  rewrite !orb_true_iff, !andb_true_iff, !N.leb_le. intros H.
  destruct ((65 <=? c)%N && (c <=? 90)%N) eqn:Hupper.
  - apply andb_true_iff in Hupper. rewrite !N.leb_le in Hupper. lia.
  - lia.
Qed.

(** What the dashboard's regular expression accepts. *)
Lemma dashboard_accepts address :
  test_from (λ pos s, Dashboard.addressRegex pos re_done 0 s) 0 address = true →
  ∃ digits, address = 48%N :: 120%N :: digits ∧ length digits = 40 ∧
            Forall (λ c, Dashboard.is_hex c = true) digits.
Proof.
  unfold Dashboard.addressRegex.
  rewrite (test_from_anchored
             (re_seq (re_lit (js "0x")) (re_seq (re_count 40 Dashboard.is_hex) re_eol))).
  rewrite bool_decide_eq_true. unfold re_seq. change (js "0x") with [48%N; 120%N].
  cbn [re_lit]. unfold re_char at 1 2.
  destruct address as [|c0 [|x s]]; [by intros [? ?]|..].
  - destruct (48 =? c0)%N; by intros [? ?].
  - destruct (48 =? c0)%N eqn:H0; [|by intros [? ?]]. apply N.eqb_eq in H0 as <-.
    destruct (120 =? x)%N eqn:Hx; [|by intros [? ?]]. apply N.eqb_eq in Hx as <-.
    intros [e He]. apply re_count_spec in He as (ds & rest & -> & Hlen & Hall & He).
    unfold re_eol in He. destruct rest; [|done].
    exists ds. by rewrite app_nil_r.
Qed.

End AddressFacts.

(** ** The audit of one contract *)

Module AuditFacts.
Import JS Monitor AuditMore AddressFacts.

Lemma auditNow_not_bad fuel env o rt cfg addrClean w w' error :
  Api.auditNow fuel env o rt cfg addrClean w ≠ Some (w', Api.BadRequest error).
Proof.
  unfold Api.auditNow.
  by destruct (Basescan.getContractSource _ _ _ _) as [|[source|] ?].
Qed.

(** The handler past its two checks. *)
Lemma postAudit_valid fuel env o rt cfg address w :
  address ≠ [] → wellFormed (toLowerCase (trim address)) →
  Api.postAudit fuel env o rt cfg (Some address) w =
  match Storage.getAuditByAddress (store w) (toLowerCase (trim address)) with
  | Some existing =>
      if AuditReport.sourceAvailable existing then Some (w, Api.Cached existing)
      else Api.auditNow fuel env o rt cfg (toLowerCase (trim address)) w
  | None => Api.auditNow fuel env o rt cfg (toLowerCase (trim address)) w
  end.
Proof.
  intros Hne Hwell%validAddress_wellFormed. unfold Api.postAudit.
  destruct address; [done|]. cbn [truthy negb]. by rewrite Hwell.
Qed.

Lemma bad_request_cases fuel env o rt cfg address w w' error :
  Api.postAudit fuel env o rt cfg (Some address) w = Some (w', Api.BadRequest error) →
  w' = w ∧ (address = [] ∨ ¬ wellFormed (toLowerCase (trim address))).
Proof.
  destruct address as [|c address]; [intros [= <-]; auto|].
  destruct (Api.validAddress (toLowerCase (trim (c :: address)))) eqn:Hvalid.
  - rewrite postAudit_valid by (done || by apply validAddress_wellFormed).
    intros H. exfalso. revert H.
    destruct (Storage.getAuditByAddress _ _) as [existing|]; [|apply auditNow_not_bad].
    destruct (AuditReport.sourceAvailable existing); [done|apply auditNow_not_bad].
  - unfold Api.postAudit. cbn [truthy negb]. rewrite Hvalid. cbn [negb].
    intros [= <-]. split; [done|]. right. rewrite <- validAddress_wellFormed. congruence.
Qed.


End AuditFacts.

(** ** The prompt *)

Module PromptFacts.
Import JS Prompts.

Lemma getSubstitution_plain matched before after replacement :
  DOLLAR ∉ replacement → getSubstitution matched before after replacement = replacement.
Proof.
  induction replacement as [|c rest IH]; [done|].
  intros [Hc Hrest]%not_elem_of_cons. cbn [getSubstitution].
  destruct (c =? DOLLAR)%N eqn:Heq; [by apply N.eqb_eq in Heq|].
  by rewrite IH.
Qed.

Lemma startsWith_refl_app p s : startsWith (p ++ s) p = true.
Proof. induction p as [|c p IH]; simpl; [by destruct s|]. by rewrite N.eqb_refl. Qed.

Lemma indexOf_first before c p after :
  c ∉ before →
  indexOf (before ++ (c :: p) ++ after) (c :: p) = Some (length before).
Proof.
  induction before as [|x before IH]; intros Hc.
  - pose proof (startsWith_refl_app (c :: p) after) as Hhere.
    cbn [app length] in *. cbn [indexOf]. by rewrite Hhere.
  - apply not_elem_of_cons in Hc as [Hx Hc]. rewrite <- app_comm_cons.
    cbn [length indexOf startsWith].
    rewrite (proj2 (N.eqb_neq c x)) by done. cbn [andb]. by rewrite IH.
Qed.

(** The replacement of a placeholder that nothing before it could be
    taken for, by a text without dollar. *)
Lemma replace_first before c p after r :
  c ∉ before → DOLLAR ∉ r →
  replace (before ++ (c :: p) ++ after) (c :: p) r = before ++ r ++ after.
Proof.
  intros Hc Hr. unfold replace. rewrite indexOf_first by done. cbn zeta.
  rewrite getSubstitution_plain by done.
  rewrite take_app_length. rewrite drop_app_add, drop_app_length. done.
Qed.

Lemma template_parts :
  SOLIDITY_ANALYSIS_PROMPT
  = text ["You are a JSON-only smart contract security scanner. Analyze this Solidity contract for vulnerabilities.";
          EmptyString; "Contract Name: "]
    ++ js "{contractName}"
    ++ text [EmptyString; "Compiler Version: "]
    ++ js "{compilerVersion}"
    ++ text [EmptyString; EmptyString; "Source Code:"; EmptyString]
    ++ js "{sourceCode}"
    ++ afterSource.
Proof. vm_compute. reflexivity. Qed.

End PromptFacts.

(** * The claims *)

Section claims_chunker.
Import JS JSFacts Analyzer AnalyzerFacts.

(** C3, as stated, fails: a source of one line of 20,000 characters is
    returned as one chunk of 20,000 characters; a source of short lines, a
    comment and two contracts, has a first chunk of 17,018 characters, the
    preamble, two newlines and the first contract; and a 20,000-character
    source with three contract declarations, the last one over the limit,
    is returned as four chunks. *)
Lemma chunk_limit_counterexample :
  (MAX_SOURCE_LENGTH < length oneLongLine ∧
   ¬ Forall (fits MAX_SOURCE_LENGTH) (analyzedChunks oneLongLine)) ∧
  (MAX_SOURCE_LENGTH < length longPreamble ∧
   line_bounded MAX_SOURCE_LENGTH longPreamble ∧
   N.of_nat <$> (length <$> analyzedChunks longPreamble) = [17018; 8013]%N ∧
   ¬ Forall (fits MAX_SOURCE_LENGTH) (analyzedChunks longPreamble)) ∧
  (N.of_nat (length threeContractsOneLarge) = 20000%N ∧
   length (contractMatches threeContractsOneLarge) = 3 ∧
   length (analyzedChunks threeContractsOneLarge) = 4).
Proof.
  split; [split|split; [split; [|split; [|split]]|]].
  - apply Nat.ltb_lt. vm_compute. reflexivity.
  - apply (bool_decide_eq_false_1 _). vm_compute. reflexivity.
  - apply Nat.ltb_lt. vm_compute. reflexivity.
  - apply (bool_decide_unpack _). vm_compute. exact I.
  - vm_compute. reflexivity.
  - apply (bool_decide_eq_false_1 _). vm_compute. reflexivity.
  - vm_compute. done.
Qed.

(** C3, amended: for every source text longer than 16,000 characters none
    of whose lines is longer than 16,000 characters, every chunk after the
    first is at most 16,000 characters long, and the first chunk is at most
    16,000 characters plus what prepending the preamble adds (the trimmed
    preamble and two newlines, nothing when no preamble is prepended). When
    such a source has exactly three declaration boundaries and each of its
    three units is at most 16,000 characters long, the chunks are the three
    units, the first one after the trimmed preamble and two newlines when
    the preamble is not blank: three chunks, the first beginning with the
    preamble. *)
Theorem chunk_limit (src : jsstring) :
  MAX_SOURCE_LENGTH < length src →
  line_bounded MAX_SOURCE_LENGTH src →
  Forall (fits MAX_SOURCE_LENGTH) (drop 1 (analyzedChunks src)) ∧
  (∀ c0, head (analyzedChunks src) = Some c0 →
     length c0 ≤ MAX_SOURCE_LENGTH + preambleOverhead src) ∧
  (∀ m0 m1 m2,
     contractMatches src = [m0; m1; m2] →
     Forall (fits MAX_SOURCE_LENGTH) (units src [m0; m1; m2]) →
     ∃ c0,
       analyzedChunks src = [c0; slice src m1 m2; slice src m2 (length src)] ∧
       c0 = match trim (slice src 0 m0) with
            | [] => slice src m0 m1
            | p => p ++ [LF; LF] ++ slice src m0 m1
            end ∧
       startsWith c0 (trim (slice src 0 m0)) = true).
Proof.
  intros Hlong Hlines. unfold analyzedChunks.
  rewrite bool_decide_eq_false_2 by lia.
  destruct (chunkSourceCode_fits src Hlines) as [Htail Hhead].
  split; [done|]. split; [done|].
  intros m0 m1 m2 Hm Hu.
  pose proof (unitChunks_units _ _ Hu) as Hunits. cbn [units] in Hunits.
  rewrite (chunkSourceCode_multi _ _ _ _ _ _ Hm Hunits).
  unfold preambleOf. rewrite Hm. eexists. split; [done|]. split; [done|].
  destruct (trim (slice src 0 m0)) as [|c p] eqn:Hp;
    [by destruct (slice src m0 m1)|].
  apply startsWith_app.
Qed.

Lemma chunk_limit_witness :
  MAX_SOURCE_LENGTH < length threeContracts ∧
  line_bounded MAX_SOURCE_LENGTH threeContracts ∧
  N.of_nat (length threeContracts) = 20000%N ∧
  contractMatches threeContracts = [N.to_nat 24; N.to_nat 6037; N.to_nat 12050] ∧
  N.of_nat <$> (length <$> analyzedChunks threeContracts) = [6038; 6013; 7950]%N ∧
  Forall (fits MAX_SOURCE_LENGTH) (analyzedChunks threeContracts) ∧
  startsWith (default [] (head (analyzedChunks threeContracts)))
    (js "pragma solidity ^0.8.0;") = true.
Proof.
  assert (MAX_SOURCE_LENGTH < length threeContracts) as Hlong
    by (apply Nat.ltb_lt; vm_compute; reflexivity).
  assert (line_bounded MAX_SOURCE_LENGTH threeContracts) as Hlines
    by (apply (bool_decide_unpack _); vm_compute; exact I).
  assert (contractMatches threeContracts
          = [N.to_nat 24; N.to_nat 6037; N.to_nat 12050]) as Hm
    by (vm_compute; reflexivity).
  assert (Forall (fits MAX_SOURCE_LENGTH)
            (units threeContracts [N.to_nat 24; N.to_nat 6037; N.to_nat 12050])) as Hu
    by (apply (bool_decide_unpack _); vm_compute; exact I).
  destruct (chunk_limit threeContracts Hlong Hlines) as (Htail & Hhead & Hthree).
  destruct (Hthree _ _ _ Hm Hu) as (c0 & Hchunks & Hc0 & Hstart).
  split; [done|]. split; [done|].
  split; [vm_compute; reflexivity|]. split; [done|].
  split; [vm_compute; reflexivity|].
  split; [apply (bool_decide_unpack _); vm_compute; exact I|].
  vm_compute; reflexivity.
Defined.

(** C6, as stated, fails: for a source of a blank line and two lines of
    10,000 characters, which has no declaration and so no preamble, the
    chunks are the two long lines: their concatenation is two newlines
    short of the source, and the blank line is not among their lines. *)
Lemma chunk_coverage_counterexample :
  contractMatches blankThenTwoLines = [] ∧
  concat (analyzedChunks blankThenTwoLines) ≠ blankThenTwoLines ∧
  flat_map split_nl (analyzedChunks blankThenTwoLines) ≠ split_nl blankThenTwoLines.
Proof.
  split; [vm_compute; reflexivity|]. split.
  - intros H. apply (f_equal (λ l, N.of_nat (length l))) in H.
    vm_compute in H. discriminate.
  - intros H. apply (f_equal length) in H. vm_compute in H. discriminate.
Qed.

(** C6, amended: for every source text, the non-empty lines of the chunks,
    taken chunk after chunk, are exactly the non-empty lines of the source
    text, in the same order, where for a source over the limit with two
    declaration boundaries or more the text before the first boundary is
    read in its trimmed form (it is moved into the first chunk, not
    duplicated). Newlines at chunk boundaries and empty lines are not kept. *)
Theorem chunk_coverage (src : jsstring) :
  chunk_lines (analyzedChunks src) =
  nonempty_lines
    (if bool_decide (length src ≤ MAX_SOURCE_LENGTH) then src else trimmedSource src).
Proof.
  unfold analyzedChunks.
  destruct (bool_decide_reflect (length src ≤ MAX_SOURCE_LENGTH)).
  - apply chunk_lines_one.
  - apply chunkSourceCode_lines.
Qed.

End claims_chunker.

Section claims_fetcher.
Import JS Basescan BasescanFacts.

(** C4, as stated, fails: for the proxy A whose implementation B is itself
    a proxy of C, the fetch of A has not returned with one level of
    implementation resolution; it returns after two, having requested A, B
    and C, with B resolved as a proxy in turn. For two proxies that name
    each other the fetch never returns, whatever the depth allowed. *)
Lemma proxy_depth_counterexample :
  (getContractSource 2 twoHops (js "0xa") [] = OutOfFuel ∧
   ∃ source,
     getContractSource 3 twoHops (js "0xa") []
       = Returned (Some source) [js "0xa"; js "0xb"; js "0xc"] ∧
     ContractSource.contractName source = js "A (Proxy -> B (Proxy -> C))") ∧
  (∀ fuel, getContractSource fuel cycle (js "0xa") [] = OutOfFuel).
Proof.
  split.
  - split; [by vm_compute|]. eexists. split; [by vm_compute|]. by vm_compute.
  - intros fuel.
    apply (getContractSource_diverges cycle []
             (λ address, address = js "0xa" ∨ address = js "0xb")); [|by left].
    intros address [->| ->]; eexists; (split; [by vm_compute|]); auto.
Qed.

(** C4, amended: proxy resolution follows the chain of implementation
    records, an implementation that is itself a proxy being resolved in
    turn. When [d] proxies are followed from an address before a record that
    is not one, the fetch returns after exactly [d] levels of implementation
    resolution (not before) and one request for each of the [d + 1] records. *)
Theorem proxy_depth (env : Env) (apiKey address : jsstring) (d : nat) :
  proxyChain env apiKey address d →
  (∀ fuel, (fuel ≤ d)%nat → getContractSource fuel env address apiKey = OutOfFuel) ∧
  (∀ fuel, (d < fuel)%nat → ∃ source requested,
     getContractSource fuel env address apiKey = Returned source requested ∧
     length requested = S d).
Proof.
  induction 1 as [address Hend|address impl d Hhop Hchain [IH1 IH2]].
  - split.
    + intros fuel Hfuel. by replace fuel with 0%nat by lia.
    + intros [|fuel] Hfuel; [lia|].
      destruct (getContractSource_end fuel env address apiKey Hend) as [source ->].
      eauto.
  - split.
    + intros [|fuel] Hfuel; [done|].
      destruct (getContractSource_hop fuel _ _ _ _ Hhop)
        as [[-> _]|(? & ? & ? & _ & Himpl)]; [done|].
      rewrite IH1 in Himpl by lia. done.
    + intros [|fuel] Hfuel; [lia|].
      destruct (IH2 fuel) as (implSource & requested & Himpl & Hlen); [lia|].
      destruct (getContractSource_hop fuel _ _ _ _ Hhop)
        as [[_ Hout]|(source & ? & ? & -> & Himpl')]; [congruence|].
      eexists _, _. split; [done|]. simpl. congruence.
Qed.

Lemma proxy_depth_witness :
  proxyChain twoHops [] (js "0xa") 2 ∧
  (∀ fuel, (fuel ≤ 2)%nat → getContractSource fuel twoHops (js "0xa") [] = OutOfFuel) ∧
  (∀ fuel, (2 < fuel)%nat → ∃ source requested,
     getContractSource fuel twoHops (js "0xa") [] = Returned source requested ∧
     length requested = 3).
Proof.
  assert (proxyChain twoHops [] (js "0xa") 2) as Hchain.
  { apply (chain_hop _ _ _ (js "0xb")); [vm_compute; reflexivity|].
    apply (chain_hop _ _ _ (js "0xc")); [vm_compute; reflexivity|].
    apply chain_end. vm_compute; reflexivity. }
  split; [exact Hchain|]. exact (proxy_depth twoHops [] (js "0xa") 2 Hchain).
Defined.

(** C8: when the record fetched for an address is that of a verified
    contract flagged as a proxy, with an implementation address whose fetch
    returns a source, the source returned for the address has, as its text,
    the text of the implementation's source after two comment lines, the
    first naming the address of the proxy and the second that of the
    implementation, and a blank line; its name is the name of the proxy,
    then [ (Proxy -> ], the name of the implementation's source and [)]. *)
Theorem proxy_splice (fuel : nat) (env : Env) (apiKey address impl : jsstring)
    (data : BasescanResponse.t) (record : BasescanContractResult.t)
    (others : list BasescanContractResult.t)
    (implSource : ContractSource.t) (requested : list jsstring) :
  request env address apiKey = Some data →
  BasescanResponse.status data = js "1" →
  BasescanResponse.result data = record :: others →
  BasescanContractResult.SourceCode record ≠ [] →
  BasescanContractResult.Proxy record = js "1" →
  BasescanContractResult.Implementation record = impl →
  impl ≠ [] →
  getContractSource fuel env impl apiKey = Returned (Some implSource) requested →
  ∃ source,
    getContractSource (S fuel) env address apiKey
      = Returned (Some source) (address :: requested) ∧
    ContractSource.sourceCode source =
      js "// PROXY CONTRACT: " ++ address ++ [LF] ++
      js "// IMPLEMENTATION: " ++ impl ++ [LF] ++
      [LF] ++ ContractSource.sourceCode implSource ∧
    ContractSource.contractName source =
      orElse (BasescanContractResult.ContractName record) (js "Unknown")
        ++ js " (Proxy -> " ++ ContractSource.contractName implSource ++ js ")".
Proof.
  intros Hreq Hstatus Hresult Hsrc Hproxy Himpl Hne Hfetch.
  rewrite getContractSource_step, Hreq.
  unfold contractSourceOf. rewrite Hresult, Hstatus.
  rewrite bool_decide_eq_true_2 by done.
  destruct (BasescanContractResult.SourceCode record) as [|c src] eqn:Hs; [done|].
  cbn [negb truthy orb].
  unfold implementationToFetch. cbn [ContractSource.isProxy ContractSource.implementationAddress].
  rewrite Hproxy, Himpl. rewrite bool_decide_eq_true_2 by done.
  destruct impl as [|i impl']; [done|]. cbn [truthy].
  rewrite Hfetch. eexists. split; [reflexivity|].
  split; [|reflexivity].
  cbn [withImplementation ContractSource.sourceCode].
  by rewrite <- !app_assoc.
Qed.

Lemma proxy_splice_witness :
  ∃ source,
    getContractSource 2 fooBar (js "0xf00") []
      = Returned (Some source) [js "0xf00"; js "0xABC"] ∧
    ContractSource.sourceCode source =
      js "// PROXY CONTRACT: 0xf00" ++ [LF] ++
      js "// IMPLEMENTATION: 0xABC" ++ [LF] ++
      [LF] ++ js "contract Bar {}" ∧
    ContractSource.contractName source = js "Foo (Proxy -> Bar)".
Proof.
  edestruct (proxy_splice 1 fooBar [] (js "0xf00") (js "0xABC"))
    as (source & Hfetch & Hcode & Hname);
    [vm_compute; reflexivity | vm_compute; reflexivity | vm_compute; reflexivity
    | by vm_compute | vm_compute; reflexivity | vm_compute; reflexivity
    | by vm_compute | vm_compute; reflexivity |].
  exists source. split; [exact Hfetch|].
  rewrite Hcode, Hname. split; vm_compute; reflexivity.
Defined.

#[local] Open Scope Z_scope.

(** C9, as stated, fails: of ten calls made one after the other, one at
    5000 ms, four at 5999 ms and five at 6000 ms, none is delayed, and nine
    are let through within the second that starts at 5999 ms. *)
Lemma rate_limit_counterexample :
  snd <$> sequentialCalls initialLimiter 5000 tenCalls
    = [5000; 5999; 5999; 5999; 5999; 6000; 6000; 6000; 6000; 6000] ∧
  letThroughWithin 5999 (sequentialCalls initialLimiter 5000 tenCalls) = 9 ∧
  ¬ letThroughWithin 5999 (sequentialCalls initialLimiter 5000 tenCalls) ≤ 5.
Proof. split; [|split]; by vm_compute. Qed.

(** C9, amended: the limiter is one counter over fixed windows, shared by
    all callers. For calls made one after the other, every call is let
    through, inside the window it is counted in, which is one second long
    and starts when the counter was last reset, and no window counts more
    than 5 calls. A call is let through no later than one second, and the
    lateness of its timer, after it is made: none is dropped. Given 7 calls
    made at the same instant, the first five are let through at that
    instant, and calls 6 and 7 when their timers fire one second later, in
    the next window; no caller is left waiting. *)
Theorem rate_limit (calls : list (Z * Z)) (clock T : Z) :
  Forall (λ c : Z * Z, 0 ≤ c.1 ∧ 0 ≤ c.2) calls →
  0 ≤ clock →
  1000 ≤ T →
  (length (sequentialCalls initialLimiter clock calls) = length calls ∧
   Forall (λ x : Z * Z, x.1 ≤ x.2 < x.1 + 1000)
     (sequentialCalls initialLimiter clock calls) ∧
   ∀ W, countedIn W (sequentialCalls initialLimiter clock calls) ≤ 5) ∧
  (∀ l now late, lastRequestTime l ≤ now → 0 ≤ late →
     now ≤ (rateLimitWait l now late).2 ≤ now + 1000 + late) ∧
  schedule (mkLoop initialLimiter [] [])
    (burst 1 7 T ++ [Timer 6 (T + 1000); Timer 7 (T + 1000)])
  = mkLoop (mkLimiter (T + 1000) 1) []
      [(1%nat, T); (2%nat, T); (3%nat, T); (4%nat, T); (5%nat, T);
       (6%nat, T + 1000); (7%nat, T + 1000)].
Proof.
  intros Hcalls Hclock HT. split; [|split].
  - split; [apply sequentialCalls_length|].
    destruct (sequentialCalls_windows calls initialLimiter clock) as [Ha Hb];
      [simpl; lia | simpl; lia | done |].
    split.
    + eapply Forall_impl; [exact Ha|]. simpl. lia.
    + intros W. specialize (Hb W). simpl in Hb. case_bool_decide; lia.
  - apply rateLimitWait_delay.
  - unfold schedule. cbn [burst app foldl]. unfold initialLimiter.
    do 9 run_step. repeat f_equal; lia.
Qed.

Lemma rate_limit_witness :
  Forall (λ c : Z * Z, 0 ≤ c.1 ∧ 0 ≤ c.2) tenCalls ∧
  (∀ W, countedIn W (sequentialCalls initialLimiter 5000 tenCalls) ≤ 5) ∧
  fst <$> sequentialCalls initialLimiter 5000 tenCalls
    = [5000; 5000; 5000; 5000; 5000; 6000; 6000; 6000; 6000; 6000] ∧
  passed (schedule (mkLoop initialLimiter [] [])
            (burst 1 7 5000 ++ [Timer 6 6000; Timer 7 6000]))
    = [(1%nat, 5000); (2%nat, 5000); (3%nat, 5000); (4%nat, 5000); (5%nat, 5000);
       (6%nat, 6000); (7%nat, 6000)].
Proof.
  assert (Forall (λ c : Z * Z, 0 ≤ c.1 ∧ 0 ≤ c.2) tenCalls) as Hcalls
    by (unfold tenCalls; repeat constructor; simpl; lia).
  destruct (rate_limit tenCalls 5000 5000 Hcalls ltac:(lia) ltac:(lia))
    as ((_ & _ & Hcount) & _ & Hburst).
  split; [exact Hcalls|]. split; [exact Hcount|].
  split; [vm_compute; reflexivity|].
  change 6000 with (5000 + 1000). rewrite Hburst. reflexivity.
Defined.

End claims_fetcher.

Section claims_pipeline.
Import JS Analyzer Monitor Examples PipelineFacts.

#[local] Open Scope Z_scope.

(** C1, where the code departs from the claim. The monitor is at block 10,
    the chain at block 15, and a stop is requested while block 12 is
    processed: the loop over the blocks ends after block 12 (blocks 13, 14
    and 15 are not gone through), yet the last-processed-block marker is set
    to 15. When the monitor is started again it resumes after block 15, and
    the contract created in block 14, which an undisturbed pass finds, is
    never queued. *)
Theorem stop_marker_past_unscanned_blocks :
  let stoppedRun := tick client stopInBlock12 running in
  stopRequested stoppedRun = true ∧
  scanned stoppedRun = [11; 12] ∧
  MonitorState.lastProcessedBlock (state stoppedRun) = 15 ∧
  auditQueue stoppedRun = [] ∧
  (∃ d, auditQueue (tick client quiet running) = [d] ∧
        ContractDeployment.blockNumber d = 14) ∧
  ∃ again,
    start config 15 1700000100000 (state (poll client [quiet] stoppedRun)) = Some again ∧
    MonitorState.lastProcessedBlock (state again) = 15 ∧
    scanned (tick client quiet again) = [] ∧
    auditQueue (tick client quiet again) = [].
Proof.
  cbv zeta. split; [by vm_compute|]. split; [by vm_compute|].
  split; [by vm_compute|]. split; [by vm_compute|].
  split; [eexists; split; by vm_compute|].
  eexists. split; [by vm_compute|]. split; [by vm_compute|]. split; by vm_compute.
Qed.

(** C2, as stated, fails: when a report for the address of the deployment
    is stored already, the deployment is dropped and the skipped counter
    is what it was, not one more. *)
Lemma duplicate_counter_counterexample :
  ∃ existing w',
    Storage.getAuditByAddress (store unverifiedStored)
      (ContractDeployment.contractAddress deployment) = Some existing ∧
    processContract 1 basescan oracle runtime deployment config unverifiedStored
      = Some (w', AlreadyAudited) ∧
    MonitorState.contractsSkipped (monitorState w')
      = MonitorState.contractsSkipped (monitorState unverifiedStored) ∧
    MonitorState.contractsSkipped (monitorState w')
      ≠ MonitorState.contractsSkipped (monitorState unverifiedStored) + 1.
Proof.
  eexists _, _. split; [by vm_compute|]. split; [by vm_compute|].
  split; by vm_compute.
Qed.

(** C2, amended: for every deployment whose contract address has a report
    in the store already, processing the deployment stores and writes no
    report, fetches no source and runs no analysis (after its wait, it
    returns), and leaves every counter as it was: found, audited and
    skipped. *)
Theorem duplicate_dropped (fuel : nat) (env : Basescan.Env) (o : Oracle) (rt : Runtime)
    (d : ContractDeployment.t) (cfg : AppConfig.t) (w : World) (existing : AuditReport.t) :
  Storage.getAuditByAddress (store w) (ContractDeployment.contractAddress d)
    = Some existing →
  ∃ w',
    processContract fuel env o rt d cfg w = Some (w', AlreadyAudited) ∧
    store w' = store w ∧
    savedSince w w' = [] ∧
    monitorState w' = monitorState w ∧
    effects w' = effects w ++ [Slept 30000].
Proof.
  intros Hexisting. unfold processContract. cbn [did store].
  rewrite Hexisting. eexists. split; [done|]. cbn.
  split; [done|]. split; [|done].
  unfold savedSince. by rewrite drop_all.
Qed.

Lemma duplicate_dropped_witness :
  ∃ existing w',
    Storage.getAuditByAddress (store unverifiedStored)
      (ContractDeployment.contractAddress deployment) = Some existing ∧
    processContract 1 basescan oracle runtime deployment config unverifiedStored
      = Some (w', AlreadyAudited) ∧
    store w' = store unverifiedStored ∧
    savedSince unverifiedStored w' = [] ∧
    monitorState w' = monitorState unverifiedStored ∧
    effects w' = effects unverifiedStored ++ [Slept 30000].
Proof.
  assert (Storage.getAuditByAddress (store unverifiedStored)
            (ContractDeployment.contractAddress deployment)
          = Some (minimalReport runtime deployment)) as Hexisting
    by (vm_compute; reflexivity).
  destruct (duplicate_dropped 1 basescan oracle runtime deployment config
              unverifiedStored _ Hexisting) as (w' & H).
  exists (minimalReport runtime deployment), w'. split; [exact Hexisting | exact H].
Defined.







End claims_pipeline.

(** * Further properties of the code *)

Section more_chunker.
Import JS JSFacts Analyzer AnalyzerFacts More ChunkerFacts.

#[local] Opaque MAX_SOURCE_LENGTH.

(** X1: no chunk of [splitByLines] is empty and none begins with a
    newline (blank lines at the start of a chunk are dropped); it returns no
    chunk at all exactly when the text has no non-empty line, that is, when
    it is empty or made of newlines only, whatever its length. *)
Theorem splitByLines_chunks_begin_with_text (text : jsstring) (maxLength : nat) :
  Forall begins_with_text (splitByLines text maxLength) ∧
  (splitByLines text maxLength = [] ↔ nonempty_lines text = []).
Proof.
  pose proof (splitByLines_begins text maxLength) as Hbegin.
  split; [done|]. split.
  - intros H. by rewrite <- (splitByLines_lines maxLength), H.
  - intros H. pose proof (splitByLines_lines maxLength text) as Hlines.
    rewrite H in Hlines.
    destruct (splitByLines text maxLength) as [|c cs]; [done|].
    apply Forall_cons in Hbegin as [Hc _]. apply begins_with_text_lines in Hc.
    unfold chunk_lines in Hlines. simpl in Hlines.
    by apply app_eq_nil in Hlines as [? _].
Qed.

(** X2: a text that fits within the limit and does not begin with a
    newline is packed into one chunk, the text itself. *)
Theorem splitByLines_small (text : jsstring) (maxLength : nat) :
  begins_with_text text →
  length text ≤ maxLength →
  splitByLines text maxLength = [text].
Proof.
  intros Hbegin Hlen. unfold splitByLines.
  destruct text as [|ch text]; [done|]. simpl in Hbegin.
  destruct (split_nl_cons (ch :: text)) as (l & ls & Hs).
  pose proof (split_nl_join _ _ _ Hs) as Hjoin. rewrite Hs.
  assert (l ≠ []) as Hl.
  { simpl in Hs. destruct (N.eqb_spec ch LF); [done|].
    destruct (split_nl text); by simplify_eq. }
  cbn [foldl]. unfold splitByLines_step at 2.
  cbn [length Nat.add]. rewrite (bool_decide_eq_false_2 (0 < 0)) by lia.
  rewrite andb_false_r. cbn [truthy app].
  rewrite splitByLines_fold_fits; [|done|by rewrite <- Hjoin].
  rewrite <- Hjoin. by cbn.
Qed.

Lemma splitByLines_small_witness :
  splitByLines (js "pragma solidity ^0.8.0;" ++ [LF] ++ js "contract A {}") 100
  = [js "pragma solidity ^0.8.0;" ++ [LF] ++ js "contract A {}"].
Proof.
  apply splitByLines_small; [by vm_compute | vm_compute; lia].
Defined.

(** X3: for a source that is not empty, no text handed to the analyzer is
    empty. *)
Theorem analyzedChunks_nonempty (src : jsstring) :
  src ≠ [] → Forall (λ c, c ≠ []) (analyzedChunks src).
Proof.
  intros Hsrc. unfold analyzedChunks. case_bool_decide; [by repeat constructor|].
  destruct (contractMatches src) as [|m0 [|m1 ms]] eqn:Hm;
    try (rewrite chunkSourceCode_few by (rewrite Hm; simpl; lia);
         eapply Forall_impl; [apply splitByLines_begins|];
         apply begins_with_text_nonempty).
  pose proof (contractMatches_sorted src) as Hsorted.
  pose proof (contractMatches_shape src) as Hshape. rewrite Hm in Hsorted, Hshape.
  assert (Forall (λ c, c ≠ []) (unitChunks src (m0 :: m1 :: ms))) as Hunits.
  { apply unitChunks_nonempty_chunks; [done|]. intros m' Hm' Hdrop.
    destruct (Hshape m' Hm') as [_ Hne]. by rewrite Hdrop in Hne. }
  destruct (unitChunks src (m0 :: m1 :: ms)) as [|c0 cs] eqn:Hu;
    [by apply unitChunks_nonempty in Hu|].
  rewrite (chunkSourceCode_multi _ _ _ _ _ _ Hm Hu).
  apply Forall_cons in Hunits as [Hc0 Hcs]. constructor; [|done].
  by destruct (preambleOf src).
Qed.

Lemma analyzedChunks_nonempty_witness :
  Forall (λ c, c ≠ []) (analyzedChunks (js "contract A {}")).
Proof. apply analyzedChunks_nonempty. by vm_compute. Defined.

(** X4: the text [parseFindings] tries to parse runs from the first
    opening bracket of the answer to its last closing bracket, both
    included; an answer with no closing bracket after its first opening
    bracket gives no finding, and nothing is parsed. *)
Theorem candidate_array (o : Oracle) (threshold : float) (pre mid post : jsstring) :
  LBRACKET ∉ pre →
  RBRACKET ∉ post →
  match_first jsonArrayRegex (pre ++ [LBRACKET] ++ mid ++ [RBRACKET] ++ post)
    = Some ([LBRACKET] ++ mid ++ [RBRACKET]) ∧
  match_first jsonArrayRegex (pre ++ post) = None ∧
  parseFindings o (pre ++ post) threshold = [].
Proof.
  intros Hpre Hpost. split; [|split].
  - induction pre as [|c pre IH].
    + cbn [app match_first]. rewrite jsonArrayRegex_at_bracket by done.
      f_equal.
      replace (LBRACKET :: mid ++ RBRACKET :: post)
        with ((LBRACKET :: mid ++ [RBRACKET]) ++ post)
        by (simpl; by rewrite <- app_assoc).
      apply take_app_length'. simpl. rewrite length_app. simpl. lia.
    + apply not_elem_of_cons in Hpre as [Hc Hpre].
      cbn [app match_first]. rewrite jsonArrayRegex_not_bracket by done.
      by apply IH.
  - induction pre as [|c pre IH].
    + simpl. clear Hpre. induction post as [|c post IH]; [done|].
      cbn [match_first]. rewrite jsonArrayRegex_no_closing by done.
      apply not_elem_of_cons in Hpost as [_ Hpost]. by apply IH.
    + apply not_elem_of_cons in Hpre as [Hc Hpre].
      cbn [app match_first]. rewrite jsonArrayRegex_not_bracket by done.
      by apply IH.
  - unfold parseFindings.
    assert (match_first jsonArrayRegex (pre ++ post) = None) as ->; [|done].
    induction pre as [|c pre IH].
    + simpl. clear Hpre. induction post as [|c post IH]; [done|].
      cbn [match_first]. rewrite jsonArrayRegex_no_closing by done.
      apply not_elem_of_cons in Hpost as [_ Hpost]. by apply IH.
    + apply not_elem_of_cons in Hpre as [Hc Hpre].
      cbn [app match_first]. rewrite jsonArrayRegex_not_bracket by done.
      by apply IH.
Qed.

Lemma candidate_array_witness :
  match_first jsonArrayRegex
    (js "Here: " ++ [LBRACKET] ++ js "1] and [2" ++ [RBRACKET] ++ js " done.")
  = Some ([LBRACKET] ++ js "1] and [2" ++ [RBRACKET]).
Proof.
  apply (candidate_array Examples.oracle 0.7 (js "Here: ") (js "1] and [2") (js " done."));
    apply (bool_decide_unpack _); vm_compute; exact I.
Defined.

End more_chunker.

Section more_reports.
Import JS Analyzer Monitor PipelineFacts ReportFacts.

(** X5: the overall risk of findings gathered from several lists, as
    [analyzeContract] gathers those of the chunks, is the higher of the
    risks of the lists; it does not depend on the order of the findings,
    and further findings never lower it. *)
Theorem risk_of_gathered_findings (a b : list SolidityFinding.t) :
  determineOverallRisk (a ++ b)
    = higher (determineOverallRisk a) (determineOverallRisk b) ∧
  (∀ a', a ≡ₚ a' → determineOverallRisk a' = determineOverallRisk a) ∧
  rank (determineOverallRisk a) ≤ rank (determineOverallRisk (a ++ b)).
Proof.
  assert (determineOverallRisk (a ++ b)
          = higher (determineOverallRisk a) (determineOverallRisk b)) as Happ.
  { unfold determineOverallRisk. rewrite !existsb_app.
    repeat (destruct (existsb _ a)); repeat (destruct (existsb _ b)); reflexivity. }
  split; [exact Happ|]. split.
  - intros a' Hperm. unfold determineOverallRisk.
    by rewrite <- !(existsb_Permutation _ a a' Hperm).
  - rewrite Happ, higher_rank. lia.
Qed.


(** X7: for the same findings and contract name, the handler of on-demand
    audits and the monitor pipeline compute the same summary and the same
    overall risk. *)
Theorem on_demand_same_summary_and_risk (findings : list SolidityFinding.t)
    (contractName : jsstring) :
  Api.summaryOf findings contractName = generateSummary findings contractName ∧
  Api.overallRiskOf findings = determineOverallRisk findings.
Proof.
  split; [|reflexivity].
  unfold Api.summaryOf, generateSummary. destruct findings as [|f findings].
  - by rewrite bool_decide_eq_false_2 by (simpl; lia).
  - by rewrite bool_decide_eq_true_2 by (simpl; lia).
Qed.

End more_reports.

Section more_store.
Import JS Storage StorageMore StoreFacts.

(** X8: after [saveAudit], the report is the one found under its id and
    under its address, however the address asked for is cased; what is
    found under any other id or address is what was found before; and one
    file, named after the id, has been written. *)
Theorem saveAudit_then_get (report : AuditReport.t) (dataDir : jsstring) (s : Store)
    (id address : jsstring) :
  getAuditById (saveAudit report dataDir s) id
    = (if decide (AuditReport.id report = id) then Some report else getAuditById s id) ∧
  getAuditByAddress (saveAudit report dataDir s) address
    = (if decide (toLowerCase (AuditReport.contractAddress report) = toLowerCase address)
       then Some report else getAuditByAddress s address) ∧
  files (saveAudit report dataDir s)
    = files s ++ [(dataDir, AuditReport.id report ++ js ".json", report)].
Proof.
  unfold getAuditById, getAuditByAddress, saveAudit. simpl.
  by rewrite !lookup_insert.
Qed.

(** X9: whatever reports were loaded and saved since the process started,
    a lookup by address returns only a report of that address, up to case,
    and a lookup by id only a report with that id. *)
Theorem lookups_return_own_reports (s : Store) (key : jsstring) (r : AuditReport.t) :
  reachable s →
  (getAuditByAddress s key = Some r →
   toLowerCase (AuditReport.contractAddress r) = toLowerCase key) ∧
  (getAuditById s key = Some r → AuditReport.id r = key).
Proof.
  intros [Ha Hi]%keyed_reachable. unfold getAuditByAddress, getAuditById. split.
  - intros H. by apply Ha in H.
  - apply Hi.
Qed.

Lemma lookups_return_own_reports_witness :
  reachable threeSaved ∧
  getAuditByAddress threeSaved (js "0xaaa1") = Some (report "id-1" "0xAAA1" true 1000 (risk high)) ∧
  toLowerCase (js "0xAAA1") = toLowerCase (js "0xaaa1").
Proof.
  assert (reachable threeSaved) as Hreach by (repeat constructor).
  assert (getAuditByAddress threeSaved (js "0xaaa1")
          = Some (report "id-1" "0xAAA1" true 1000 (risk high))) as Hget
    by (vm_compute; reflexivity).
  destruct (lookups_return_own_reports threeSaved (js "0xaaa1")
              (report "id-1" "0xAAA1" true 1000 (risk high)) Hreach) as [Haddr _].
  split; [exact Hreach|]. split; [exact Hget|]. exact (Haddr Hget).
Defined.

(** X10: [loadAudits] writes no file and indexes the entries named
    [*.json] that can be read, in the order of the directory: afterwards
    the report found under an id, or under an address, is the last one read
    with that id, or that address up to case, and what was found before
    when none was read. *)
Theorem loadAudits_last_read (dir : list (jsstring * option AuditReport.t)) (s : Store)
    (id address : jsstring) :
  files (loadAudits dir s) = files s ∧
  getAuditById (loadAudits dir s) id =
    match lastWhere (λ r, bool_decide (AuditReport.id r = id)) (loaded dir) with
    | Some r => Some r
    | None => getAuditById s id
    end ∧
  getAuditByAddress (loadAudits dir s) address =
    match lastWhere (λ r, bool_decide (toLowerCase (AuditReport.contractAddress r)
                                       = toLowerCase address)) (loaded dir) with
    | Some r => Some r
    | None => getAuditByAddress s address
    end.
Proof.
  rewrite loadAudits_loaded. unfold getAuditById, getAuditByAddress.
  split; [|split].
  - generalize (loaded dir). intros l. revert s.
    induction l as [|r l IH]; intros s; [done|]. simpl. by rewrite IH.
  - apply index_all_byId.
  - apply index_all_byAddress.
Qed.


(** X12: saving a report under an id that is not in the store adds one to
    the total of the statistics, and one to the audited contracts when its
    source was available, one to the skipped contracts when it was not. *)
Theorem getStats_after_save (report : AuditReport.t) (dataDir : jsstring) (s : Store)
    (snapshot : MonitorState.t) :
  getAuditById s (AuditReport.id report) = None →
  let before := getStats s snapshot in
  let after := getStats (saveAudit report dataDir s) snapshot in
  DashboardStats.totalContracts after = S (DashboardStats.totalContracts before) ∧
  DashboardStats.totalAudited after
    = (if AuditReport.sourceAvailable report then 1 else 0)
      + DashboardStats.totalAudited before ∧
  DashboardStats.totalSkipped after
    = (if AuditReport.sourceAvailable report then 0 else 1)
      + DashboardStats.totalSkipped before.
Proof.
  intros Hfresh. pose proof (allAudits_save report dataDir s Hfresh) as Hperm. cbn.
  split; [by rewrite Hperm|].
  rewrite !(filter_length_Permutation _ _ _ Hperm). simpl.
  by destruct (AuditReport.sourceAvailable report).
Qed.

Lemma getStats_after_save_witness :
  let r := report "id-4" "0xddd4" false 4000 none in
  getAuditById threeSaved (js "id-4") = None ∧
  DashboardStats.totalContracts (getStats (saveAudit r (js "./data") threeSaved) Examples.idle) = 4 ∧
  DashboardStats.totalSkipped (getStats (saveAudit r (js "./data") threeSaved) Examples.idle) = 2.
Proof.
  cbv zeta.
  assert (getAuditById threeSaved (AuditReport.id (report "id-4" "0xddd4" false 4000 none))
          = None) as Hfresh by (vm_compute; reflexivity).
  destruct (getStats_after_save (report "id-4" "0xddd4" false 4000 none) (js "./data")
              threeSaved Examples.idle Hfresh) as (Htotal & _ & Hskipped).
  split; [exact Hfresh|]. split.
  - rewrite Htotal. vm_compute. reflexivity.
  - rewrite Hskipped. vm_compute. reflexivity.
Defined.

(** X13: for a page number of at least 1 and a limit of at least 0,
    [listAudits] returns at most [limit] reports, those at positions
    [(page - 1) * limit] and following of the sorted reports of the severity
    asked for, all of them reports of the store with that severity; the
    total it returns is the number of reports of that severity, whatever the
    page. *)
Theorem listAudits_page (audits : list AuditReport.t) (options : ListOptions) :
  (1 ≤ default 1%Z (page options))%Z →
  (0 ≤ default 20%Z (limit options))%Z →
  let result := listAudits audits options in
  result.2 = length (List.filter (matchesSeverity (severity options)) audits) ∧
  result.1 = take (Z.to_nat (default 20%Z (limit options)))
               (drop (Z.to_nat ((default 1%Z (page options) - 1) * default 20%Z (limit options)))
                  (listing audits options)) ∧
  length result.1 ≤ Z.to_nat (default 20%Z (limit options)) ∧
  ∀ a, a ∈ result.1 → a ∈ audits ∧ matchesSeverity (severity options) a = true.
Proof.
  intros Hpage Hlimit. cbn zeta.
  pose proof (listAudits_paged audits options Hpage Hlimit) as Hpaged.
  split.
  { unfold listAudits. cbn [snd]. by rewrite sort_Permutation. }
  split; [exact Hpaged|]. rewrite Hpaged. split.
  { rewrite length_take. lia. }
  intros a Ha. apply subseteq_take, subseteq_drop in Ha.
  unfold listing in Ha. rewrite sort_Permutation in Ha.
  apply list_elem_of_In, List.filter_In in Ha as [Hin Hsev].
  split; [by apply list_elem_of_In | done].
Qed.

Lemma listAudits_page_witness :
  listAudits threeReports (withPage pagesOfTwo 2)
  = ([report "id-1" "0xAAA1" true 1000 (risk high)], 3).
Proof.
  destruct (listAudits_page threeReports (withPage pagesOfTwo 2)) as (Htotal & Hpaged & _);
    [simpl; lia | simpl; lia |].
  destruct (listAudits threeReports (withPage pagesOfTwo 2)) as [paged total].
  simpl in Htotal, Hpaged. rewrite Htotal, Hpaged. vm_compute. reflexivity.
Defined.

(** X14: with a limit of at least 1, the pages 1 to [n] of [listAudits],
    one after the other, are the first [n * limit] of the sorted reports of
    the severity asked for: no report is on two pages, and none is left out
    once [n * limit] reaches the total. *)
Theorem listAudits_pages (audits : list AuditReport.t) (options : ListOptions)
    (size n : nat) :
  limit options = Some (Z.of_nat size) →
  1 ≤ size →
  flat_map (λ p, (listAudits audits (withPage options (Z.of_nat p))).1) (seq 1 n)
    = take (n * size) (listing audits options) ∧
  (length (listing audits options) ≤ n * size →
   flat_map (λ p, (listAudits audits (withPage options (Z.of_nat p))).1) (seq 1 n)
     = listing audits options).
Proof.
  intros Hlimit Hsize.
  assert (flat_map (λ p, (listAudits audits (withPage options (Z.of_nat p))).1) (seq 1 n)
          = take (n * size) (listing audits options)) as Htile.
  { rewrite <- pages_tile, <- seq_shift, flat_map_map. apply List.flat_map_ext.
    intros p.
    pose proof (listAudits_paged audits (withPage options (Z.of_nat (S p)))) as Hpaged.
    rewrite Hpaged by (simpl; rewrite ?Hlimit; simpl; lia). clear Hpaged.
    simpl. rewrite Hlimit. simpl.
    rewrite Nat2Z.id. do 2 f_equal. lia. }
  split; [exact Htile|]. intros Hall. rewrite Htile. by apply take_ge.
Qed.

Lemma listAudits_pages_witness :
  flat_map (λ p, (listAudits threeReports (withPage pagesOfTwo (Z.of_nat p))).1) (seq 1 2)
  = [report "id-2" "0xbbb2" false 3000 none;
     report "id-3" "0xccc3" true 2000 (risk critical);
     report "id-1" "0xAAA1" true 1000 (risk high)].
Proof.
  destruct (listAudits_pages threeReports pagesOfTwo 2 2) as [_ Hall];
    [reflexivity | lia |].
  rewrite Hall; [vm_compute; reflexivity | vm_compute; lia].
Defined.

(** X15: the reports [listAudits] pages through are the reports of the
    severity asked for, each once, sorted on the value chosen by [sortBy]:
    never increasing for the order [desc], never decreasing otherwise.
    Sorted on [overallRisk], the value is the position in critical, high,
    medium, low, none: in the order [desc] critical reports come last. *)
Theorem listAudits_sorted (audits : list AuditReport.t) (options : ListOptions) :
  listing audits options ≡ₚ List.filter (matchesSeverity (severity options)) audits ∧
  StronglySorted
    (inOrder (default (js "auditedAt") (sortBy options))
       (default (js "desc") (order options)))
    (listing audits options) ∧
  (sortBy options = Some (js "overallRisk") →
   default (js "desc") (order options) = js "desc" →
   ∀ pre a post, listing audits options = pre ++ a :: post →
     AuditReport.overallRisk a = risk critical →
     Forall (λ b, AuditReport.overallRisk b = risk critical) post).
Proof.
  pose proof (listing_sorted audits options) as Hsorted.
  split; [apply sort_Permutation|]. split; [exact Hsorted|].
  intros HsortBy Horder pre a post Hlist Ha.
  rewrite Hlist, HsortBy, Horder in Hsorted. cbn [default] in Hsorted.
  apply StronglySorted_after in Hsorted.
  eapply Forall_impl; [exact Hsorted|]. intros b. unfold inOrder, sortValue.
  rewrite bool_decide_eq_true_2 by done.
  rewrite !(bool_decide_eq_false_2 (js "overallRisk" = js "deployedAt")) by done.
  rewrite !bool_decide_eq_true_2 by done. rewrite Ha.
  destruct (AuditReport.overallRisk b) as [[]|]; simpl; (done || lia).
Qed.

End more_store.

Section more_monitor.
Import JS Monitor PipelineFacts Worker Ticks MonitorFacts.

#[local] Open Scope Z_scope.

(** X16: however pushes of the monitor, passes of the loop of
    [processAudits] and settlings of [processContract] interleave, the
    count of audits under way is the number of calls of [processContract]
    that have not settled; it is never negative and never above
    [maxConcurrentAnalyses] (never above 0 when that is negative); and
    deployments are dispatched in the order they were pushed, each once:
    those dispatched, followed by the queue, are those pushed. *)
Theorem audit_processor_invariant (maxConcurrentAnalyses : Z) (events : list Event) :
  let p := run maxConcurrentAnalyses events in
  processingAudits p = Z.of_nat (length (inFlight p)) ∧
  0 ≤ processingAudits p ≤ Z.max 0 maxConcurrentAnalyses ∧
  dispatched p ++ Worker.auditQueue p = pushed events ∧
  inFlight p ⊆+ dispatched p.
Proof.
  cbv zeta. unfold run.
  destruct (run_ok maxConcurrentAnalyses events initial []) as (Hcount & Hmax & Hall & Hin).
  { unfold pool_ok, initial. simpl. repeat split; (done || lia). }
  split; [done|]. split; [lia|]. split; done.
Qed.

(** X17: in a pass during which no stop is requested, the monitor goes
    through the blocks after the marker up to the height it read, in
    ascending order, each block that can be read once and no other, and the
    marker is then the height, or what it was when the height is not above
    it. *)
Theorem tick_scans_in_order (client : Client) (t : Tick) (r : Run) (current : Z) :
  stopRequested r = false →
  stopAtHeight t = false →
  (∀ b, stopDuring t b = false) →
  height t = Some current →
  let last := MonitorState.lastProcessedBlock (state r) in
  scanned (tick client t r)
    = scanned r ++ List.filter (readable client) (seqZ (last + 1) (current - last)) ∧
  MonitorState.lastProcessedBlock (state (tick client t r)) = Z.max last current.
Proof.
  intros Hrun Hheight Hquiet Hcurrent last.
  split.
  - unfold tick. rewrite Hcurrent, Hheight. cbn [requestStop scanned state].
    fold last. case_bool_decide as Hlt.
    + cbn [setLastProcessedBlock scanned].
      match goal with
      | |- context [blocks client t ?n ?b ?r0] =>
          destruct (blocks_undisturbed client t n b r0) as [Hscanned _];
            [simpl; by rewrite Hrun | done |]
      end.
      rewrite Hscanned. cbn [scanned state] in *. unfold last in *.
      do 3 f_equal. lia.
    + cbn [scanned]. unfold seqZ. replace (Z.to_nat (current - last)) with 0%nat by lia.
      simpl. by rewrite app_nil_r.
  - rewrite tick_lastProcessedBlock, Hcurrent. fold last. case_bool_decide; lia.
Qed.

Lemma tick_scans_in_order_witness :
  scanned (tick Examples.client Examples.quiet Examples.running) = [11; 12; 13; 14; 15] ∧
  MonitorState.lastProcessedBlock
    (state (tick Examples.client Examples.quiet Examples.running)) = 15.
Proof.
  destruct (tick_scans_in_order Examples.client Examples.quiet Examples.running 15)
    as [Hscanned Hmarker]; [reflexivity..|].
  split; [rewrite Hscanned | rewrite Hmarker]; vm_compute; reflexivity.
Defined.

(** X18: a pass of the monitor, whatever fails and whenever a stop is
    requested, only pushes deployments to the queue, each stamped with a
    block after the marker and up to the height read, and adds their number
    to the found counter; the audited and skipped counters, the running flag
    and the start time are as they were. *)
Theorem tick_finds_deployments (client : Client) (t : Tick) (r : Run) :
  ∃ new,
    found (MonitorState.lastProcessedBlock (state r) + 1)
      (default (MonitorState.lastProcessedBlock (state r)) (height t) + 1)
      new r (tick client t r).
Proof.
  assert (∀ b X new lo hi, found lo hi new r X → found lo hi new r (requestStop b X))
    as Hstop by (intros; by eapply found_same; [| |eassumption]).
  assert (∀ c X new lo hi, found lo hi new r X →
            found lo hi new r (setLastProcessedBlock c X)) as Hmark by (by intros).
  unfold tick.
  destruct (height t) as [current|]; cbn [default].
  - case_bool_decide as Hlt.
    + match goal with
      | |- context [blocks client t ?n ?b ?r0] =>
          destruct (blocks_found client t n b r0) as [new Hnew]
      end.
      exists new. apply Hstop, Hmark.
      cbn [requestStop state] in Hnew |- *.
      destruct Hnew as (Hq & Hb & Hrest).
      split; [exact Hq|]. split; [|exact Hrest].
      eapply Forall_impl; [exact Hb|]. simpl. lia.
    + exists []. apply Hstop, Hstop, found_refl.
  - exists []. apply Hstop, Hstop, found_refl.
Qed.

End more_monitor.

Section more_fetcher.
Import JS Basescan BasescanFacts FetcherMore FetcherFacts.

(** X19: a fetch that has returned started with a request for the address
    asked for, and every further request was for the implementation named
    by the record of the request before it; there were no more requests
    than levels of calls. A source is returned only when the first response
    has status 1 and a first record with a source text that is not empty,
    and it carries the address asked for, also when an implementation was
    spliced in; when no source is returned, the one request was the only one. *)
Theorem fetched_source (fuel : nat) (env : Env) (apiKey : jsstring) :
  ∀ (address : jsstring) (source : option ContractSource.t) (requested : list jsstring),
  getContractSource fuel env address apiKey = Returned source requested →
  (∃ others, requested = address :: others) ∧
  follows env apiKey requested ∧
  (length requested ≤ fuel)%nat ∧
  match source with
  | Some contractSource =>
      ContractSource.contractAddress contractSource = address ∧
      ∃ data record others,
        request env address apiKey = Some data ∧
        BasescanResponse.status data = js "1" ∧
        BasescanResponse.result data = record :: others ∧
        BasescanContractResult.SourceCode record ≠ []
  | None => requested = [address]
  end.
Proof.
  induction fuel as [|fuel IH]; intros address source requested; [done|].
  rewrite getContractSource_step. unfold follows. fold follows.
  destruct (request env address apiKey) as [data|] eqn:Hreq.
  2: { intros [= <- <-]. split; [by eexists|]. split; [done|]. split; [simpl; lia | done]. }
  destruct (contractSourceOf env address data) as [contractSource|] eqn:Hsrc.
  2: { intros [= <- <-]. split; [by eexists|]. split; [done|]. split; [simpl; lia | done]. }
  destruct (contractSourceOf_Some _ _ _ _ Hsrc)
    as (Hstatus & (record & others & Hresult & Hne & _) & Haddr).
  assert (∃ data' record others,
            Some data = Some data' ∧ BasescanResponse.status data' = js "1" ∧
            BasescanResponse.result data' = record :: others ∧
            BasescanContractResult.SourceCode record ≠ []) as Hrecord
    by (by exists data, record, others).
  destruct (implementationToFetch contractSource) as [impl|] eqn:Himpl.
  2: { intros [= <- <-]. split; [by eexists|]. split; [done|]. split; [simpl; lia | done]. }
  assert (proxyTarget env apiKey address = Some impl) as Htarget
    by (unfold proxyTarget; rewrite Hreq; simpl; by rewrite Hsrc).
  destruct (getContractSource fuel env impl apiKey) as [|implSource implRequested] eqn:Hfetch;
    [done|].
  destruct (IH _ _ _ Hfetch) as ([rest ->] & Hfollows & Hlen & _).
  assert (follows env apiKey (address :: impl :: rest)) as Hall by done.
  destruct implSource as [implSource|]; intros [= <- <-];
    (split; [by eexists|]); (split; [exact Hall|]);
    (split; [simpl in *; lia|]); done.
Qed.

Lemma fetched_source_witness :
  (∃ others, [js "0xa"; js "0xb"; js "0xc"] = js "0xa" :: others) ∧
  follows twoHops [] [js "0xa"; js "0xb"; js "0xc"] ∧
  (length [js "0xa"; js "0xb"; js "0xc"] ≤ 3)%nat.
Proof.
  assert (∃ source, getContractSource 3 twoHops (js "0xa") []
                      = Returned source [js "0xa"; js "0xb"; js "0xc"]) as [source Hfetch]
    by (eexists; vm_compute; reflexivity).
  destruct (fetched_source 3 twoHops [] (js "0xa") source _ Hfetch)
    as (Hfirst & Hfollows & Hlen & _).
  auto.
Defined.

(** X20: when the record fetched for an address is that of a verified
    proxy naming an implementation, and the fetch of the implementation
    returns no source, the proxy is not dropped: the source returned is the
    proxy's own record, with its own text and name, still flagged as a
    proxy of that implementation. *)
Theorem proxy_without_implementation_source (fuel : nat) (env : Env)
    (apiKey address impl : jsstring)
    (data : BasescanResponse.t) (record : BasescanContractResult.t)
    (others : list BasescanContractResult.t) (requested : list jsstring) :
  request env address apiKey = Some data →
  BasescanResponse.status data = js "1" →
  BasescanResponse.result data = record :: others →
  BasescanContractResult.SourceCode record ≠ [] →
  BasescanContractResult.Proxy record = js "1" →
  BasescanContractResult.Implementation record = impl →
  impl ≠ [] →
  getContractSource fuel env impl apiKey = Returned None requested →
  ∃ source,
    getContractSource (S fuel) env address apiKey
      = Returned (Some source) [address; impl] ∧
    ContractSource.sourceCode source
      = normalizeSource env (BasescanContractResult.SourceCode record) ∧
    ContractSource.contractName source
      = orElse (BasescanContractResult.ContractName record) (js "Unknown") ∧
    ContractSource.isProxy source = true ∧
    ContractSource.implementationAddress source = Some impl.
Proof.
  intros Hreq Hstatus Hresult Hsrc Hproxy Himpl Hne Hfetch.
  pose proof (returned_none _ _ _ _ _ Hfetch) as ->.
  rewrite getContractSource_step, Hreq.
  unfold contractSourceOf. rewrite Hresult, Hstatus.
  rewrite bool_decide_eq_true_2 by done.
  destruct (BasescanContractResult.SourceCode record) as [|c src] eqn:Hs; [done|].
  cbn [negb truthy orb].
  unfold implementationToFetch. cbn [ContractSource.isProxy ContractSource.implementationAddress].
  rewrite Hproxy, Himpl. rewrite bool_decide_eq_true_2 by done.
  destruct impl as [|i impl']; [done|]. cbn [truthy].
  rewrite Hfetch. eexists. split; [reflexivity|].
  cbn [ContractSource.sourceCode ContractSource.contractName ContractSource.isProxy
       ContractSource.implementationAddress].
  done.
Qed.

Lemma proxy_without_implementation_source_witness :
  ∃ source,
    getContractSource 2 orphanProxy (js "0xa") []
      = Returned (Some source) [js "0xa"; js "0xb"] ∧
    ContractSource.sourceCode source = js "contract A {}" ∧
    ContractSource.contractName source = js "A" ∧
    ContractSource.isProxy source = true ∧
    ContractSource.implementationAddress source = Some (js "0xb").
Proof.
  edestruct (proxy_without_implementation_source 1 orphanProxy [] (js "0xa") (js "0xb"))
    as (source & Hfetch & Hcode & Hname & Hproxy & Himpl);
    [vm_compute; reflexivity | vm_compute; reflexivity | vm_compute; reflexivity
    | by vm_compute | vm_compute; reflexivity | vm_compute; reflexivity
    | by vm_compute | vm_compute; reflexivity |].
  exists source. split; [exact Hfetch|].
  rewrite Hcode, Hname. split; [vm_compute; reflexivity|].
  split; [vm_compute; reflexivity|]. by split.
Defined.

(** X21: a source text in double braces is parsed without its first and
    its last character: when what is between them is a JSON object with
    [sources], the text of the record is the files in the order of the
    object, each after a comment line naming it, with a blank line between
    two files. *)
Theorem multi_file_source (env : Env) (body : jsstring)
    (sources : list (jsstring * jsstring)) :
  startsWith body (js "{") = true →
  parseSources env body = Some (Some sources) →
  normalizeSource env (js "{" ++ body ++ js "}") = markedFiles sources.
Proof.
  intros Hbody Hparse. destruct body as [|c body]; [done|].
  unfold normalizeSource.
  assert (startsWith (js "{" ++ (c :: body) ++ js "}") (js "{{") = true) as ->.
  { change (js "{") with [123%N] in *. change (js "{{") with [123%N; 123%N].
    change (js "}") with [125%N].
    cbn [app startsWith] in *. rewrite N.eqb_refl.
    apply andb_true_iff in Hbody as [-> _]. by destruct (body ++ [125%N]). }
  unfold parseMultiFileSource.
  assert (slice_1_m1 (js "{" ++ (c :: body) ++ js "}") = c :: body) as ->.
  { unfold slice_1_m1, slice. change (js "{" ++ (c :: body) ++ js "}")
      with (123%N :: ((c :: body) ++ [125%N])).
    generalize (c :: body). intros s. cbn [length drop]. rewrite length_app. cbn [length].
    replace (S (length s + 1) - 1 - 1)%nat with (length s) by lia.
    by rewrite drop_0, take_app_length. }
  by rewrite Hparse.
Qed.

Lemma multi_file_source_witness :
  normalizeSource twoFiles (js "{{sources}}")
  = js "// --- A.sol ---" ++ [LF] ++ js "contract A {}" ++ [LF; LF] ++
    js "// --- B.sol ---" ++ [LF] ++ js "contract B {}".
Proof.
  change (js "{{sources}}") with (js "{" ++ js "{sources}" ++ js "}").
  rewrite (multi_file_source twoFiles (js "{sources}")
             [(js "A.sol", js "contract A {}"); (js "B.sol", js "contract B {}")]);
    vm_compute; reflexivity.
Defined.

#[local] Open Scope Z_scope.

(** X22: however calls and timers interleave, the counter of the limiter
    stays between 0 and 5, and no caller is lost or let through twice: when
    every call has a caller of its own, the callers let through and those
    still sleeping are, together, exactly the callers of the calls made. *)
Theorem limiter_interleaved (events : list Event) :
  NoDup (callers events) →
  let s := schedule (mkLoop initialLimiter [] []) events in
  0 ≤ requestsThisSecond (limiter s) ≤ 5 ∧
  (passed s).*1 ++ (sleeping s).*1 ≡ₚ callers events.
Proof.
  intros Hnodup. split.
  - assert (∀ s, 0 ≤ requestsThisSecond (limiter s) ≤ 5 →
              0 ≤ requestsThisSecond (limiter (schedule s events)) ≤ 5) as Hcount.
    { induction events as [|e events IH]; intros s Hs; [done|].
      apply IH; [|by apply step_count].
      apply NoDup_app with (l := callers [e]).
      replace (callers [e] ++ callers events) with (callers (e :: events))
        by (by destruct e). done. }
    by apply Hcount.
  - by apply (schedule_callers events _ []).
Qed.

Lemma limiter_interleaved_witness :
  let events := burst 1 7 5000 ++ [Timer 6 6000; Call 8 6000; Timer 7 6001] in
  let s := schedule (mkLoop initialLimiter [] []) events in
  0 ≤ requestsThisSecond (limiter s) ≤ 5 ∧
  (passed s).*1 ++ (sleeping s).*1 ≡ₚ [1; 2; 3; 4; 5; 6; 7; 8]%nat.
Proof.
  apply (limiter_interleaved (burst 1 7 5000 ++ [Timer 6 6000; Call 8 6000; Timer 7 6001])).
  apply (bool_decide_unpack _). vm_compute. exact I.
Defined.

(** X23: of [5 + k] calls made at the same instant, at least a second
    after the last window began, the first five are let through at once
    and the other [k] sleep until a second later; when their timers then
    fire, one after the other, all [k] are let through at that time,
    whatever [k], and the counter reads 1. *)
Theorem burst_then_timers (T late : Z) (k : nat) :
  1000 ≤ T → 0 ≤ late → (0 < k)%nat →
  let asleep := schedule (mkLoop initialLimiter [] []) (burst 1 (5 + k) T) in
  let awake := schedule asleep (timers 6 k (T + 1000 + late)) in
  passed asleep = (λ j, (j, T)) <$> seq 1 5 ∧
  sleeping asleep = (λ j, (j, T + 1000)) <$> seq 6 k ∧
  passed awake = passed asleep ++ ((λ j, (j, T + 1000 + late)) <$> seq 6 k) ∧
  sleeping awake = [] ∧
  limiter awake = mkLimiter (T + 1000 + late) 1.
Proof.
  intros HT Hlate Hk asleep awake.
  assert (asleep = mkLoop (mkLimiter T 5) ((λ j, (j, T + 1000)) <$> seq 6 k)
                     ((λ j, (j, T)) <$> seq 1 5)) as Hasleep.
  { unfold asleep. replace (burst 1 (5 + k) T) with (burst 1 5 T ++ burst 6 k T) by done.
    unfold schedule. rewrite foldl_app. fold (schedule (mkLoop initialLimiter [] []) (burst 1 5 T)).
    rewrite burst_five by done.
    match goal with |- foldl step ?s ?es = _ => fold (schedule s es) end.
    by rewrite burst_sleeps. }
  unfold awake. rewrite Hasleep. cbn [passed sleeping].
  rewrite timers_pass by lia. done.
Qed.

Lemma burst_then_timers_witness :
  let asleep := schedule (mkLoop initialLimiter [] []) (burst 1 8 5000) in
  let awake := schedule asleep (timers 6 3 6000) in
  passed asleep = [(1%nat, 5000); (2%nat, 5000); (3%nat, 5000); (4%nat, 5000); (5%nat, 5000)] ∧
  sleeping asleep = [(6%nat, 6000); (7%nat, 6000); (8%nat, 6000)] ∧
  passed awake = passed asleep ++ [(6%nat, 6000); (7%nat, 6000); (8%nat, 6000)] ∧
  sleeping awake = [] ∧
  limiter awake = mkLimiter 6000 1.
Proof.
  apply (burst_then_timers 5000 0 3); lia.
Defined.

End more_fetcher.

Section more_audits.
Import JS Monitor Analyzer Examples AuditMore AddressFacts AuditFacts PipelineFacts.

(** X24: the on-demand audit answers with a bad request exactly when the
    address of the body is missing or empty or, once trimmed and put in
    lower case, is not [0], then [x], then 40 hexadecimal digits; such an
    answer leaves the process as it was. *)
Theorem bad_request (fuel : nat) (env : Basescan.Env) (o : Oracle) (rt : Runtime)
    (cfg : AppConfig.t) (address : option jsstring) (w : World) :
  (∀ w' error,
     Api.postAudit fuel env o rt cfg address w = Some (w', Api.BadRequest error) → w' = w) ∧
  ((∃ w' error,
      Api.postAudit fuel env o rt cfg address w = Some (w', Api.BadRequest error)) ↔
   match address with
   | Some address => address = [] ∨ ¬ wellFormed (toLowerCase (trim address))
   | None => True
   end).
Proof.
  destruct address as [address|];
    [|split; [by intros ?? [= <- _] | split; [done | intros _; by eexists _, _]]].
  split; [|split].
  - intros w' error H. by apply bad_request_cases in H as [? _].
  - intros (w' & error & H). by apply bad_request_cases in H as [_ ?].
  - intros [->|Hno]; [by eauto|].
    destruct address as [|c address]; [by eauto|].
    unfold Api.postAudit. cbn [truthy negb].
    destruct (Api.validAddress (toLowerCase (trim (c :: address)))) eqn:Hvalid;
      [|by eauto].
    by apply validAddress_wellFormed in Hvalid.
Qed.

(** X25: an address the dashboard sends is never answered with a bad
    request: a value of the form, once trimmed, is [0x] and 40 hexadecimal
    digits of either case, which the server trims to itself and, in lower
    case, finds well formed. *)
Theorem dashboard_address_accepted (value address : jsstring) :
  Dashboard.auditContract value = Some address →
  address = trim value ∧
  trim address = address ∧
  wellFormed (toLowerCase address) ∧
  ∀ fuel env o rt cfg w w' error,
    Api.postAudit fuel env o rt cfg (Some address) w ≠ Some (w', Api.BadRequest error).
Proof.
  unfold Dashboard.auditContract.
  destruct (trim value) as [|c s] eqn:Htrim; [done|]. cbn [truthy negb].
  destruct (test_from _ 0 (c :: s)) eqn:Htest; [|done]. cbn [negb]. intros [= <-].
  apply dashboard_accepts in Htest as (digits & Haddr & Hlen & Hall).
  assert (Forall (λ c, is_space c = false) (c :: s)) as Hspace.
  { rewrite Haddr. do 2 (constructor; [done|]).
    eapply Forall_impl; [exact Hall|]. apply is_hex_not_space. }
  assert (wellFormed (toLowerCase (c :: s))) as Hwell.
  { rewrite Haddr. exists 120%N, (toLowerCase digits).
    split; [done|]. split; [done|]. unfold toLowerCase.
    split; [by rewrite length_map|].
    apply Forall_map. eapply Forall_impl; [exact Hall|]. apply is_hex_lower. }
  split; [done|]. split; [by apply trim_none|]. split; [done|].
  intros fuel env o rt cfg w w' error Hpost.
  apply bad_request_cases in Hpost as [_ [?|Hno]]; [done|].
  apply Hno. by rewrite trim_none.
Qed.

Lemma dashboard_address_accepted_witness :
  let value := js "  0x00000000000000000000000000000000000000AA " in
  let address := js "0x00000000000000000000000000000000000000AA" in
  address = trim value ∧
  trim address = address ∧
  wellFormed (toLowerCase address) ∧
  ∀ fuel env o rt cfg w w' error,
    Api.postAudit fuel env o rt cfg (Some address) w ≠ Some (w', Api.BadRequest error).
Proof.
  apply (dashboard_address_accepted
           (js "  0x00000000000000000000000000000000000000AA ")).
  vm_compute. reflexivity.
Defined.



#[local] Open Scope Z_scope.



End more_audits.

Section more_prompt.
Import JS Prompts PromptFacts.

(** X28: for a contract name and a compiler version without brace and
    without dollar, and a source text without dollar, the prompt is the
    template with the name, the version and the source text, whole and
    unchanged, in the places of the three placeholders, and nothing else
    changed: the instructions and the example follow the source text. *)
Theorem prompt_layout (contractName sourceCode compilerVersion : jsstring) :
  LBRACE ∉ contractName → DOLLAR ∉ contractName →
  LBRACE ∉ compilerVersion → DOLLAR ∉ compilerVersion →
  DOLLAR ∉ sourceCode →
  buildSolidityPrompt contractName sourceCode compilerVersion
  = text ["You are a JSON-only smart contract security scanner. Analyze this Solidity contract for vulnerabilities.";
          EmptyString; "Contract Name: "]
    ++ contractName
    ++ text [EmptyString; "Compiler Version: "]
    ++ compilerVersion
    ++ text [EmptyString; EmptyString; "Source Code:"; EmptyString]
    ++ sourceCode
    ++ afterSource.
Proof.
  intros Hname Hname' Hversion Hversion' Hsource.
  unfold buildSolidityPrompt. rewrite template_parts.
  set (head := text [_; _; _]). set (mid := text [_; _]). set (last := text [_; _; _; _]).
  assert (LBRACE ∉ head) as Hhead by (apply (bool_decide_unpack _); vm_compute; exact I).
  assert (LBRACE ∉ mid) as Hmid by (apply (bool_decide_unpack _); vm_compute; exact I).
  assert (LBRACE ∉ last) as Hlast by (apply (bool_decide_unpack _); vm_compute; exact I).
  change (js "{contractName}") with (LBRACE :: js "contractName}").
  change (js "{compilerVersion}") with (LBRACE :: js "compilerVersion}").
  change (js "{sourceCode}") with (LBRACE :: js "sourceCode}").
  rewrite (replace_first head) by done.
  rewrite (app_assoc contractName), (app_assoc head).
  rewrite (replace_first ((head ++ contractName) ++ mid))
    by (done || by rewrite !not_elem_of_app).
  rewrite (app_assoc compilerVersion), (app_assoc _ (compilerVersion ++ last)).
  rewrite (replace_first (((head ++ contractName) ++ mid) ++ compilerVersion ++ last))
    by (done || by rewrite !not_elem_of_app).
  by rewrite <- !app_assoc.
Qed.

Lemma prompt_layout_witness :
  buildSolidityPrompt (js "Token") (js "contract Token {}") (js "v0.8.20")
  = text ["You are a JSON-only smart contract security scanner. Analyze this Solidity contract for vulnerabilities.";
          EmptyString; "Contract Name: Token"; "Compiler Version: v0.8.20"; EmptyString;
          "Source Code:"; "contract Token {}"]
    ++ afterSource.
Proof.
  rewrite (prompt_layout (js "Token") (js "contract Token {}") (js "v0.8.20"));
    [vm_compute; reflexivity | apply (bool_decide_unpack _); vm_compute; exact I ..].
Defined.

End more_prompt.

Section more_route.
Import JS StorageMore StoreFacts ApiMore.

#[local] Open Scope Z_scope.

(** X29: the list of audits is never asked for with a limit of 0 or above
    100, nor for the page 0. For a page number and a limit of at least 1,
    the answer holds at most [limit] reports, its total is the number of
    stored reports of the severity asked for, and [totalPages] is the number
    of the last page that is not empty: the page asked for holds a report
    exactly when its number is at most [totalPages]. *)
Theorem audits_pages (stored : list AuditReport.t) (query : AuditsQuery) :
  let response := getAudits stored query in
  limit response ≤ 100 ∧ limit response ≠ 0 ∧ page response ≠ 0 ∧
  total response = length (List.filter (matchesSeverity (querySeverity query)) stored) ∧
  (1 ≤ page response → 1 ≤ limit response →
   (length (audits response) ≤ Z.to_nat (limit response))%nat ∧
   (audits response ≠ [] ↔ page response ≤ totalPages response)).
Proof.
  cbn zeta. unfold getAudits. cbn [limit page total audits totalPages].
  set (p := orNumber (queryPage query) 1).
  set (l := Z.min (orNumber (queryLimit query) 20) 100).
  assert (p ≠ 0) as Hp.
  { unfold p, orNumber. destruct (queryPage query) as [v|]; [|done].
    by case_bool_decide. }
  assert (l ≠ 0 ∧ l ≤ 100) as [Hl Hmax].
  { unfold l, orNumber. destruct (queryLimit query) as [v|]; [|done].
    case_bool_decide; [done|lia]. }
  split; [done|]. split; [done|]. split; [done|].
  match goal with |- context [listAudits stored ?o] => set (options := o) end.
  assert ((listAudits stored options).2
          = length (List.filter (matchesSeverity (querySeverity query)) stored)) as Htotal.
  { unfold listAudits. cbn [snd]. by rewrite sort_Permutation. }
  split; [exact Htotal|]. intros Hpage Hlimit.
  assert ((listAudits stored options).1
          = take (Z.to_nat l) (drop (Z.to_nat ((p - 1) * l)) (listing stored options)))
    as Hpaged by (apply listAudits_paged; cbn; lia).
  assert ((listAudits stored options).2 = length (listing stored options)) as Hlisting
    by done.
  rewrite Hpaged, Hlisting. split; [rewrite length_take; lia|].
  set (n := length (listing stored options)).
  assert (take (Z.to_nat l) (drop (Z.to_nat ((p - 1) * l)) (listing stored options)) ≠ []
          ↔ (p - 1) * l < Z.of_nat n) as ->.
  { rewrite <- length_zero_iff_nil, length_take, length_drop. fold n. nia. }
  unfold ceilDiv.
  pose proof (Z.div_mod (- Z.of_nat n) l Hl) as Hdiv.
  pose proof (Z.mod_pos_bound (- Z.of_nat n) l ltac:(lia)) as Hmod.
  nia.
Qed.

Lemma audits_pages_witness :
  let response := getAudits threeReports secondOfTwo in
  (length (audits response) ≤ 2)%nat ∧
  (audits response ≠ [] ↔ 2 ≤ totalPages response).
Proof.
  apply (audits_pages threeReports secondOfTwo); vm_compute; discriminate.
Defined.

End more_route.
